(** * Cryptoscope front end: result reconciliation and presentation

    A shallow embedding of the client-side logic of the dashboard:
    severity canonicalisation and the file-level filter of the findings page,
    the files-collection view of an analysis result, the two directory-tree
    builders, and the server-sent-event handlers of the analyzer page;
    then the escaping and Markdown rendering of the findings page, its
    totals and filter panel, the expanded state and the counts of the file
    trees, the decorations of the code viewer and the ZIP upload.

    Strings are [string] (bytes); JavaScript numbers that the code only uses
    as counts or whole percentages are [Z], and where it divides them the
    quotient and its product are rounded as doubles are ([Ieee]); an
    optional field [x?: T] is an [option T]; a [Set<string>] is a
    [gset string]. *)

From Stdlib Require Import String Ascii List ZArith Lia Bool DecimalString.
From Stdlib Require Import Sorting.Permutation Sorting.Sorted.
From Stdlib Require QArith Qround Qpower Lqa.
From stdpp Require Import gmap strings list.
Import ListNotations.

Local Open Scope string_scope.
Set Warnings "-register-all".

(** ** JavaScript helpers *)

Module Js.

(** Truthiness of an optional string: [undefined] and [""] are falsy. *)
Definition truthy (o : option string) : bool :=
  match o with
  | Some s => negb (String.eqb s "")
  | None => false
  end.

(** [a || b] where [b] is always a string. *)
Definition or_else (a : option string) (b : string) : string :=
  match a with
  | Some s => if String.eqb s "" then b else s
  | None => b
  end.

(** [a || b] where both operands are optional strings. *)
Definition or_opt (a b : option string) : option string :=
  if truthy a then a else b.

(** [String.prototype.toLowerCase], on the ASCII letters; every other byte is
    left as it is. *)
Definition lower_ascii (c : ascii) : ascii :=
  let n := nat_of_ascii c in
  if (65 <=? n)%nat && (n <=? 90)%nat then ascii_of_nat (n + 32) else c.

Fixpoint toLowerCase (s : string) : string :=
  match s with
  | EmptyString => EmptyString
  | String c s' => String (lower_ascii c) (toLowerCase s')
  end.

(** Template-literal rendering of a whole number. *)
Definition show (n : Z) : string := NilZero.string_of_int (Z.to_int n).

End Js.

(** ** Findings page: severity buckets and the file filter *)

Module Findings.

Record Finding := {
  id : option string;
  ruleId : option string;
  category : option string;
  severity : option string;
  description : option string;
  recommendation : option string;
  line : option Z;
  column : option Z;
  match_ : option string;
  rankedSeverity : option string
}.

(** [findings] is read as [f.findings || []], so it may be missing. *)
Record ScanFile := {
  path : string;
  language : option string;
  findings : option (list Finding)
}.

(** The label [canonicalSeverity] classifies: its local [raw]. *)
Definition raw (finding : Finding) : string :=
  Js.toLowerCase
    (Js.or_else (Js.or_opt (rankedSeverity finding) (severity finding)) "info").

Definition canonicalSeverity (finding : Finding) : string :=
  let raw := raw finding in
  if String.eqb raw "critical" || String.eqb raw "error" || String.eqb raw "high"
  then "high"
  else if String.eqb raw "warning" || String.eqb raw "medium" then "medium"
  else if String.eqb raw "info" || String.eqb raw "informational" then "info"
  else "low".

(** The [filters] state of [FindingsPage]; its fields [severity] and
    [category] are prefixed to keep them apart from those of [Finding]. *)
Record Filters := {
  f_severity : gset string;
  f_category : gset string;
  cryptoOnly : bool
}.

(** [s.has(x)] and [!s.size]. *)
Definition has (s : gset string) (x : string) : bool := bool_decide (x ∈ s).
Definition no_size (s : gset string) : bool := (size s =? 0)%nat.

(** [f.findings || []] *)
Definition findings_of (f : ScanFile) : list Finding :=
  match findings f with Some l => l | None => [] end.

(** [(fi.category || 'other').toLowerCase()] *)
Definition category_key (fi : Finding) : string :=
  Js.toLowerCase (Js.or_else (category fi) "other").

(** The per-finding test of the [some] callback. *)
Definition finding_passes (sev cat : gset string) (fi : Finding) : bool :=
  (no_size sev || has sev (canonicalSeverity fi)) &&
  (no_size cat || has cat (category_key fi)).

(** The callback given to [files.filter] in [filteredFiles]. *)
Definition keeps (filters : Filters) (f : ScanFile) : bool :=
  let sev := f_severity filters in
  let cat := f_category filters in
  let hasFindings := (0 <? length (findings_of f))%nat in
  if cryptoOnly filters && negb hasFindings then false
  else if no_size sev && no_size cat then true
  else existsb (finding_passes sev cat) (findings_of f).

Definition filteredFiles (files : list ScanFile) (filters : Filters)
  : list ScanFile :=
  List.filter (keeps filters) files.

(** A finding with only a [severity] (resp. [rankedSeverity]) label. *)
Definition blank : Finding :=
  {| id := None; ruleId := None; category := None; severity := None;
     description := None; recommendation := None; line := None;
     column := None; match_ := None; rankedSeverity := None |}.

Definition with_severity (s : string) : Finding :=
  {| id := None; ruleId := None; category := None; severity := Some s;
     description := None; recommendation := None; line := None;
     column := None; match_ := None; rankedSeverity := None |}.

Definition with_both (ranked s : string) : Finding :=
  {| id := None; ruleId := None; category := None; severity := Some s;
     description := None; recommendation := None; line := None;
     column := None; match_ := None; rankedSeverity := Some ranked |}.

(** *** Notions used in the statements *)

(** The four canonical severities, and the labels [canonicalSeverity] knows. *)
Definition buckets : list string := ["high"; "medium"; "low"; "info"].

Definition recognised : list string :=
  ["critical"; "error"; "high"; "warning"; "medium"; "info"; "informational"].

(** The label of a finding as its fields hold it: [rankedSeverity] when
    that is a non-empty string, else [severity] when that is one, else
    "info". *)
Definition label (finding : Finding) : string :=
  match rankedSeverity finding with
  | Some (String c ranked) => String c ranked
  | _ =>
      match severity finding with
      | Some (String c s) => String c s
      | _ => "info"
      end
  end.

(** The filter a fresh page starts with. *)
Definition pass_all : Filters :=
  {| f_severity := ∅; f_category := ∅; cryptoOnly := false |}.

(** Sample files and filters. *)
Definition low_file : ScanFile :=
  {| path := "a.py"; language := None; findings := Some [with_severity "low"] |}.

Definition empty_file : ScanFile :=
  {| path := "b.js"; language := None; findings := Some [] |}.

Definition only_high : Filters :=
  {| f_severity := {["high"]}; f_category := ∅; cryptoOnly := true |}.

Definition crypto_only : Filters :=
  {| f_severity := ∅; f_category := ∅; cryptoOnly := true |}.

Definition finding_of (sev cat : string) : Finding :=
  {| id := None; ruleId := None; category := Some cat; severity := Some sev;
     description := None; recommendation := None; line := None;
     column := None; match_ := None; rankedSeverity := None |}.

Definition a_py : ScanFile :=
  {| path := "a.py"; language := Some "python";
     findings := Some [finding_of "high" "cipher"] |}.

Definition b_js : ScanFile :=
  {| path := "b.js"; language := Some "javascript"; findings := Some [] |}.

Definition c_go : ScanFile :=
  {| path := "c.go"; language := Some "go";
     findings := Some [finding_of "low" "hash"; finding_of "medium" "hash"] |}.

End Findings.

(** ** The files collection of an analysis result *)

Module Analysis.

Record BasicCryptoAnalysis := {
  file_path : string;
  file_name : string;
  file_extension : string;
  has_crypto : bool;
  crypto_imports : option (list string);
  crypto_patterns_found : option (list string)
}.

Record GeminiReview := {
  original_analysis : option BasicCryptoAnalysis;
  gemini_analysis : option string
}.

Record RepoMeta := {
  repo_id : option string;
  repo_versionId : option string
}.

Record AnalysisResult := {
  status : option string;
  total_files : option Z;
  crypto_files_found : option Z;
  basic_analysis : option (list BasicCryptoAnalysis);
  detailed_reviews : option (list GeminiReview);
  versionId : option string;
  repo : option RepoMeta
}.

(** The [analysis] field of an entry is [r.original_analysis] or, when that
    is missing, the review object [r] itself, read as an analysis. *)
Inductive AnalysisRef :=
  | Analysed (a : BasicCryptoAnalysis)
  | ReviewItself (r : GeminiReview).

Record FilesCollectionEntry := {
  analysis : AnalysisRef;
  review : option GeminiReview
}.

(** [xs?.length] as a condition. *)
Definition has_items {A} (xs : option (list A)) : bool :=
  match xs with
  | Some (_ :: _) => true
  | _ => false
  end.

Definition items {A} (xs : option (list A)) : list A :=
  match xs with Some l => l | None => [] end.

Definition of_review (r : GeminiReview) : FilesCollectionEntry :=
  {| analysis := match original_analysis r with
                 | Some a => Analysed a
                 | None => ReviewItself r
                 end;
     review := Some r |}.

Definition of_basic (a : BasicCryptoAnalysis) : FilesCollectionEntry :=
  {| analysis := Analysed a; review := None |}.

(** [Boolean(x.analysis)]: an object is always truthy. *)
Definition has_analysis (x : FilesCollectionEntry) : bool :=
  match analysis x with
  | Analysed _ => true
  | ReviewItself _ => true
  end.

Definition getFilesCollection (result : option AnalysisResult)
  : list FilesCollectionEntry :=
  match result with
  | None => []
  | Some result =>
      if has_items (detailed_reviews result)
      then List.filter has_analysis (map of_review (items (detailed_reviews result)))
      else if has_items (basic_analysis result)
      then map of_basic (items (basic_analysis result))
      else []
  end.

(** [f.analysis.file_path]; a review read as an analysis has no such field. *)
Definition entry_path (f : FilesCollectionEntry) : option string :=
  match analysis f with
  | Analysed a => Some (file_path a)
  | ReviewItself _ => None
  end.

(** *** Notions used in the statements *)




End Analysis.

(** ** Directory trees *)

Module Tree.

Inductive NodeType := folder | file.

Definition type_eqb (a b : NodeType) : bool :=
  match a, b with
  | folder, folder | file, file => true
  | _, _ => false
  end.

Record DirectoryEntry := {
  type : NodeType;
  name : string;
  path : string;
  level : Z;
  supported : option bool
}.

Inductive TreeNode :=
  mkTreeNode (name path : string) (type : NodeType) (level : Z)
             (supported : option bool) (children : option (list TreeNode)).

Definition n_name (n : TreeNode) := let 'mkTreeNode x _ _ _ _ _ := n in x.
Definition n_path (n : TreeNode) := let 'mkTreeNode _ x _ _ _ _ := n in x.
Definition n_type (n : TreeNode) := let 'mkTreeNode _ _ x _ _ _ := n in x.
Definition n_level (n : TreeNode) := let 'mkTreeNode _ _ _ x _ _ := n in x.
Definition n_supported (n : TreeNode) := let 'mkTreeNode _ _ _ _ x _ := n in x.
Definition n_children (n : TreeNode) := let 'mkTreeNode _ _ _ _ _ x := n in x.

Definition set_children (n : TreeNode) (cs : option (list TreeNode)) : TreeNode :=
  mkTreeNode (n_name n) (n_path n) (n_type n) (n_level n) (n_supported n) cs.

(** The node literal built for an entry by both entry-based builders. *)
Definition node_of (e : DirectoryEntry) : TreeNode :=
  mkTreeNode (name e) (path e) (type e) (level e) (supported e)
             (match type e with folder => Some [] | file => None end).

(** *** The builders' working state

    Every node on [stack] was appended to, or found in, the [children] of the
    node below it (the bottom one in [tree]), so the stack is the chain of
    ancestors of its top.  The mutable structure is kept as a zipper: a
    [Frame] is one stack slot, the node with the siblings on its left and
    right in the array that holds it; [focus] is the array an entry is added
    to, [tree] when the stack is empty and the top's [children] otherwise. *)
Record Frame := {
  fr_node : TreeNode;
  fr_left : list TreeNode;
  fr_right : list TreeNode
}.

Definition Cursor : Type := list Frame * list TreeNode.

(** [stack.pop()]: the array below the popped node comes back into focus,
    with the node carrying what was appended under it. *)
Definition close (fr : Frame) (focus : list TreeNode) : list TreeNode :=
  (fr_left fr ++ set_children (fr_node fr) (Some focus) :: fr_right fr)%list.

(** [while (stack.length && stack[stack.length - 1].level >= entry.level) stack.pop()] *)
Fixpoint unwind (lvl : Z) (stack : list Frame) (focus : list TreeNode) : Cursor :=
  match stack with
  | [] => ([], focus)
  | fr :: rest =>
      if (lvl <=? n_level (fr_node fr))%Z
      then unwind lvl rest (close fr focus)
      else (stack, focus)
  end.

(** The array [tree] once every frame is closed. *)
Fixpoint rewind (stack : list Frame) (focus : list TreeNode) : list TreeNode :=
  match stack with
  | [] => focus
  | fr :: rest => rewind rest (close fr focus)
  end.

(** [n.path === node.path && n.type === node.type] *)
Definition same_key (node n : TreeNode) : bool :=
  String.eqb (n_path n) (n_path node) && type_eqb (n_type n) (n_type node).

(** [arr.find(...)], with the elements before and after the one found. *)
Fixpoint locate (node : TreeNode) (arr : list TreeNode)
  : option (list TreeNode * TreeNode * list TreeNode) :=
  match arr with
  | [] => None
  | n :: rest =>
      if same_key node n then Some ([], n, rest)
      else match locate node rest with
           | Some (l, existing, r) => Some (n :: l, existing, r)
           | None => None
           end
  end.

(** [addUnique(arr, node)]: the node returned, between the elements of the
    array that precede and follow it after the call. *)
Definition addUnique (arr : list TreeNode) (node : TreeNode)
  : list TreeNode * TreeNode * list TreeNode :=
  match locate node arr with
  | Some found => found
  | None => (arr, node, [])
  end.

(** [arr.push(node)], in the same shape. *)
Definition push (arr : list TreeNode) (node : TreeNode)
  : list TreeNode * TreeNode * list TreeNode :=
  (arr, node, []).

(** [parent.children ||= []] *)
Definition children_or_empty (n : TreeNode) : list TreeNode :=
  match n_children n with Some cs => cs | None => [] end.

(** One iteration of the loop over the entries; [add] is [addUnique] in the
    analyzer page and a plain [push] in the editor page. *)
Definition step (add : list TreeNode -> TreeNode -> list TreeNode * TreeNode * list TreeNode)
    (cur : Cursor) (entry : DirectoryEntry) : Cursor :=
  let node := node_of entry in
  let '(stack, focus) := unwind (level entry) (fst cur) (snd cur) in
  let '(l, added, r) := add focus node in
  match type entry with
  | folder =>
      ({| fr_node := added; fr_left := l; fr_right := r |} :: stack,
       children_or_empty added)
  | file => (stack, (l ++ added :: r)%list)
  end.

Definition build add (entries : list DirectoryEntry) : list TreeNode :=
  let cur := fold_left (step add) entries ([], []) in
  rewind (fst cur) (snd cur).

(** [buildTree] of the analyzer page. *)
Definition buildTree (entries : list DirectoryEntry) : list TreeNode :=
  build addUnique entries.

(** [buildTreeFromEntries] of the editor page. *)
Definition buildTreeFromEntries (entries : list DirectoryEntry) : list TreeNode :=
  build push entries.

(** *** Paths *)

(** [s.split(sep)] for a one-character separator. *)
Fixpoint split (sep : ascii) (s : string) : list string :=
  match s with
  | EmptyString => [EmptyString]
  | String c s' =>
      if Ascii.eqb c sep then EmptyString :: split sep s'
      else match split sep s' with
           | w :: ws => String c w :: ws
           | [] => [String c EmptyString]
           end
  end.

(** [full.split("/").filter(Boolean)] *)
Definition parts_of (full : string) : list string :=
  List.filter (fun s => negb (String.eqb s "")) (split "/"%char full).

Definition is_last {A} (rest : list A) : NodeType :=
  match rest with [] => file | _ => folder end.

(** The entries the [cached] and [done] handlers derive from one path;
    [agg] and [i] are the running prefix and index of [parts.forEach]. *)
Fixpoint entriesOfParts (agg : string) (i : Z) (parts : list string)
  : list DirectoryEntry :=
  match parts with
  | [] => []
  | seg :: rest =>
      let agg := if String.eqb agg "" then seg else agg +:+ "/" +:+ seg in
      {| type := is_last rest; name := seg; path := agg; level := i;
         supported := Some true |} :: entriesOfParts agg (i + 1) rest
  end.

Definition entriesOfPaths (paths : list string) : list DirectoryEntry :=
  flat_map (fun p => entriesOfParts "" 0 (parts_of p)) paths.

(** *** The path-based builder of the editor page

    The scratch objects [{ name, path, type, children: {} }]; a [children]
    object is the list of its own keys in insertion order.  Keys are taken
    to be ordinary names: a segment that names a member of
    [Object.prototype] would be found on the empty object. *)
Inductive PNode :=
  mkPNode (name path : string) (type : NodeType) (children : list (string * PNode)).

Definition p_children (p : PNode) := let 'mkPNode _ _ _ x := p in x.

Definition p_set_children (p : PNode) (cs : list (string * PNode)) : PNode :=
  let 'mkPNode n q t _ := p in mkPNode n q t cs.

(** [children[k] ||= fresh], then [f] applied to [children[k]]. *)
Fixpoint upsert (k : string) (fresh : PNode) (f : PNode -> PNode)
    (children : list (string * PNode)) : list (string * PNode) :=
  match children with
  | [] => [(k, f fresh)]
  | (k', v) :: rest =>
      if String.eqb k' k then (k', f v) :: rest
      else (k', v) :: upsert k fresh f rest
  end.

(** The [parts.forEach] of one path, from the object [cursor] points to. *)
Fixpoint insertParts (agg : string) (parts : list string)
    (children : list (string * PNode)) : list (string * PNode) :=
  match parts with
  | [] => children
  | segment :: rest =>
      let agg := agg +:+ "/" +:+ segment in
      upsert segment (mkPNode segment agg (is_last rest) [])
        (fun child => p_set_children child (insertParts agg rest (p_children child)))
        children
  end.

(** Insertion sort by key; [Array.prototype.sort] on strings compares code
    units, here bytes. *)
Fixpoint insert_by {A} (key : A -> string) (x : A) (l : list A) : list A :=
  match l with
  | [] => [x]
  | y :: rest =>
      if String.leb (key x) (key y) then x :: l else y :: insert_by key x rest
  end.

Definition sort_by {A} (key : A -> string) (l : list A) : list A :=
  fold_right (insert_by key) [] l.

Fixpoint assoc {A} (k : string) (l : list (string * A)) : option A :=
  match l with
  | [] => None
  | (k', v) :: rest => if String.eqb k' k then Some v else assoc k rest
  end.

(** [for (const k of Object.keys(children).sort()) out.push(... children[k] ...)];
    whatever order [Object.keys] lists the keys in, the sorted keys are the
    same. *)
Definition in_key_order {A} (children : list (string * A)) : list A :=
  omap (fun k => assoc k children) (sort_by (fun k => k) (map fst children)).

(** The entry [toNodes] pushes for one child: the children are converted
    first and then read in key order. *)
Fixpoint toNode (level : Z) (child : PNode) : TreeNode :=
  let 'mkPNode name path type children := child in
  mkTreeNode name path type level None
    (match type with
     | folder =>
         Some (in_key_order
                 (map (fun kc => let '(k, c) := kc in (k, toNode (level + 1) c))
                      children))
     | file => None
     end).

Definition toNodes (level : Z) (children : list (string * PNode)) : list TreeNode :=
  in_key_order (map (fun kc => let '(k, c) := kc in (k, toNode level c)) children).

Definition buildTreeFromFilePaths (paths : list string) : list TreeNode :=
  let root :=
    fold_left (fun root full => insertParts "" (parts_of full) root) paths [] in
  toNodes 0 root.

(** *** Notions used in the statements *)

Local Open Scope Z_scope.

(** [agg ? `${agg}/${seg}` : seg] *)
Definition join (agg seg : string) : string :=
  if String.eqb agg "" then seg else agg +:+ "/" +:+ seg.

(** The [children] a node literal starts with. *)
Definition kids (t : NodeType) : option (list TreeNode) :=
  match t with folder => Some [] | file => None end.

(** The node built for segment [seg] of a path, [rest] being what follows. *)
Definition fresh (agg : string) (i : Z) (seg : string) (rest : list string) : TreeNode :=
  mkTreeNode seg (join agg seg) (is_last rest) i (Some true) (kids (is_last rest)).

(** What the loop of [buildTree] does with the entries of one path, read
    as a recursive insertion into the array [arr]. *)
Fixpoint insertE (agg : string) (i : Z) (parts : list string)
    (arr : list TreeNode) : list TreeNode :=
  match parts with
  | [] => arr
  | seg :: rest =>
      let '(l, added, r) := addUnique arr (fresh agg i seg rest) in
      match is_last rest with
      | folder =>
          l ++ set_children added
                 (Some (insertE (join agg seg) (i + 1) rest (children_or_empty added)))
            :: r
      | file => l ++ added :: r
      end
  end%list.

(** Forests as the handlers' entries build them: under the prefix [agg] at
    depth [i] every node is named by a non-empty segment, has the joined
    path and the level [i]; a folder holds such a forest one level down, a
    file holds nothing. *)
Inductive wf : string -> Z -> list TreeNode -> Prop :=
  | wf_nil agg i : wf agg i []
  | wf_file agg i seg sup rest :
      seg <> ""%string -> wf agg i rest ->
      wf agg i (mkTreeNode seg (join agg seg) file i sup None :: rest)
  | wf_folder agg i seg sup cs rest :
      seg <> ""%string -> wf (join agg seg) (i + 1) cs -> wf agg i rest ->
      wf agg i (mkTreeNode seg (join agg seg) folder i sup (Some cs) :: rest).

(** Every sibling array of a forest satisfies [ok]. *)
Fixpoint every_array (ok : list TreeNode -> bool) (n : TreeNode) : bool :=
  let 'mkTreeNode _ _ _ _ _ children := n in
  match children with
  | Some cs => ok cs && forallb (every_array ok) cs
  | None => true
  end.

(** The same for a forest, its top-level array included. *)
Definition every_array_of (ok : list TreeNode -> bool) (forest : list TreeNode) : bool :=
  ok forest && forallb (every_array ok) forest.

(** No two elements of [l] are equal for [eqb]. *)
Fixpoint distinct {A} (eqb : A -> A -> bool) (l : list A) : bool :=
  match l with
  | [] => true
  | x :: rest => negb (existsb (eqb x) rest) && distinct eqb rest
  end.

(** What [addUnique] compares: the (path, type) of a node. *)
Definition key (n : TreeNode) : string * NodeType := (n_path n, n_type n).

Definition key_eqb (a b : string * NodeType) : bool :=
  String.eqb (fst a) (fst b) && type_eqb (snd a) (snd b).

(** No two siblings with the same (path, type), resp. with the same name. *)
Definition keys_distinct (arr : list TreeNode) : bool :=
  distinct key_eqb (map key arr).

Definition names_distinct (arr : list TreeNode) : bool :=
  distinct String.eqb (map n_name arr).

(** No folder of the forest, nor its top level, holds two nodes of the
    same name. *)
Definition names_ok : list TreeNode -> bool := every_array_of names_distinct.

(** The scratch object of the path-based builder that corresponds to a
    node: same name and type, the path with a leading slash. *)
Fixpoint to_trie (n : TreeNode) : string * PNode :=
  let 'mkTreeNode name path type _ _ children := n in
  (name,
   mkPNode name ("/" +:+ path) type
     match children with Some cs => map to_trie cs | None => [] end).

(** The prefix [agg] of the path-based builder at the folder whose
    entry-side path is [agg]. *)
Definition slash (agg : string) : string :=
  if String.eqb agg "" then ""%string else "/" +:+ agg.

(** Level and [supported] forgotten. *)
Fixpoint erase (n : TreeNode) : TreeNode :=
  let 'mkTreeNode name path type _ _ children := n in
  mkTreeNode name path type 0 None (option_map (map erase) children).

(** Level and [supported] forgotten, the path written with the leading
    slash of the path-based builder, and every sibling array sorted by name. *)
Fixpoint canonical (n : TreeNode) : TreeNode :=
  let 'mkTreeNode name path type _ _ children := n in
  mkTreeNode name ("/" +:+ path) type 0 None
    (option_map (fun cs => sort_by n_name (map canonical cs)) children).

(** The same for a forest, its top-level array included. *)
Definition canonical_forest (forest : list TreeNode) : list TreeNode :=
  sort_by n_name (map canonical forest).

(** Members of [Object.prototype], which a lookup on [{}] finds. *)
Definition inherited : list string :=
  ["__proto__"; "constructor"; "hasOwnProperty"; "isPrototypeOf";
   "propertyIsEnumerable"; "toLocaleString"; "toString"; "valueOf";
   "__defineGetter__"; "__defineSetter__"; "__lookupGetter__";
   "__lookupSetter__"]%string.

(** No segment of [paths] is such a member. *)
Definition plain_keys (paths : list string) : Prop :=
  forall p seg, In p paths -> In seg (parts_of p) -> ~ In seg inherited.

(** The paths inserted one after the other. *)
Definition insertPaths (paths : list string) (arr : list TreeNode) : list TreeNode :=
  fold_left (fun arr p => insertE "" 0 (parts_of p) arr) paths arr.

(** The node that ends up where [addUnique] put or found [added]. *)
Definition grown agg i seg rest (added : TreeNode) : TreeNode :=
  match is_last rest with
  | folder =>
      set_children added
        (Some (insertE (join agg seg) (i + 1) rest (children_or_empty added)))
  | file => added
  end.

(** The entry [toNodes] pushes for the scratch object of [n] is [n] in
    canonical form. *)
Definition same_shape (n : TreeNode) : Prop :=
  forall lvl, erase (toNode lvl (snd (to_trie n))) = canonical n.

(** Sample path lists. *)
Definition unsorted : list string := ["/b.ts"; "/a.ts"]%string.

Definition project : list string :=
  ["src/b/c.ts"; "src/a.ts"; "readme.md"; "/src//a.ts/"]%string.

Definition three_paths : list string :=
  ["src/a.ts"; "src/b/c.ts"; "readme.md"]%string.

(** No sibling array of the forest holds two nodes with the same
    (path, type). *)
Definition keys_ok : list TreeNode -> bool := every_array_of keys_distinct.

(** A stack slot whose array has distinct keys, the open node counted in. *)
Definition frame_ok (fr : Frame) : Prop :=
  List.NoDup (map key (fr_left fr ++ fr_node fr :: fr_right fr)) /\
  Forall (fun n => every_array keys_distinct n = true) (fr_left fr) /\
  Forall (fun n => every_array keys_distinct n = true) (fr_right fr).

(** A cursor all of whose arrays have distinct keys. *)
Definition cursor_ok (cur : Cursor) : Prop :=
  Forall frame_ok (fst cur) /\ keys_ok (snd cur) = true.

(** Sample entries. *)
Definition a_ts : DirectoryEntry :=
  {| type := file; name := "a.ts"; path := "src/a.ts"; level := 1;
     supported := Some true |}.

Definition src : DirectoryEntry :=
  {| type := folder; name := "src"; path := "src"; level := 0;
     supported := None |}.

(** The same listing received twice. *)
Definition listed_twice : list DirectoryEntry := [src; a_ts; src; a_ts].

(** The paths of [S] that go through the folder [seg], from there on. *)
Definition tails (seg : string) (S : list (list string)) : list (list string) :=
  flat_map (fun s => match s with
                     | x :: rest => if String.eqb x seg then [rest] else []
                     | [] => []
                     end) S.

(** Every node of the forest stands for a path of [S]: a file for the path
    that ends there, a folder for a path that goes on below it. *)
Inductive covers : list (list string) -> list TreeNode -> Prop :=
  | covers_nil S : covers S []
  | covers_file S name path lvl sup rest :
      In [name] S -> covers S rest ->
      covers S (mkTreeNode name path file lvl sup None :: rest)
  | covers_folder S name path lvl sup cs rest below :
      below <> [] -> In (name :: below) S ->
      covers (tails name S) cs -> covers S rest ->
      covers S (mkTreeNode name path folder lvl sup (Some cs) :: rest).

(** [s] is the beginning of [t]. *)
Fixpoint is_prefix (s t : list string) : bool :=
  match s, t with
  | [], _ => true
  | x :: s', y :: t' => String.eqb x y && is_prefix s' t'
  | _ :: _, [] => false
  end.

(** [s] names a file and [t] goes through it as if it were a folder. *)
Definition clashes (s t : list string) : bool :=
  match s with
  | [] => false
  | _ :: _ => is_prefix s t && (length s <? length t)%nat
  end.

(** No path of the list is, segment by segment, a proper prefix of
    another: no name stands for a file and for a folder. *)
Definition prefix_free (paths : list string) : bool :=
  let S := map parts_of paths in
  forallb (fun s => forallb (fun t => negb (clashes s t)) S) S.

(** The same, on the segment lists. *)
Definition no_clash (S : list (list string)) : Prop :=
  forall s t r, In s S -> In t S -> s <> [] -> t = (s ++ r)%list -> r = [].

(** [x] sorts before [y], or with it. *)
Definition key_le {A} (key : A -> string) (x y : A) : Prop :=
  String.leb (key x) (key y) = true.

End Tree.

(** ** Double-precision arithmetic

    The numbers of JavaScript are IEEE 754 doubles.  A finite double is
    kept as the rational it stands for; [round64] is the rounding every
    arithmetic operation ends with: to the nearest number with a 53-bit
    significand, a tie going to the one whose significand is even.  The
    exponent is not bounded: beyond the largest double (about 1.8e308) the
    code has an infinity where [round64] has a number. *)

Module Ieee.
Import QArith Qround.
Local Open Scope Q_scope.

(** The exponent [b] of the binade of a positive [x]:
    [2 ^ b <= x < 2 ^ (b + 1)]. *)
Definition binade (x : Q) : Z :=
  let k := (Z.log2 (Qnum x) - Z.log2 (Zpos (Qden x)))%Z in
  if Qle_bool (2 ^ k) x then k else (k - 1)%Z.

(** The nearest integer, a tie going to the even one. *)
Definition nearest_even (x : Q) : Z :=
  let f := Qfloor x in
  match Qcompare (x - inject_Z f) (1 # 2) with
  | Lt => f
  | Gt => (f + 1)%Z
  | Eq => if Z.even f then f else (f + 1)%Z
  end.

(** The double nearest to a positive [x]: a multiple of the unit in the
    last of the 53 places of its binade. *)
Definition round64_pos (x : Q) : Q :=
  let ulp := 2 ^ (binade x - 52) in
  inject_Z (nearest_even (x / ulp)) * ulp.

Definition round64 (x : Q) : Q :=
  match Qnum x with
  | Z0 => 0
  | Zpos _ => round64_pos x
  | Zneg _ => - round64_pos (- x)
  end.

(** [a / b] and [x * c] on doubles, for whole numbers [a], [b] and [c]. *)
Definition div (a b : Z) : Q := round64 (inject_Z a / inject_Z b).
Definition mul (x : Q) (c : Z) : Q := round64 (x * inject_Z c).

(** [Math.round]: the nearest integer, a tie going up. *)
Definition Math_round (x : Q) : Z := Qfloor (x + (1 # 2)).

End Ieee.

(** ** The streaming progress reconciler of the analyzer page *)

Module Reconciler.
Import Analysis.

Inductive Mode := local | upload | git | stored.

(** [es.readyState] *)
Inductive ReadyState := CONNECTING | OPEN | CLOSED.

(** The two operations that listen on an [EventSource]; the ZIP upload
    reads its events from an [XMLHttpRequest] and has a module of its own,
    [Zip]. *)
Inductive Stream := AnalyzeLocal | AnalyzeGit.

(** What a handler reads from [JSON.parse(ev.data)]: the progress fields, and
    the object as the [AnalysisResult] a terminal event carries. *)
Record Data := {
  message : option string;
  done : option Z;
  total : option Z;
  result : AnalysisResult
}.

(** A parsed payload is an object or a falsy value ([null], [0], ...); a
    truthy value that is no object reads as an object without fields. *)
Inductive Json := Falsy | Obj (d : Data).

Definition obj (j : Json) : option Data :=
  match j with Obj d => Some d | Falsy => None end.

Inductive EventName :=
  cloning | collecting | start | scanning | indexing | enriching | cached | done_.

(** [router.push] targets. *)
Inductive Route := FindingsDefault | FindingsVersion (versionId : string).

(** Callbacks handed to [setTimeout], the inactivity one apart. *)
Inductive Callback :=
  | Redirect (targetVersion : option string)
  | ResetProgress.

(** What the environment delivers: stream events ([data] is [None] when
    [JSON.parse] throws) and expired timers. *)
Inductive Event :=
  | Open
  | Message
  | Error (readyState : ReadyState)
  | Named (name : EventName) (data : option Json)
  | Ping
  | Inactivity
  | Timeout (nth : nat).

(** The React state the handlers write. *)
Record Page := {
  analysisResult : option AnalysisResult;
  treeEntries : list Tree.DirectoryEntry;
  loading : bool;
  activeJob : option Mode;
  progressPct : Z;
  progressMsg : string;
  pushed : list Route
}.

(** The variables of one operation's closure: [finished], [eventCount], the
    calls made to [es.close()], whether [safetyTimer] is pending, and the
    other pending [setTimeout] callbacks, oldest first. *)
Record Op := {
  finished : bool;
  eventCount : nat;
  closed : nat;
  safetyTimer : bool;
  timeouts : list Callback
}.

Record State := { page : Page; op : Op }.

Definition on_page (f : Page -> Page) (st : State) : State :=
  {| page := f (page st); op := op st |}.
Definition on_op (f : Op -> Op) (st : State) : State :=
  {| page := page st; op := f (op st) |}.

Definition setAnalysisResult (v : option AnalysisResult) : State -> State :=
  on_page (fun p =>
    {| analysisResult := v; treeEntries := treeEntries p; loading := loading p;
       activeJob := activeJob p; progressPct := progressPct p;
       progressMsg := progressMsg p; pushed := pushed p |}).
Definition setTreeEntries (v : list Tree.DirectoryEntry) : State -> State :=
  on_page (fun p =>
    {| analysisResult := analysisResult p; treeEntries := v; loading := loading p;
       activeJob := activeJob p; progressPct := progressPct p;
       progressMsg := progressMsg p; pushed := pushed p |}).
Definition setLoading (v : bool) : State -> State :=
  on_page (fun p =>
    {| analysisResult := analysisResult p; treeEntries := treeEntries p; loading := v;
       activeJob := activeJob p; progressPct := progressPct p;
       progressMsg := progressMsg p; pushed := pushed p |}).
Definition setActiveJob (v : option Mode) : State -> State :=
  on_page (fun p =>
    {| analysisResult := analysisResult p; treeEntries := treeEntries p;
       loading := loading p; activeJob := v; progressPct := progressPct p;
       progressMsg := progressMsg p; pushed := pushed p |}).
Definition setProgressPct (v : Z) : State -> State :=
  on_page (fun p =>
    {| analysisResult := analysisResult p; treeEntries := treeEntries p;
       loading := loading p; activeJob := activeJob p; progressPct := v;
       progressMsg := progressMsg p; pushed := pushed p |}).
Definition setProgressMsg (v : string) : State -> State :=
  on_page (fun p =>
    {| analysisResult := analysisResult p; treeEntries := treeEntries p;
       loading := loading p; activeJob := activeJob p; progressPct := progressPct p;
       progressMsg := v; pushed := pushed p |}).
Definition router_push (r : Route) : State -> State :=
  on_page (fun p =>
    {| analysisResult := analysisResult p; treeEntries := treeEntries p;
       loading := loading p; activeJob := activeJob p; progressPct := progressPct p;
       progressMsg := progressMsg p; pushed := r :: pushed p |}).

Definition set_finished : State -> State :=
  on_op (fun o =>
    {| finished := true; eventCount := eventCount o; closed := closed o;
       safetyTimer := safetyTimer o; timeouts := timeouts o |}).
Definition count_event : State -> State :=
  on_op (fun o =>
    {| finished := finished o; eventCount := S (eventCount o); closed := closed o;
       safetyTimer := safetyTimer o; timeouts := timeouts o |}).
Definition es_close : State -> State :=
  on_op (fun o =>
    {| finished := finished o; eventCount := eventCount o; closed := S (closed o);
       safetyTimer := safetyTimer o; timeouts := timeouts o |}).
Definition set_safetyTimer (v : bool) : State -> State :=
  on_op (fun o =>
    {| finished := finished o; eventCount := eventCount o; closed := closed o;
       safetyTimer := v; timeouts := timeouts o |}).
Definition set_timeouts (v : list Callback) : State -> State :=
  on_op (fun o =>
    {| finished := finished o; eventCount := eventCount o; closed := closed o;
       safetyTimer := safetyTimer o; timeouts := v |}).
Definition setTimeout (cb : Callback) (st : State) : State :=
  set_timeouts (timeouts (op st) ++ [cb])%list st.

(** [resetSafety]: the pending inactivity timer is cleared and a new one set. *)
Definition resetSafety : State -> State := set_safetyTimer true.

Definition stopProgress (st : State) : State :=
  setTimeout ResetProgress (setProgressPct 100 st).

(** [data?.versionId || null] for a local scan,
    [data?.repo?.versionId || data?.versionId || null] for a git one. *)
Definition targetVersion (k : Stream) (data : Data) : option string :=
  let r := result data in
  match k with
  | AnalyzeLocal => versionId r
  | AnalyzeGit =>
      Js.or_opt (match repo r with Some m => repo_versionId m | None => None end)
                (versionId r)
  end.

(** [finalize(data)]; [None] is a call without argument or with a falsy one. *)
Definition finalize (k : Stream) (data : option Data) (st : State) : State :=
  if finished (op st) then st
  else
    let st := set_finished st in
    let st := es_close st in
    let st := set_safetyTimer false st in
    let st := setLoading false st in
    let st := setActiveJob None st in
    match data with
    | Some d =>
        let st := setProgressMsg "analysis complete!" st in
        let st := setProgressPct 100 st in
        setTimeout (Redirect (targetVersion k d)) st
    | None => stopProgress st
    end.

(** The body of a [setTimeout] callback. *)
Definition fire (cb : Callback) (st : State) : State :=
  match cb with
  | Redirect target =>
      let st := stopProgress st in
      if Js.truthy target
      then router_push (FindingsVersion (Js.or_else target "")) st
      else router_push FindingsDefault st
  | ResetProgress => setProgressMsg "initializing..." (setProgressPct 0 st)
  end.

(** [Math.round((done / total) * scale)] for [total > 0]: the quotient is
    rounded to a double, so is its product with [scale], and [Math.round]
    takes the integer nearest to that double. *)
Definition round_scaled (done total scale : Z) : Z :=
  Ieee.Math_round (Ieee.mul (Ieee.div done total) scale).

(** The percent a [scanning] event displays. *)
Definition scanningPct (k : Stream) (done total : Z) : Z :=
  match k with
  | AnalyzeLocal =>
      if (0 <? total)%Z then Z.min 90 (10 + round_scaled done total 75) else 15
  | AnalyzeGit =>
      if (0 <? total)%Z then Z.min 90 (round_scaled done total 90) else 10
  end.

(** [Number(d?.x || 0)] *)
Definition num (x : option Z) : Z := match x with Some n => n | None => 0 end.
Definition field {A} (f : Data -> option A) (j : Json) : option A :=
  match j with Obj d => f d | Falsy => None end.

(** [getFilesCollection(data).map(f => f.analysis.file_path)] followed by the
    derivation of the entries; [None] when a path is [undefined] and
    [p.split] throws. *)
Definition derivedEntries (data : option Data) : option (list Tree.DirectoryEntry) :=
  match mapM entry_path (getFilesCollection (result <$> data)) with
  | Some paths => Some (Tree.entriesOfPaths paths)
  | None => None
  end.

(** *** The listeners of [onAnalyzeLocal] *)

Definition handleLocal (st : State) (ev : Event) : State :=
  match ev with
  | Open => resetSafety (setProgressPct 2 (setProgressMsg "connected..." st))
  | Message => resetSafety (count_event st)
  | Error rs =>
      if finished (op st) then st
      else
        resetSafety
          match rs with
          | CLOSED => finalize AnalyzeLocal None st
          | CONNECTING => setProgressMsg "reconnecting..." st
          | OPEN => st
          end
  | Named collecting data =>
      let st := count_event st in
      resetSafety
        match data with
        | Some d =>
            setProgressPct 5
              (setProgressMsg (Js.or_else (field message d) "collecting files…") st)
        | None => st
        end
  | Named start data =>
      let st := count_event st in
      resetSafety
        match data with
        | Some d =>
            setProgressPct 10
              (setProgressMsg
                 ("scanning " +:+ Js.show (num (field total d)) +:+ " files") st)
        | None => st
        end
  | Named scanning data =>
      let st := count_event st in
      resetSafety
        match data with
        | Some d =>
            let done := num (field done d) in
            let total := num (field total d) in
            setProgressMsg
              ("scanning files: " +:+ Js.show done +:+ "/" +:+ Js.show total)
              (setProgressPct (scanningPct AnalyzeLocal done total) st)
        | None => st
        end
  | Named indexing data =>
      let st := count_event st in
      resetSafety
        match data with
        | Some d => setProgressMsg (Js.or_else (field message d) "indexing…") st
        | None => st
        end
  | Named enriching data =>
      let st := count_event st in
      resetSafety
        match data with
        | Some d =>
            setProgressPct 92
              (setProgressMsg (Js.or_else (field message d) "enriching findings…") st)
        | None => st
        end
  | Named done_ data =>
      let st := count_event st in
      if finished (op st) then st
      else
        match data with
        | Some d =>
            finalize AnalyzeLocal (obj d) (setAnalysisResult (result <$> obj d) st)
        | None => finalize AnalyzeLocal None st
        end
  | Named cloning _ | Named cached _ => st
  | Ping => resetSafety st
  | Inactivity =>
      if safetyTimer (op st)
      then
        let st := set_safetyTimer false st in
        if finished (op st) then st else setProgressMsg "still working..." st
      else st
  | Timeout n =>
      match timeouts (op st) !! n with
      | Some cb => fire cb (set_timeouts (delete n (timeouts (op st))) st)
      | None => st
      end
  end.

(** *** The listeners of [onAnalyzeGit] *)

(** The common shape [try { ... setProgressMsg(d?.message || fallback) } catch
    { setProgressMsg(fallback) }]. *)
Definition say (fallback : string) (data : option Json) : State -> State :=
  setProgressMsg
    match data with
    | Some d => Js.or_else (field message d) fallback
    | None => fallback
    end.

Definition handleGit (st : State) (ev : Event) : State :=
  match ev with
  | Open => resetSafety st
  | Message => st
  | Error rs =>
      if finished (op st) then st
      else
        resetSafety
          match rs with
          | CLOSED => finalize AnalyzeGit None st
          | _ => st
          end
  | Named cloning data => resetSafety (say "cloning…" data st)
  | Named collecting data => resetSafety (say "collecting files…" data st)
  | Named start data =>
      resetSafety
        (setProgressMsg
           match data with
           | Some d => "scanning " +:+ Js.show (num (field total d)) +:+ " files"
           | None => "scanning files..."
           end st)
  | Named scanning data =>
      resetSafety
        match data with
        | Some d =>
            let done := num (field done d) in
            let total := num (field total d) in
            setProgressMsg
              ("scanning files: " +:+ Js.show done +:+ "/" +:+ Js.show total)
              (setProgressPct (scanningPct AnalyzeGit done total) st)
        | None => st
        end
  | Named indexing data => resetSafety (say "indexing…" data st)
  | Named enriching data => resetSafety (say "enriching findings…" data st)
  | Named cached data =>
      if finished (op st) then st
      else
        resetSafety
          match data with
          | Some d =>
              let st := setAnalysisResult (result <$> obj d) st in
              match derivedEntries (obj d) with
              | Some entries => finalize AnalyzeGit (obj d) (setTreeEntries entries st)
              | None => st
              end
          | None => st
          end
  | Named done_ data =>
      if finished (op st) then st
      else
        resetSafety
          match data with
          | Some d =>
              let st := setAnalysisResult (result <$> obj d) st in
              match derivedEntries (obj d) with
              | Some entries => finalize AnalyzeGit (obj d) (setTreeEntries entries st)
              | None => finalize AnalyzeGit None st
              end
          | None => finalize AnalyzeGit None st
          end
  | Ping => resetSafety st
  | Inactivity =>
      if safetyTimer (op st)
      then
        let st := set_safetyTimer false st in
        if finished (op st) then st else setProgressMsg "still working..." st
      else st
  | Timeout n =>
      match timeouts (op st) !! n with
      | Some cb => fire cb (set_timeouts (delete n (timeouts (op st))) st)
      | None => st
      end
  end.

Definition handle (k : Stream) : State -> Event -> State :=
  match k with
  | AnalyzeLocal => handleLocal
  | AnalyzeGit => handleGit
  end.

Definition run (k : Stream) (st : State) (evs : list Event) : State :=
  fold_left (handle k) evs st.

(** The page as [AnalyzerPageInner] mounts it. *)
Definition mounted : Page :=
  {| analysisResult := None; treeEntries := []; loading := false;
     activeJob := None; progressPct := 0; progressMsg := "initializing...";
     pushed := [] |}.

(** The state an operation starts its stream in: the synchronous prefix of
    [onAnalyzeLocal] / [onAnalyzeGit] up to the first [resetSafety()]. *)
Definition begin (k : Stream) : State :=
  let st :=
    {| page := mounted;
       op := {| finished := false; eventCount := 0; closed := 0;
                safetyTimer := false; timeouts := [] |} |} in
  let st := setActiveJob (Some match k with AnalyzeLocal => local | AnalyzeGit => git end) st in
  let st := setLoading true st in
  let st := setProgressPct 1 st in
  let st :=
    setProgressMsg match k with
                   | AnalyzeLocal => "initializing..."
                   | AnalyzeGit => "connecting..."
                   end st in
  resetSafety st.

(** The overlay shows [progressPct] as its label; the width of its bar is
    [Math.max(progressPct, loading ? 5 : progressPct)]. *)
Definition overlayWidth (p : Page) : Z :=
  Z.max (progressPct p) (if loading p then 5 else progressPct p).

(** A progress payload [{ done, total }] and a result payload. *)
Definition no_result : AnalysisResult :=
  {| status := None; total_files := None; crypto_files_found := None;
     basic_analysis := None; detailed_reviews := None; versionId := None;
     repo := None |}.

Definition progress (d t : Z) : option Json :=
  Some (Obj {| message := None; done := Some d; total := Some t; result := no_result |}).

Definition payload (r : AnalysisResult) : option Json :=
  Some (Obj {| message := None; done := None; total := None; result := r |}).

(** *** Notions used in the statements *)

Local Open Scope Z_scope.

(** The displayed percent after each event of a stream. *)
Fixpoint percents (k : Stream) (st : State) (evs : list Event) : list Z :=
  match evs with
  | [] => []
  | ev :: evs =>
      let st := handle k st ev in
      progressPct (page st) :: percents k st evs
  end.

(** Nothing that a finalize writes has changed between [st] and [st']: only
    the message and the inactivity timer may differ. *)
Definition not_finalized (st st' : State) : Prop :=
  finished (op st') = finished (op st) /\
  closed (op st') = closed (op st) /\
  timeouts (op st') = timeouts (op st) /\
  loading (page st') = loading (page st) /\
  activeJob (page st') = activeJob (page st) /\
  progressPct (page st') = progressPct (page st) /\
  analysisResult (page st') = analysisResult (page st) /\
  treeEntries (page st') = treeEntries (page st) /\
  pushed (page st') = pushed (page st).

(** The pending callbacks that will navigate. *)
Definition is_redirect (cb : Callback) : bool :=
  match cb with Redirect _ => true | ResetProgress => false end.

Definition redirects (l : list Callback) : nat :=
  length (List.filter is_redirect l).

(** Before the finalize nothing is scheduled, nothing was pushed, the stream
    was never closed and the percent is below 100; after it the stream was
    closed once and at most one navigation is made or still to come. *)
Definition consistent (st : State) : Prop :=
  if finished (op st)
  then closed (op st) = 1%nat /\
       (redirects (timeouts (op st)) + length (pushed (page st)) <= 1)%nat
  else closed (op st) = 0%nat /\ timeouts (op st) = [] /\
       pushed (page st) = [] /\ progressPct (page st) < 100.

(** Events that may still arrive once an operation is finished and would
    call [finalize] again, and the inactivity timeout. *)
Definition late (ev : Event) : Prop :=
  match ev with
  | Named done_ _ | Named cached _ | Error _ | Inactivity => True
  | _ => False
  end.

(** Events after which the stream goes on. *)
Definition nonterminal (ev : Event) : Prop :=
  match ev with
  | Error rs => rs <> CLOSED
  | Named name _ => name <> done_ /\ name <> cached
  | _ => True
  end.

(** A stream that goes quiet while the connection is retried: every handler
    has returned, no timer is pending, and no finalize has run. *)
Definition stalled : list Event :=
  [Open; Named scanning (progress 1 10); Error CONNECTING; Inactivity].

(** A result with a version identifier, and a stream that ends with it. *)
Definition versioned : AnalysisResult :=
  {| status := None; total_files := Some 3; crypto_files_found := Some 1;
     basic_analysis := None; detailed_reviews := None;
     versionId := Some "v1"%string; repo := None |}.

Definition ten_files : list Event :=
  [Named start (progress 0 10); Named scanning (progress 2 10);
   Named scanning (progress 4 10); Named scanning (progress 6 10);
   Named scanning (progress 8 10); Named scanning (progress 10 10);
   Named done_ (payload versioned)].

End Reconciler.

(** ** Text helpers *)

Module Text.

(** [s.startsWith(prefix)] *)
Fixpoint startsWith (prefix s : string) : bool :=
  match prefix, s with
  | EmptyString, _ => true
  | String a prefix', String b s' => Ascii.eqb a b && startsWith prefix' s'
  | String _ _, EmptyString => false
  end.

(** [s.slice(n)] *)
Fixpoint drop (n : nat) (s : string) : string :=
  match n, s with
  | O, _ => s
  | S k, String _ rest => drop k rest
  | S _, EmptyString => EmptyString
  end.

End Text.

(** ** Findings page: escaping and the Markdown of an explanation *)

Module Markup.

(** [value.replace(/c/g, rep)] for a pattern that is one character. *)
Fixpoint replaceAll (c : ascii) (rep : string) (value : string) : string :=
  match value with
  | EmptyString => EmptyString
  | String x rest =>
      if Ascii.eqb x c then rep +:+ replaceAll c rep rest
      else String x (replaceAll c rep rest)
  end.

(** The double quote, written by its code. *)
Definition quot : ascii := "034"%char.

Definition escapeHtml (value : string) : string :=
  replaceAll quot "&quot;"
    (replaceAll ">" "&gt;"
       (replaceAll "<" "&lt;"
          (replaceAll "&" "&amp;" value))).

(** *** Notions used in the statements *)

(** The text a single character is escaped to. *)
Definition entity (c : ascii) : string :=
  if Ascii.eqb c "&" then "&amp;"
  else if Ascii.eqb c "<" then "&lt;"
  else if Ascii.eqb c ">" then "&gt;"
  else if Ascii.eqb c quot then "&quot;"
  else String c EmptyString.

(** The characters that open or close a tag or an attribute value, and
    those that [escapeHtml] rewrites. *)
Definition markup (c : ascii) : bool :=
  Ascii.eqb c "<" || Ascii.eqb c ">" || Ascii.eqb c quot.

Definition special (c : ascii) : bool := Ascii.eqb c "&" || markup c.

(** The characters of a text. *)
Definition chars (s : string) : list ascii := list_ascii_of_string s.

End Markup.

Module Markdown.
Import Text Markup.

(** *** Global replacement with a pattern

    [s.replace(re, f)] for a global [re] tries the pattern at every
    position from the left and resumes behind a match.  [match_at] is the
    pattern tried at the head of a text: the captured group and the length
    of the match; [skip] counts the characters of a match still to pass. *)
Section Replace.

Context {St : Type}.
Variable match_at : string -> option (string * nat).
Variable replacement : St -> string -> St * string.

Fixpoint replace_go (skip : nat) (st : St) (s : string) : St * string :=
  match s with
  | EmptyString => (st, EmptyString)
  | String c rest =>
      match skip with
      | S k => replace_go k st rest
      | O =>
          match match_at s with
          | Some (group, n) =>
              let '(st, out) := replacement st group in
              let '(st, tail) := replace_go (Nat.pred n) st rest in
              (st, out +:+ tail)
          | None =>
              let '(st, tail) := replace_go 0 st rest in
              (st, String c tail)
          end
      end
  end.

Definition replace (st : St) (s : string) : St * string := replace_go 0 st s.

End Replace.

(** The longest prefix of characters that [keep] accepts, and the rest. *)
Fixpoint span (keep : ascii -> bool) (s : string) : string * string :=
  match s with
  | EmptyString => (EmptyString, EmptyString)
  | String c rest =>
      if keep c
      then let '(run, tail) := span keep rest in (String c run, tail)
      else (EmptyString, s)
  end.

Definition is_not (c x : ascii) : bool := negb (Ascii.eqb x c).

Definition is_digit (x : ascii) : bool :=
  let n := nat_of_ascii x in (48 <=? n)%nat && (n <=? 57)%nat.

(** The first pattern at the head of [s]: a backquote, one or more
    characters that are not backquotes, a backquote. *)
Definition code_at (s : string) : option (string * nat) :=
  match s with
  | String "`" rest =>
      let '(run, tail) := span (is_not "`") rest in
      if negb (String.eqb run "") && startsWith "`" tail
      then Some (run, String.length run + 2)%nat
      else None
  | _ => None
  end.

(** The pattern of bold text at the head of [s]: two stars, one or more
    characters that are not stars, two stars. *)
Definition bold_at (s : string) : option (string * nat) :=
  if startsWith "**" s then
    let '(run, tail) := span (is_not "*") (drop 2 s) in
    if negb (String.eqb run "") && startsWith "**" tail
    then Some (run, String.length run + 4)%nat
    else None
  else None.

(** The pattern of italic text at the head of [s]: a star that no star
    follows, one or more characters that are not stars, a star that no
    star follows. *)
Definition italic_at (s : string) : option (string * nat) :=
  if startsWith "*" s && negb (startsWith "*" (drop 1 s)) then
    let '(run, tail) := span (is_not "*") (drop 1 s) in
    if negb (String.eqb run "") && startsWith "*" tail
       && negb (startsWith "*" (drop 1 tail))
    then Some (run, String.length run + 2)%nat
    else None
  else None.

(** The pattern of a placeholder at the head of [s]: [@@CODE], one or
    more digits, [@@]. *)
Definition placeholder_at (s : string) : option (string * nat) :=
  if startsWith "@@CODE" s then
    let '(run, tail) := span is_digit (drop 6 s) in
    if negb (String.eqb run "") && startsWith "@@" tail
    then Some (run, String.length run + 8)%nat
    else None
  else None.

(** [Number(rawIdx)] for a run of digits. *)
Fixpoint number_from (acc : N) (digits : string) : N :=
  match digits with
  | EmptyString => acc
  | String d rest => number_from (acc * 10 + (N_of_ascii d - 48))%N rest
  end.

(** [placeholders[n]], or the empty string where there is none. *)
Definition placeholder (placeholders : list string) (n : N) : string :=
  if (n <? N.of_nat (length placeholders))%N
  then nth (N.to_nat n) placeholders EmptyString
  else EmptyString.

(** The callback of the first [replace]: [placeholders.push(code) - 1] is
    the index, which is the length before the push. *)
Definition keep_code (placeholders : list string) (code : string)
  : list string * string :=
  ((placeholders ++ [code])%list,
   "@@CODE" +:+ Js.show (Z.of_nat (length placeholders)) +:+ "@@").

Definition wrap (open close : string) (st : unit) (group : string) : unit * string :=
  (st, open +:+ group +:+ close).

Definition restore_code (placeholders : list string) (rawIdx : string)
  : list string * string :=
  (placeholders,
   "<code>" +:+ placeholder placeholders (number_from 0 rawIdx) +:+ "</code>").

Definition renderInlineMarkdown (text : string) : string :=
  let escaped := escapeHtml text in
  let '(placeholders, withCode) := replace code_at keep_code [] escaped in
  let withBold := snd (replace bold_at (wrap "<strong>" "</strong>") tt withCode) in
  let withItalic := snd (replace italic_at (wrap "<em>" "</em>") tt withBold) in
  let restored := snd (replace placeholder_at restore_code placeholders withItalic) in
  restored.

(** [markdown.replace(/\r\n/g, "\n")] *)
Fixpoint unix_lines (markdown : string) : string :=
  match markdown with
  | EmptyString => EmptyString
  | String "013" (String "010" rest) => String "010" (unix_lines rest)
  | String c rest => String c (unix_lines rest)
  end.

(** The variables of the loop of [renderMarkdown]. *)
Record Render := { out : list string; inList : bool; inCode : bool }.

Definition emit (piece : string) (r : Render) : Render :=
  {| out := (out r ++ [piece])%list; inList := inList r; inCode := inCode r |}.
Definition set_inList (b : bool) (r : Render) : Render :=
  {| out := out r; inList := b; inCode := inCode r |}.
Definition set_inCode (b : bool) (r : Render) : Render :=
  {| out := out r; inList := inList r; inCode := b |}.

Section Lines.

(** [String.prototype.trim], and the removal of leading white space,
    which is what the pattern of a list item does behind its dash. *)
Variable trim : string -> string.
Variable trimStart : string -> string.

(** The body of [for (const rawLine of lines)]. *)
Definition render_line (r : Render) (rawLine : string) : Render :=
  let trimmed := trim rawLine in
  if startsWith "```" trimmed then
    let r := if inList r then set_inList false (emit "</ul>" r) else r in
    if inCode r then set_inCode false (emit "</code></pre>" r)
    else set_inCode true (emit "<pre><code>" r)
  else if inCode r then
    emit (escapeHtml rawLine +:+ String "010" EmptyString) r
  else
    let r :=
      if String.eqb trimmed "" && inList r
      then set_inList false (emit "</ul>" r) else r in
    if String.eqb trimmed "" then emit "<br />" r
    else if startsWith "- " trimmed then
      let r := if negb (inList r) then set_inList true (emit "<ul>" r) else r in
      emit ("<li>" +:+ renderInlineMarkdown (trimStart (drop 1 trimmed)) +:+ "</li>") r
    else
      let r := if inList r then set_inList false (emit "</ul>" r) else r in
      if startsWith "### " trimmed then
        emit ("<h4>" +:+ renderInlineMarkdown (drop 4 trimmed) +:+ "</h4>") r
      else if startsWith "## " trimmed then
        emit ("<h3>" +:+ renderInlineMarkdown (drop 3 trimmed) +:+ "</h3>") r
      else if startsWith "# " trimmed then
        emit ("<h2>" +:+ renderInlineMarkdown (drop 2 trimmed) +:+ "</h2>") r
      else emit ("<p>" +:+ renderInlineMarkdown trimmed +:+ "</p>") r.

(** The array [out] when the function returns. *)
Definition pieces (markdown : string) : list string :=
  let lines := Tree.split "010" (unix_lines markdown) in
  let r := fold_left render_line lines {| out := []; inList := false; inCode := false |} in
  let r := if inList r then emit "</ul>" r else r in
  let r := if inCode r then emit "</code></pre>" r else r in
  out r.

Definition renderMarkdown (markdown : string) : string :=
  String.concat "" (pieces markdown).

End Lines.

(** *** Notions used in the statements *)

(** The element tags the renderer writes. *)
Definition tags : list string :=
  [ "<strong>"; "</strong>"; "<em>"; "</em>"; "<code>"; "</code>";
    "<pre>"; "</pre>"; "<ul>"; "</ul>"; "<li>"; "</li>";
    "<h2>"; "</h2>"; "<h3>"; "</h3>"; "<h4>"; "</h4>";
    "<p>"; "</p>"; "<br />" ].

(** Text that is made of these tags and of characters that are none of
    [<], [>] and the double quote. *)
Inductive html : string -> Prop :=
  | html_end : html EmptyString
  | html_char c s : markup c = false -> html s -> html (String c s)
  | html_tag t s : In t tags -> html s -> html (t +:+ s).

(** A character that occurs in no tag. *)
Definition outside (d : ascii) : Prop := forall t, In t tags -> ~ In d (chars t).

(** How often a piece occurs in the array [out]. *)
Definition occurrences (piece : string) (l : list string) : nat :=
  List.length (List.filter (String.eqb piece) l).

(** The state of the loop accounts for what [out] holds: an open list or
    code block is one that has not been closed yet. *)
Definition accounted (r : Render) : Prop :=
  occurrences "<ul>" (out r)
    = (occurrences "</ul>" (out r) + (if inList r then 1 else 0))%nat /\
  occurrences "<pre><code>" (out r)
    = (occurrences "</code></pre>" (out r) + (if inCode r then 1 else 0))%nat.

End Markdown.

(** ** Findings page: the listed findings, their totals and the filter panel *)

Module Totals.
Import Findings.

(** [type AggregatedFinding = { file: string; f: Finding }] *)
Record AggregatedFinding := { file : string; f : Finding }.

(** The two [continue] tests of the inner loop of [allFindings]. *)
Definition skips (filters : Filters) (fi : Finding) : bool :=
  (negb (no_size (f_severity filters))
     && negb (has (f_severity filters) (canonicalSeverity fi)))
  || (negb (no_size (f_category filters))
        && negb (has (f_category filters) (category_key fi))).

(** The body of the [allFindings] memo, for the list of files it loops
    over. *)
Definition collect (filteredFiles : list ScanFile) (filters : Filters)
  : list AggregatedFinding :=
  flat_map
    (fun file_ =>
       map (fun fi => {| file := path file_; f := fi |})
           (List.filter (fun fi => negb (skips filters fi)) (findings_of file_)))
    filteredFiles.

Definition allFindings (files : list ScanFile) (filters : Filters)
  : list AggregatedFinding :=
  collect (filteredFiles files filters) filters.

(** [base[key] = (base[key] || 0) + 1] on a [Record<string, number>]. *)
Definition bump (base : gmap string Z) (key : string) : gmap string Z :=
  <[key := (default 0 (base !! key) + 1)%Z]> base.

(** [{ high: 0, medium: 0, low: 0, info: 0 }] *)
Definition base0 : gmap string Z :=
  <["high" := 0%Z]> (<["medium" := 0%Z]> (<["low" := 0%Z]> (<["info" := 0%Z]> ∅))).

(** [severityTotals] of the page and [severityCounts] of the analytics
    panel, the same loop over the aggregated findings. *)
Definition severityTotals (allFindings : list AggregatedFinding) : gmap string Z :=
  fold_left (fun base a => bump base (canonicalSeverity (f a))) allFindings base0.

(** [totals[key] || 0], the number a chip of the overview shows. *)
Definition shown (totals : gmap string Z) (key : string) : Z :=
  default 0%Z (totals !! key).

(** [severityHeadline]: the first bucket whose count is not zero. *)
Definition severityHeadline (severityCounts : gmap string Z) : string :=
  if negb (shown severityCounts "high" =? 0)%Z then "High"
  else if negb (shown severityCounts "medium" =? 0)%Z then "Medium"
  else if negb (shown severityCounts "low" =? 0)%Z then "Low"
  else "Info".

(** A [Map<string, number>] is the list of its entries in insertion order;
    [map.set(key, (map.get(key) || 0) + 1)] keeps the place of a key that
    is already there. *)
Fixpoint tally (key : string) (m : list (string * Z)) : list (string * Z) :=
  match m with
  | [] => [(key, (0 + 1)%Z)]
  | (k, v) :: rest =>
      if String.eqb k key then (k, (v + 1)%Z) :: rest
      else (k, v) :: tally key rest
  end.

Definition categoryTotals (allFindings : list AggregatedFinding) : list (string * Z) :=
  fold_left (fun m a => tally (category_key (f a)) m) allFindings [].

(** [entries.sort((a, b) => b[1] - a[1])]: the sort is stable, so an entry
    goes in front of the first one whose count is not above its own. *)
Fixpoint insert_desc (x : string * Z) (l : list (string * Z)) : list (string * Z) :=
  match l with
  | [] => [x]
  | y :: rest => if (snd y <=? snd x)%Z then x :: l else y :: insert_desc x rest
  end.

Definition sort_desc (l : list (string * Z)) : list (string * Z) :=
  fold_right insert_desc [] l.

(** [.sort((a, b) => b[1] - a[1]).slice(0, 6)] *)
Definition top6 (entries : list (string * Z)) : list (string * Z) :=
  firstn 6 (sort_desc entries).

(** The entries of the "top categories" cloud. *)
Definition topCategories (allFindings : list AggregatedFinding) : list (string * Z) :=
  top6 (categoryTotals allFindings).

(** *** The filter panel *)

(** [const s = new Set(old); if (s.has(key)) s.delete(key); else s.add(key)] *)
Definition toggled (key : string) (old : gset string) : gset string :=
  if has old key then old ∖ {[key]} else old ∪ {[key]}.

Definition toggleSeverity (value : Filters) (key : string) : Filters :=
  {| f_severity := toggled key (f_severity value);
     f_category := f_category value;
     cryptoOnly := cryptoOnly value |}.

Definition toggleCategory (value : Filters) (key : string) : Filters :=
  {| f_severity := f_severity value;
     f_category := toggled key (f_category value);
     cryptoOnly := cryptoOnly value |}.

Definition toggleCryptoOnly (value : Filters) : Filters :=
  {| f_severity := f_severity value;
     f_category := f_category value;
     cryptoOnly := negb (cryptoOnly value) |}.

(** *** Notions used in the statements *)

(** The findings of the list that fall in a severity bucket, resp. carry a
    category key. *)
Definition in_bucket (key : string) (a : AggregatedFinding) : bool :=
  String.eqb (canonicalSeverity (f a)) key.

Definition of_category (key : string) (a : AggregatedFinding) : bool :=
  String.eqb (category_key (f a)) key.

Definition how_many (p : AggregatedFinding -> bool) (l : list AggregatedFinding) : Z :=
  Z.of_nat (length (List.filter p l)).

(** The number a [Map] of counters holds for a key, [0] when it has none. *)
Definition val (m : list (string * Z)) (k : string) : Z :=
  default 0%Z (Tree.assoc k m).

(** The counters once the findings of [l] are added to those of [m]. *)
Definition tallied (l : list AggregatedFinding) (m : list (string * Z))
  : list (string * Z) :=
  fold_left (fun m a => tally (category_key (f a)) m) l m.

(** An entry does not come before one with a higher count. *)
Definition desc (x y : string * Z) : Prop := (snd y <= snd x)%Z.

End Totals.

(** ** Code viewer: the decorations of the highlights *)

Module Viewer.
Import Findings.
Local Open Scope Z_scope.

(** [type Highlight] of the code viewer; [severity] is prefixed to keep it
    apart from that of [Finding]. *)
Record Highlight := {
  startLine : Z;
  endLine : option Z;
  h_severity : option string;
  message : option string
}.

(** [x || y] on line numbers: a missing number and [0] are falsy. *)
Definition or_num (x : option Z) (y : Z) : Z :=
  match x with
  | Some n => if n =? 0 then y else n
  | None => y
  end.

(** [start] and [end] of the callback of [highlights.map] in
    [applyDecorations]. *)
Definition start (h : Highlight) : Z :=
  Z.max 1 (or_num (Some (startLine h)) 1).

Definition end_ (h : Highlight) : Z :=
  Z.max (start h) (or_num (endLine h) (or_num (Some (startLine h)) (start h))).

(** [cls] of the same callback. *)
Definition className (h : Highlight) : string :=
  let sev := Js.toLowerCase (Js.or_else (h_severity h) "info") in
  if String.eqb sev "error" then "dec-error"
  else if String.eqb sev "warning" then "dec-warning"
  else "dec-info".

End Viewer.

(** ** The expanded state of the file trees *)

Module Explorer.
Import Tree.

(** [obj[key]] read as a condition, on a [Record<string, boolean>] made by
    an object literal or a spread: the own entry, or a member inherited
    from [Object.prototype] (an object or a function, which is truthy), or
    [undefined]. *)
Definition read (obj : gmap string bool) (key : string) : option bool :=
  match obj !! key with
  | Some b => Some b
  | None => if existsb (String.eqb key) inherited then Some true else None
  end.

(** [setExpanded(prev => ({ ...prev, [p]: !prev[p] }))], the [toggle] of the
    analyzer and editor pages and the [toggleNode] of the findings page. *)
Definition toggle (p : string) (prev : gmap string bool) : gmap string bool :=
  <[p := negb (default false (read prev p))]> prev.

(** [isFolder ? expanded[node.path] ?? node.level <= 1 : false] *)
Definition isExpanded (expanded : gmap string bool) (node : TreeNode) : bool :=
  match n_type node with
  | folder => default (n_level node <=? 1)%Z (read expanded (n_path node))
  | file => false
  end.

(** [expandedNodes[node.path] ?? depth === 0] of the findings page. *)
Definition isExpandedAt (expandedNodes : gmap string bool) (node : TreeNode)
    (depth : Z) : bool :=
  default (depth =? 0)%Z (read expandedNodes (n_path node)).

(** [obj[key] = v] on an object literal: the setter of [__proto__] ignores a
    boolean, any other key becomes an own entry. *)
Definition assign (key : string) (v : bool) (obj : gmap string bool) : gmap string bool :=
  if String.eqb key "__proto__" then obj else <[key := v]> obj.

(** [if (e.type === "folder" && e.level <= 1) defaults[e.path] = true] *)
Definition defaults_step (defaults : gmap string bool) (e : DirectoryEntry)
  : gmap string bool :=
  match type e with
  | folder => if (level e <=? 1)%Z then assign (path e) true defaults else defaults
  | file => defaults
  end.

(** The [defaults] that [fetchDirectoryTree] hands to [setExpanded]. *)
Definition defaults (entries : list DirectoryEntry) : gmap string bool :=
  fold_left defaults_step entries ∅.

(** The updater of the effect of the findings page that runs when
    [codeTree] changes; [changed ? next : prev] holds the same entries in
    both cases. *)
Definition expand_step (next : gmap string bool) (node : TreeNode)
  : gmap string bool :=
  match read next (n_path node) with
  | Some _ => next
  | None => <[n_path node := true]> next
  end.

Definition expandRoots (codeTree : list TreeNode) (prev : gmap string bool)
  : gmap string bool :=
  match codeTree with
  | [] => if bool_decide (prev = ∅) then prev else ∅
  | _ => fold_left expand_step codeTree prev
  end.

End Explorer.

(** ** Findings page: the tree of the scanned paths *)

Module CodeTree.
Import Tree.

(** The [parts.forEach] of [buildTreeFromPaths]: as in the editor page, but
    the prefix is joined without a leading slash. *)
Fixpoint insertSegments (agg : string) (parts : list string)
    (children : list (string * PNode)) : list (string * PNode) :=
  match parts with
  | [] => children
  | segment :: rest =>
      let agg := join agg segment in
      upsert segment (mkPNode segment agg (is_last rest) [])
        (fun child => p_set_children child (insertSegments agg rest (p_children child)))
        children
  end.

(** [keys.sort((a, b) => a.localeCompare(b))]: the sort is stable, so a key
    goes in front of the first one it does not come after. *)
Fixpoint insert_cmp (localeCompare : string -> string -> Z) (x : string)
    (l : list string) : list string :=
  match l with
  | [] => [x]
  | y :: rest =>
      if (localeCompare x y <=? 0)%Z then x :: l
      else y :: insert_cmp localeCompare x rest
  end.

Definition sort_cmp (localeCompare : string -> string -> Z) (l : list string)
  : list string :=
  fold_right (insert_cmp localeCompare) [] l.

(** The entry [toNodes] pushes for one child; the tree nodes of the
    findings page have no [level] and no [supported], kept here at [0] and
    [None]. *)
Fixpoint toEntry (localeCompare : string -> string -> Z) (child : PNode) : TreeNode :=
  let 'mkPNode name path type children := child in
  mkTreeNode name path type 0 None
    (match type with
     | folder =>
         Some (omap
                 (fun k =>
                    assoc k
                      (map (fun kc => let '(k, c) := kc in (k, toEntry localeCompare c))
                           children))
                 (sort_cmp localeCompare (map fst children)))
     | file => None
     end).

Definition toEntries (localeCompare : string -> string -> Z)
    (children : list (string * PNode)) : list TreeNode :=
  omap
    (fun k =>
       assoc k (map (fun kc => let '(k, c) := kc in (k, toEntry localeCompare c)) children))
    (sort_cmp localeCompare (map fst children)).

Definition buildTreeFromPaths (localeCompare : string -> string -> Z)
    (paths : list string) : list TreeNode :=
  let root :=
    fold_left
      (fun root full =>
         if String.eqb full "" then root
         else insertSegments "" (parts_of full) root)
      paths [] in
  toEntries localeCompare root.

(** *** Notions used in the statements *)

Definition p_name (p : PNode) : string := let 'mkPNode x _ _ _ := p in x.

(** The scratch object with the paths of the editor page. *)
Fixpoint slashed (p : PNode) : PNode :=
  let 'mkPNode name path type children := p in
  mkPNode name ("/" +:+ path) type
    (map (fun kc => let '(k, c) := kc in (k, slashed c)) children).

Definition slashed_all (children : list (string * PNode)) : list (string * PNode) :=
  map (fun kc => let '(k, c) := kc in (k, slashed c)) children.

(** Every object of the trie is filed under its own name, and no key
    occurs twice. *)
Fixpoint tidy (p : PNode) : bool :=
  let 'mkPNode _ _ _ children := p in
  distinct String.eqb (map fst children)
  && forallb (fun kc => let '(k, c) := kc in String.eqb (p_name c) k && tidy c) children.

Definition tidy_all (children : list (string * PNode)) : bool :=
  distinct String.eqb (map fst children)
  && forallb (fun kc => let '(k, c) := kc in String.eqb (p_name c) k && tidy c) children.

(** The values of [children] under the keys [keys], in that order. *)
Definition pick {A} (children : list (string * A)) (keys : list string) : list A :=
  omap (fun k => assoc k children) keys.

(** A comparison for the examples: code units, as [Array.prototype.sort]
    without argument. *)
Definition by_code_units (a b : string) : Z :=
  if String.eqb a b then 0%Z else if String.leb a b then (-1)%Z else 1%Z.

End CodeTree.

(** ** Analyzer page: what the tree of derived entries holds *)

Module Walk.
Import Tree.

(** The paths of the file nodes of a tree, in the order a reader meets
    them. *)
Fixpoint files_of_node (n : TreeNode) : list string :=
  let 'mkTreeNode _ path type _ _ children := n in
  match type with
  | file => [path]
  | folder =>
      match children with
      | Some cs => flat_map files_of_node cs
      | None => []
      end
  end.

Definition files_of (forest : list TreeNode) : list string :=
  flat_map files_of_node forest.

(** The prefix [agg] once [parts.forEach] has run. *)
Definition joined (agg : string) (parts : list string) : string :=
  fold_left join parts agg.

(** [arr.find(n => n.path === node.path && n.type === node.type)] *)
Definition find (node : TreeNode) (arr : list TreeNode) : option TreeNode :=
  List.find (same_key node) arr.

(** The nodes of the path [parts] are all in the forest. *)
Fixpoint present (agg : string) (i : Z) (parts : list string) (arr : list TreeNode)
  : bool :=
  match parts with
  | [] => true
  | seg :: rest =>
      match find (fresh agg i seg rest) arr with
      | Some n =>
          match is_last rest with
          | folder => present (join agg seg) (i + 1) rest (children_or_empty n)
          | file => true
          end
      | None => false
      end
  end.

End Walk.

(** ** Editor page: the counts shown in the tree *)

Module Editor.
Import Text Tree.

(** The editor page declares its own copy of the analysis types. *)
Record CryptoFunction := {
  fn_name : option string;
  line_start : option Z;
  content : option string;
  fn_type : option string
}.

Record BasicCryptoAnalysis := {
  file_path : string;
  file_name : string;
  file_extension : string;
  has_crypto : bool;
  crypto_imports : option (list string);
  crypto_functions : option (list CryptoFunction);
  crypto_patterns_found : option (list string);
  crypto_algorithms_detected : option (list (list (string * string)))
}.

(** [xs?.length || 0] *)
Definition len {A} (xs : option (list A)) : Z :=
  match xs with
  | Some l => Z.of_nat (length l)
  | None => 0%Z
  end.

(** The number [c] computed for one file. *)
Definition findings_in (a : BasicCryptoAnalysis) : Z :=
  (len (crypto_imports a) + len (crypto_functions a)
   + len (crypto_patterns_found a) + len (crypto_algorithms_detected a))%Z.

(** [map[a.file_path] = c] on an object literal: the setter of [__proto__]
    ignores a number. *)
Definition record (map : gmap string Z) (a : BasicCryptoAnalysis) : gmap string Z :=
  if String.eqb (file_path a) "__proto__" then map
  else <[file_path a := findings_in a]> map.

(** [findingsCountByPath], from the [analysis] of every entry of [files]. *)
Definition findingsCountByPath (files : list BasicCryptoAnalysis) : gmap string Z :=
  fold_left record files ∅.

(** [s.endsWith("/")] *)
Fixpoint ends_with_slash (s : string) : bool :=
  match s with
  | EmptyString => false
  | String c EmptyString => Ascii.eqb c "/"
  | String _ rest => ends_with_slash rest
  end.

(** The [prefix] of [getFolderCount]. *)
Definition folder_prefix (folderPath : string) : string :=
  if ends_with_slash folderPath then folderPath else folderPath +:+ "/".

(** The body of the loop over [Object.entries(findingsCountByPath)]. *)
Definition add_under (prefix : string) (p : string) (v : Z) (sum : Z) : Z :=
  if startsWith prefix p then (sum + v)%Z else sum.

Definition getFolderCount (findingsCountByPath : gmap string Z) (folderPath : string) : Z :=
  if String.eqb folderPath "" then 0%Z
  else map_fold (add_under (folder_prefix folderPath)) 0%Z findingsCountByPath.

(** The [count] of a row of the tree; a badge is shown when it is
    positive.  A path that names a member of [Object.prototype] reads
    something that is no number and shows no badge, as [0] does. *)
Definition count (findingsCountByPath : gmap string Z) (node : TreeNode) : Z :=
  match n_type node with
  | folder => getFolderCount findingsCountByPath (n_path node)
  | file => default 0%Z (findingsCountByPath !! n_path node)
  end.

(** A file with one import and one pattern, for the examples. *)
Definition flagged (p : string) : BasicCryptoAnalysis :=
  {| file_path := p; file_name := p; file_extension := ".py"; has_crypto := true;
     crypto_imports := Some ["hashlib"]; crypto_functions := None;
     crypto_patterns_found := Some ["md5"]; crypto_algorithms_detected := None |}.

(** *** Notions used in the statements *)

(** A node and everything below it. *)
Fixpoint nodes_of_node (n : TreeNode) : list TreeNode :=
  let 'mkTreeNode _ _ _ _ _ children := n in
  n :: match children with
       | Some cs => flat_map nodes_of_node cs
       | None => []
       end.

Definition nodes_of (forest : list TreeNode) : list TreeNode :=
  flat_map nodes_of_node forest.

(** Every path of the trie starts with a slash. *)
Fixpoint rooted (p : PNode) : bool :=
  let 'mkPNode _ path _ children := p in
  startsWith "/" path
  && forallb (fun kc => let '(k, c) := kc in rooted c) children.

Definition rooted_all (children : list (string * PNode)) : bool :=
  forallb (fun kc => let '(k, c) := kc in rooted c) children.

End Editor.

(** ** Analyzer page: where a finished analysis leads *)

Module Landing.
Import Analysis Reconciler.

(** The target of [router.push] in the callback that [finalize(data)]
    schedules. *)
Definition route (target : option string) : Route :=
  if Js.truthy target then FindingsVersion (Js.or_else target "") else FindingsDefault.

(** A [done] event whose payload is the object [d], and the two timers
    that follow it: the 500 ms one of [finalize] and the 1000 ms one of
    [stopProgress]. *)
Definition done_then_timers (d : Data) : list Event :=
  [Named done_ (Some (Obj d)); Timeout 0; Timeout 0].

(** The git listener reads the file paths of the payload; a path that is
    missing makes it finalize without payload. *)
Definition readable (k : Stream) (d : Data) : Prop :=
  match k with
  | AnalyzeLocal => True
  | AnalyzeGit => derivedEntries (Some d) <> None
  end.

End Landing.

(** ** Analyzer page: the ZIP upload *)

Module Zip.
Import Analysis Reconciler.

(** *** The two patterns of the response reader

    Strings are bytes, so the line terminators U+2028 and U+2029 are read
    in their UTF-8 encoding. *)

(** What follows a line terminator at the head of [s]. *)
Definition terminator (s : string) : option string :=
  match s with
  | String "010" rest => Some rest
  | String "013" rest => Some rest
  | String "226" (String "128" (String "168" rest)) => Some rest
  | String "226" (String "128" (String "169" rest)) => Some rest
  | _ => None
  end.

(** [s] holds no line terminator: [.+] can run to its end. *)
Fixpoint dot_all (s : string) : bool :=
  match s with
  | EmptyString => true
  | String _ rest =>
      match terminator s with
      | Some _ => false
      | None => dot_all rest
      end
  end.

(** The longest match of [.*] at the head of [s]. *)
Fixpoint dot_run (s : string) : string :=
  match s with
  | EmptyString => EmptyString
  | String c rest =>
      match terminator s with
      | Some _ => EmptyString
      | None => String c (dot_run rest)
      end
  end.

(** [s] without the prefix [p], when it starts with it. *)
Fixpoint after (p s : string) : option string :=
  match p, s with
  | EmptyString, _ => Some s
  | String a p', String b s' => if Ascii.eqb a b then after p' s' else None
  | String _ _, EmptyString => None
  end.

(** [line.match(/^event: (.+)$/)?.[1]]: without the [m] flag [$] is the end
    of the input. *)
Definition eventMatch (line : string) : option string :=
  match after "event: " line with
  | Some rest => if negb (String.eqb rest "") && dot_all rest then Some rest else None
  | None => None
  end.

(** [/^data: (.+)$/] tried at one position. *)
Definition data_here (s : string) : option string :=
  match after "data: " s with
  | Some rest =>
      let d := dot_run rest in
      if String.eqb d "" then None else Some d
  | None => None
  end.

(** [line.match(/^data: (.+)$/m)?.[1]]: with the [m] flag [^] matches at
    the start and after every line terminator; [start] tells whether the
    position reached is such a place. *)
Fixpoint data_from (start : bool) (s : string) : option string :=
  match (if start then data_here s else None) with
  | Some d => Some d
  | None =>
      match s with
      | EmptyString => None
      | String "010" rest => data_from true rest
      | String "013" rest => data_from true rest
      | String "226" (String "128" (String "168" rest)) => data_from true rest
      | String "226" (String "128" (String "169" rest)) => data_from true rest
      | String _ rest => data_from false rest
      end
  end.

Definition dataMatch (line : string) : option string := data_from true line.

(** [text.split("\n\n")] *)
Fixpoint chunks (text : string) : list string :=
  match text with
  | EmptyString => [EmptyString]
  | String "010" (String "010" rest) => EmptyString :: chunks rest
  | String c rest =>
      match chunks rest with
      | w :: ws => String c w :: ws
      | [] => [String c EmptyString]
      end
  end.

(** *** The upload operation *)

(** What [xhr] and the timers deliver. *)
Inductive XhrEvent :=
  | UploadProgress (lengthComputable : bool) (loaded total : Z)
  | ReadyStateChange (readyState : Z) (responseText : string) (status : Z)
  | XhrError
  | SafetyTimeout
  | Fired (nth : nat).

(** [finalize(data)] of [onAnalyzeZip]: there is no stream to close and no
    inactivity timer to clear. *)
Definition finalize (data : option Data) (st : State) : State :=
  if finished (op st) then st
  else
    let st := set_finished st in
    let st := setLoading false st in
    let st := setActiveJob None st in
    match data with
    | Some d =>
        let st := setProgressMsg "analysis complete!" st in
        let st := setProgressPct 100 st in
        setTimeout (Redirect (versionId (result d))) st
    | None => stopProgress st
    end.

(** The [switch (event)] of the response reader. *)
Definition dispatch (event : string) (data : Json) (st : State) : State :=
  if String.eqb event "extracting" then
    setProgressPct 6
      (setProgressMsg (Js.or_else (field message data) "extracting archive…") st)
  else if String.eqb event "collecting" then
    setProgressPct 8
      (setProgressMsg (Js.or_else (field message data) "collecting files…") st)
  else if String.eqb event "start" then
    setProgressPct 10
      (setProgressMsg
         ("scanning " +:+ Js.show (num (field total data)) +:+ " files") st)
  else if String.eqb event "scanning" then
    let done := num (field done data) in
    let total := num (field total data) in
    setProgressMsg
      ("scanning files: " +:+ Js.show done +:+ "/" +:+ Js.show total)
      (setProgressPct (scanningPct AnalyzeLocal done total) st)
  else if String.eqb event "indexing" then
    setProgressMsg (Js.or_else (field message data) "indexing…") st
  else if String.eqb event "enriching" then
    setProgressPct 92
      (setProgressMsg (Js.or_else (field message data) "enriching findings…") st)
  else if String.eqb event "cached" then
    finalize (obj data) (setAnalysisResult (result <$> obj data) st)
  else if String.eqb event "done" then
    finalize (obj data) (setAnalysisResult (result <$> obj data) st)
  else if String.eqb event "error" then
    finalize None st
  else st.

Section Reader.

(** [JSON.parse], [None] when it throws, and [String.prototype.trim]. *)
Variable JSON_parse : string -> option Json.
Variable trim : string -> string.

(** The body of [for (const line of lines)]. *)
Definition read_chunk (st : State) (line : string) : State :=
  if String.eqb (trim line) "" then st
  else
    match eventMatch line, dataMatch line with
    | Some event, Some data =>
        match JSON_parse data with
        | Some d => dispatch event d st
        | None => st
        end
    | _, _ => st
    end.

(** The listeners of [onAnalyzeZip].  A [progress] event with
    [lengthComputable] carries a positive [total]. *)
Definition handleZip (st : State) (ev : XhrEvent) : State :=
  match ev with
  | UploadProgress lengthComputable loaded total =>
      if lengthComputable
      then setProgressPct (Z.max 1 (round_scaled loaded total 5)) st
      else st
  | ReadyStateChange readyState responseText status =>
      if (readyState =? 3)%Z then fold_left read_chunk (chunks responseText) st
      else if (readyState =? 4)%Z then
        if finished (op st) then st else finalize None st
      else st
  | XhrError => if finished (op st) then st else finalize None st
  | SafetyTimeout =>
      if safetyTimer (op st)
      then
        let st := set_safetyTimer false st in
        if finished (op st) then st else finalize None st
      else st
  | Fired n =>
      match timeouts (op st) !! n with
      | Some cb => fire cb (set_timeouts (delete n (timeouts (op st))) st)
      | None => st
      end
  end.

Definition runZip (st : State) (evs : list XhrEvent) : State :=
  fold_left handleZip evs st.

End Reader.

(** The state in which [onAnalyzeZip] leaves the page once the request is
    sent and the 180 s timer set. *)
Definition beginZip : State :=
  let st :=
    {| page := mounted;
       op := {| finished := false; eventCount := 0; closed := 0;
                safetyTimer := false; timeouts := [] |} |} in
  let st := setActiveJob (Some upload) st in
  let st := setLoading true st in
  let st := setProgressPct 1 st in
  set_safetyTimer true st.

(** *** Notions used in the statements *)

(** Events that end the upload: the response is complete, the request
    failed, or the 180 s are over. *)
Definition ends (ev : XhrEvent) : Prop :=
  match ev with
  | ReadyStateChange readyState _ _ => readyState = 4%Z
  | XhrError | SafetyTimeout => True
  | _ => False
  end.

(** Events that would call [finalize] again once the upload is finished. *)
Definition late_xhr (ev : XhrEvent) : Prop :=
  match ev with
  | ReadyStateChange _ _ _ | XhrError | SafetyTimeout => True
  | _ => False
  end.

(** What holds of the page at every moment of an upload. *)
Definition upload_invariant (st : State) : Prop :=
  pushed (page st) = [] /\ analysisResult (page st) = None /\
  redirects (timeouts (op st)) = 0%nat /\
  if finished (op st)
  then loading (page st) = false /\ activeJob (page st) = None
  else loading (page st) = true /\ activeJob (page st) = Some upload /\
       safetyTimer (op st) = true /\ timeouts (op st) = [].

End Zip.

(** * Properties *)

(** ** Severity buckets and the file filter *)

Module FindingsSpec.
Import Findings.

Ltac by_label r lbl :=
  destruct (String.eqb_spec r lbl) as [->|?]; cbn [orb];
  [ cbn; tauto | ].

(** The four cases of [canonicalSeverity], on its local [raw]. *)
Lemma canonicalSeverity_four_buckets (finding : Finding) :
  In (canonicalSeverity finding) buckets /\
  ((In (raw finding) ["critical"; "error"; "high"]
      /\ canonicalSeverity finding = "high") \/
   (In (raw finding) ["warning"; "medium"]
      /\ canonicalSeverity finding = "medium") \/
   (In (raw finding) ["info"; "informational"]
      /\ canonicalSeverity finding = "info") \/
   (~ In (raw finding) recognised /\ canonicalSeverity finding = "low")).
Proof.
  unfold canonicalSeverity, buckets, recognised.
  generalize (raw finding) as r. intro r.
  by_label r "critical". by_label r "error". by_label r "high".
  by_label r "warning". by_label r "medium".
  by_label r "info". by_label r "informational".
  cbn. intuition congruence.
Qed.

Example canonicalSeverity_critical :
  canonicalSeverity (with_severity "critical") = "high".
Proof. reflexivity. Qed.

Example canonicalSeverity_warning :
  canonicalSeverity (with_severity "warning") = "medium".
Proof. reflexivity. Qed.

Example canonicalSeverity_informational :
  canonicalSeverity (with_severity "informational") = "info".
Proof. reflexivity. Qed.

Example canonicalSeverity_nonsense :
  canonicalSeverity (with_severity "nonsense") = "low".
Proof. reflexivity. Qed.

Example canonicalSeverity_upper_case :
  canonicalSeverity (with_severity "HIGH") = "high".
Proof. reflexivity. Qed.

(** The local [raw] is the label of the finding in lower case. *)
Lemma raw_label (finding : Finding) : raw finding = Js.toLowerCase (label finding).
Proof.
  unfold raw, label, Js.or_opt, Js.or_else, Js.truthy.
  destruct (rankedSeverity finding) as [[|c r]|];
    destruct (severity finding) as [[|c' s']|]; reflexivity.
Qed.

(** C1, amended. [canonicalSeverity] returns one of "high", "medium",
    "low", "info" for every finding.  What it classifies is the label of
    the finding, which is its [rankedSeverity] when that is a non-empty
    string, else its [severity] when that is one, else "info", taken in
    lower case: critical / error / high give "high", warning / medium give
    "medium", info / informational give "info", and every other label
    gives "low". *)
Theorem canonicalSeverity_classifies_the_label (finding : Finding) :
  let l := Js.toLowerCase (label finding) in
  In (canonicalSeverity finding) buckets /\
  (In l ["critical"; "error"; "high"] -> canonicalSeverity finding = "high") /\
  (In l ["warning"; "medium"] -> canonicalSeverity finding = "medium") /\
  (In l ["info"; "informational"] -> canonicalSeverity finding = "info") /\
  (~ In l recognised -> canonicalSeverity finding = "low").
Proof.
  intros l. subst l. rewrite <- raw_label.
  destruct (canonicalSeverity_four_buckets finding) as [Hb H].
  split; [exact Hb|]. unfold recognised in *.
  destruct H as [[Hin ->]|[[Hin ->]|[[Hin ->]|[Hout ->]]]].
  - repeat split; try reflexivity; intros H; exfalso; revert Hin H;
      generalize (raw finding); intros r; cbn; intuition congruence.
  - repeat split; try reflexivity; intros H; exfalso; revert Hin H;
      generalize (raw finding); intros r; cbn; intuition congruence.
  - repeat split; try reflexivity; intros H; exfalso; revert Hin H;
      generalize (raw finding); intros r; cbn; intuition congruence.
  - repeat split; try reflexivity; intros H; exfalso; apply Hout; revert H;
      generalize (raw finding); intros r; cbn; intuition congruence.
Qed.

Lemma canonicalSeverity_classifies_the_label_witness :
  canonicalSeverity (with_both "Warning" "critical") = "medium".
Proof.
  apply (proj1 (proj2 (proj2 (canonicalSeverity_classifies_the_label
                                (with_both "Warning" "critical"))))).
  cbn. tauto.
Defined.

(** The claim read on the label as the finding holds it: "HIGH" is none of
    the labels the claim lists and is classified "high", not "low"; the
    empty label is classified "info", not "low"; and a [severity] critical
    is classified "low" when the [rankedSeverity] says low. *)
Lemma label_as_written_not_classified :
  (severity (with_severity "HIGH") = Some "HIGH" /\ ~ In "HIGH" recognised /\
   canonicalSeverity (with_severity "HIGH") = "high") /\
  (severity (with_severity "") = Some "" /\ ~ In "" recognised /\
   canonicalSeverity (with_severity "") = "info") /\
  (severity (with_both "low" "critical") = Some "critical" /\
   canonicalSeverity (with_both "low" "critical") = "low").
Proof.
  unfold recognised. cbn.
  repeat split; try reflexivity; intuition discriminate.
Qed.

Lemma or_opt_truthy (a b : option string) :
  Js.truthy a = true -> Js.or_else (Js.or_opt a b) "info" = Js.or_else a "info".
Proof. unfold Js.or_opt. now intros ->. Qed.

Lemma raw_ranked (finding : Finding) (ranked : string) :
  rankedSeverity finding = Some ranked -> Js.truthy (Some ranked) = true ->
  raw finding = Js.toLowerCase ranked.
Proof.
  intros Hr Ht. unfold raw. rewrite Hr, or_opt_truthy by exact Ht.
  cbn in Ht |- *. destruct (String.eqb ranked ""); [discriminate|reflexivity].
Qed.

(** C10. A [rankedSeverity] that is set (a non-empty string, which is what
    [||] takes for present) decides the bucket: the label classified is the
    lower-cased [rankedSeverity], and two findings with that same
    [rankedSeverity] get the same bucket whatever their [severity] fields
    hold.  A finding with neither field is classified "info". *)
Theorem canonicalSeverity_ranked_first (finding : Finding) :
  (forall ranked, rankedSeverity finding = Some ranked ->
     Js.truthy (Some ranked) = true ->
     raw finding = Js.toLowerCase ranked /\
     forall other, rankedSeverity other = Some ranked ->
       canonicalSeverity other = canonicalSeverity finding) /\
  (rankedSeverity finding = None -> severity finding = None ->
     canonicalSeverity finding = "info").
Proof.
  split.
  - intros ranked Hr Ht. split; [now apply raw_ranked|].
    intros other Ho. unfold canonicalSeverity.
    now rewrite (raw_ranked finding ranked), (raw_ranked other ranked).
  - intros Hr Hs. unfold canonicalSeverity, raw. rewrite Hr, Hs. reflexivity.
Qed.

Lemma canonicalSeverity_ranked_first_witness :
  canonicalSeverity (with_both "CRITICAL" "low") = "high" /\
  canonicalSeverity blank = "info".
Proof.
  split.
  - rewrite (proj2 (proj1 (canonicalSeverity_ranked_first (with_both "CRITICAL" "high"))
                         "CRITICAL" eq_refl eq_refl)
                  (with_both "CRITICAL" "low") eq_refl).
    reflexivity.
  - exact (proj2 (canonicalSeverity_ranked_first blank) eq_refl eq_refl).
Defined.

(** An empty [rankedSeverity] is falsy and gives way to [severity]. *)
Example canonicalSeverity_empty_ranked :
  canonicalSeverity (with_both "" "high") = "high".
Proof. reflexivity. Qed.

(** C4. With both sets empty and [cryptoOnly] off, the file-level filter
    returns the list of files unchanged. *)
Theorem filteredFiles_pass_all (files : list ScanFile) :
  filteredFiles files pass_all = files.
Proof.
  unfold filteredFiles.
  induction files as [|f files IH]; [reflexivity|].
  cbn [List.filter]. rewrite IH.
  unfold keeps, pass_all; cbn [cryptoOnly f_severity f_category andb].
  unfold no_size. rewrite size_empty. reflexivity.
Qed.

Lemma no_size_spec (s : gset string) : no_size s = true <-> s = ∅.
Proof.
  unfold no_size. rewrite Nat.eqb_eq. split.
  - intros H. apply leibniz_equiv. now apply size_empty_inv.
  - intros ->. apply size_empty.
Qed.

Lemma has_spec (s : gset string) x : has s x = true <-> x ∈ s.
Proof. unfold has. apply bool_decide_eq_true. Qed.

Lemma finding_passes_spec sev cat fi :
  finding_passes sev cat fi = true <->
  (sev = ∅ \/ canonicalSeverity fi ∈ sev) /\ (cat = ∅ \/ category_key fi ∈ cat).
Proof.
  unfold finding_passes.
  rewrite andb_true_iff, !orb_true_iff, !no_size_spec, !has_spec. reflexivity.
Qed.

Lemma has_findings_spec (f : ScanFile) :
  (0 <? length (findings_of f))%nat = true <-> findings_of f <> [].
Proof.
  rewrite Nat.ltb_lt. destruct (findings_of f); cbn; split; intros; try lia; congruence.
Qed.

(** What [keeps] decides, case by case. *)
Lemma keeps_spec (filters : Filters) (f : ScanFile) :
  keeps filters f = true <->
  (cryptoOnly filters = true -> findings_of f <> []) /\
  ((f_severity filters = ∅ /\ f_category filters = ∅) \/
   exists fi, In fi (findings_of f) /\
     (f_severity filters = ∅ \/ canonicalSeverity fi ∈ f_severity filters) /\
     (f_category filters = ∅ \/ category_key fi ∈ f_category filters)).
Proof.
  unfold keeps.
  destruct (cryptoOnly filters) eqn:Hc; cbn [andb].
  - destruct (0 <? length (findings_of f))%nat eqn:Hf; cbn [negb].
    + apply has_findings_spec in Hf.
      destruct (no_size (f_severity filters) && no_size (f_category filters)) eqn:Hn.
      * apply andb_true_iff in Hn as [H1%no_size_spec H2%no_size_spec]. tauto.
      * rewrite existsb_exists. setoid_rewrite finding_passes_spec.
        split; [intros H; split; [tauto|right; exact H]|].
        intros [_ [[H1 H2]|H]]; [|exact H].
        apply no_size_spec in H1, H2. rewrite H1, H2 in Hn. discriminate.
    + split; [discriminate|]. intros [H _].
      specialize (H eq_refl). apply has_findings_spec in H. congruence.
  - destruct (no_size (f_severity filters) && no_size (f_category filters)) eqn:Hn.
    + apply andb_true_iff in Hn as [H1%no_size_spec H2%no_size_spec].
      split; [|reflexivity]. intros _. split; [discriminate|tauto].
    + rewrite existsb_exists. setoid_rewrite finding_passes_spec.
      split; [intros H; split; [discriminate|right; exact H]|].
      intros [_ [[H1 H2]|H]]; [|exact H].
      apply no_size_spec in H1, H2. rewrite H1, H2 in Hn. discriminate.
Qed.

(** With [cryptoOnly] on and the severity set holding only "high", a file
    whose single finding is "low" is dropped although it has a finding. *)
Lemma cryptoOnly_drops_file_with_finding :
  cryptoOnly only_high = true /\
  length (findings_of low_file) = 1%nat /\
  filteredFiles [low_file] only_high = [].
Proof. vm_compute. auto. Qed.

(** C5, amended. With [cryptoOnly] on, a file is kept exactly when it has a
    finding and either both sets are empty or one of its findings satisfies
    the non-empty sets; files without findings are always dropped. *)
Theorem filteredFiles_cryptoOnly (files : list ScanFile) (filters : Filters)
    (f : ScanFile) :
  cryptoOnly filters = true ->
  (In f (filteredFiles files filters) <->
   In f files /\ findings_of f <> [] /\
   ((f_severity filters = ∅ /\ f_category filters = ∅) \/
    exists fi, In fi (findings_of f) /\
      (f_severity filters = ∅ \/ canonicalSeverity fi ∈ f_severity filters) /\
      (f_category filters = ∅ \/ category_key fi ∈ f_category filters))).
Proof.
  intros Hc. unfold filteredFiles. rewrite filter_In, keeps_spec. tauto.
Qed.

Lemma filteredFiles_cryptoOnly_witness :
  In low_file (filteredFiles [low_file; empty_file] crypto_only) /\
  ~ In empty_file (filteredFiles [low_file; empty_file] crypto_only).
Proof.
  split.
  - apply (proj2 (filteredFiles_cryptoOnly [low_file; empty_file] crypto_only
                    low_file eq_refl)).
    split; [left; reflexivity|]. split; [discriminate|]. left. split; reflexivity.
  - intros H.
    apply (proj1 (filteredFiles_cryptoOnly [low_file; empty_file] crypto_only
                    empty_file eq_refl)) in H.
    destruct H as (_ & H & _). apply H. reflexivity.
Defined.

(** X2. The file-level filter keeps exactly the files that have a finding
    when [cryptoOnly] is on, and for which both sets are empty or one
    finding satisfies both restrictions, each satisfied when its set is
    empty. *)
Theorem filteredFiles_contract (files : list ScanFile) (filters : Filters)
    (f : ScanFile) :
  In f (filteredFiles files filters) <->
  In f files /\
  (cryptoOnly filters = false \/ findings_of f <> []) /\
  ((f_severity filters = ∅ /\ f_category filters = ∅) \/
   exists fi, In fi (findings_of f) /\
     (f_severity filters = ∅ \/ canonicalSeverity fi ∈ f_severity filters) /\
     (f_category filters = ∅ \/ category_key fi ∈ f_category filters)).
Proof.
  unfold filteredFiles. rewrite filter_In, keeps_spec.
  destruct (cryptoOnly filters); intuition congruence.
Qed.

(** Scenario: a.py with one finding, b.js with none, c.go with two. *)
Example three_files_cryptoOnly :
  filteredFiles [a_py; b_js; c_go] crypto_only = [a_py; c_go] /\
  map canonicalSeverity (flat_map findings_of [a_py; c_go]) = ["high"; "low"; "medium"].
Proof. split; vm_compute; reflexivity. Qed.

End FindingsSpec.

(** ** The files collection *)

Module AnalysisSpec.
Import Analysis.




Example getFilesCollection_null : getFilesCollection None = [].
Proof. reflexivity. Qed.

End AnalysisSpec.

(** ** Double-precision arithmetic *)

Module IeeeSpec.
Import QArith Qround Qpower Lqa Ieee.
Local Open Scope Q_scope.

(** *** Rounding keeps the order *)

Lemma two_power_pos (e : Z) : 0 < 2 ^ e.
Proof. apply Qpower_0_lt. reflexivity. Qed.

Lemma two_power_le (a b : Z) : (a <= b)%Z -> 2 ^ a <= 2 ^ b.
Proof. intros H. apply Qpower_le_compat_l; [exact H|]. discriminate. Qed.

Lemma two_power_succ (e : Z) : 2 ^ (e + 1) == 2 * 2 ^ e.
Proof. rewrite Qpower_plus by discriminate. change (2 ^ 1) with 2. ring. Qed.

Lemma log2_bounds (n : Z) :
  (0 < n)%Z -> 2 ^ Z.log2 n <= inject_Z n /\ inject_Z n < 2 * 2 ^ Z.log2 n.
Proof.
  intros Hn. destruct (Z.log2_spec n Hn) as [H1 H2].
  pose proof (Z.log2_nonneg n) as H0.
  rewrite <- two_power_succ.
  rewrite <- (Zpower_Qpower 2 (Z.log2 n)) by exact H0.
  rewrite <- (Zpower_Qpower 2 (Z.log2 n + 1)) by lia.
  split; [rewrite <- Zle_Qle|rewrite <- Zlt_Qlt]; [exact H1|].
  replace (Z.log2 n + 1)%Z with (Z.succ (Z.log2 n)) by lia. exact H2.
Qed.

Lemma binade_spec (x : Q) :
  0 < x -> 2 ^ binade x <= x /\ x < 2 ^ (binade x + 1).
Proof.
  intros Hx. unfold binade.
  set (k := (Z.log2 (Qnum x) - Z.log2 (Zpos (Qden x)))%Z).
  assert (Hn : (0 < Qnum x)%Z).
  { destruct x as [n d]. unfold Qlt in Hx. cbn in *. lia. }
  destruct (log2_bounds (Qnum x) Hn) as [Hn1 Hn2].
  destruct (log2_bounds (Zpos (Qden x)) ltac:(lia)) as [Hd1 Hd2].
  assert (Ex : x == inject_Z (Qnum x) / inject_Z (Zpos (Qden x))).
  { destruct x as [n d]. cbn [Qnum Qden]. rewrite Qmake_Qdiv. reflexivity. }
  set (A := 2 ^ Z.log2 (Qnum x)) in *. set (B := 2 ^ Z.log2 (Zpos (Qden x))) in *.
  assert (HA : 0 < A) by apply two_power_pos.
  assert (HB : 0 < B) by apply two_power_pos.
  assert (Ek : 2 ^ k == A / B).
  { unfold k. rewrite Qpower_minus by discriminate. reflexivity. }
  set (n := inject_Z (Qnum x)) in *. set (d := inject_Z (Zpos (Qden x))) in *.
  assert (Hd : 0 < d) by (unfold d, Qlt; cbn; lia).
  assert (Hup : x < 2 * (A / B)).
  { rewrite Ex. apply Qlt_shift_div_r; [exact Hd|].
    assert (E : 2 * (A / B) * d == 2 * A * (d / B)) by (field; lra).
    rewrite E. clear E.
    assert (1 <= d / B) by (apply Qle_shift_div_l; lra).
    nra. }
  assert (Hlow : A / B < 2 * x).
  { rewrite Ex. apply Qlt_shift_div_r; [exact HB|].
    assert (E : 2 * (n / d) * B == 2 * n * (B / d)) by (field; lra).
    rewrite E. clear E.
    assert (1 < 2 * (B / d)).
    { assert (E : 2 * (B / d) == (2 * B) / d) by (field; lra). rewrite E.
      apply Qlt_shift_div_l; lra. }
    nra. }
  destruct (Qle_bool (2 ^ k) x) eqn:Hb.
  - apply Qle_bool_iff in Hb. split; [exact Hb|].
    rewrite two_power_succ, Ek. exact Hup.
  - assert (Hlt : x < 2 ^ k).
    { apply Qnot_le_lt. intros H. apply Qle_bool_iff in H. congruence. }
    replace (k - 1 + 1)%Z with k by lia. split; [|exact Hlt].
    assert (E : 2 ^ k == 2 * 2 ^ (k - 1)).
    { rewrite <- two_power_succ. replace (k - 1 + 1)%Z with k by lia. reflexivity. }
    rewrite Ek in E. lra.
Qed.

Lemma binade_mono (x y : Q) : 0 < x -> x <= y -> (binade x <= binade y)%Z.
Proof.
  intros Hx Hxy.
  destruct (binade_spec x Hx) as [Hx1 _].
  destruct (binade_spec y ltac:(lra)) as [_ Hy2].
  destruct (Z_le_gt_dec (binade x) (binade y)) as [H|H]; [exact H|exfalso].
  pose proof (two_power_le (binade y + 1) (binade x) ltac:(lia)). lra.
Qed.

Lemma nearest_even_floor (x : Q) :
  (Qfloor x <= nearest_even x <= Qfloor x + 1)%Z.
Proof.
  unfold nearest_even. destruct (Qcompare _ _); [destruct (Z.even _)| |]; lia.
Qed.

Lemma nearest_even_mono (x y : Q) : x <= y -> (nearest_even x <= nearest_even y)%Z.
Proof.
  intros Hxy. pose proof (Qfloor_resp_le x y Hxy) as Hf.
  destruct (Z.eq_dec (Qfloor x) (Qfloor y)) as [E|E].
  - unfold nearest_even. rewrite <- E.
    destruct (Qcompare_spec (x - inject_Z (Qfloor x)) (1 # 2)) as [Hx|Hx|Hx];
    destruct (Qcompare_spec (y - inject_Z (Qfloor x)) (1 # 2)) as [Hy|Hy|Hy];
      try destruct (Z.even (Qfloor x)); try lia; exfalso; lra.
  - pose proof (nearest_even_floor x). pose proof (nearest_even_floor y). lia.
Qed.

Lemma nearest_even_Z (z : Z) : nearest_even (inject_Z z) = z.
Proof.
  unfold nearest_even. rewrite Qfloor_Z.
  destruct (Qcompare_spec (inject_Z z - inject_Z z) (1 # 2)) as [H|H|H];
    [exfalso; lra|reflexivity|exfalso; lra].
Qed.

Lemma round64_pos_bounds (x : Q) :
  0 < x -> 2 ^ binade x <= round64_pos x <= 2 ^ (binade x + 1).
Proof.
  intros Hx. destruct (binade_spec x Hx) as [H1 H2]. unfold round64_pos.
  set (b := binade x) in *. set (u := 2 ^ (b - 52)).
  assert (Hu : 0 < u) by apply two_power_pos.
  assert (Elo : 2 ^ b == inject_Z (2 ^ 52) * u).
  { unfold u. rewrite Zpower_Qpower by lia. rewrite <- Qpower_plus by discriminate.
    replace (52 + (b - 52))%Z with b by lia. reflexivity. }
  assert (Ehi : 2 ^ (b + 1) == inject_Z (2 ^ 53) * u).
  { unfold u. rewrite Zpower_Qpower by lia. rewrite <- Qpower_plus by discriminate.
    replace (53 + (b - 52))%Z with (b + 1)%Z by lia. reflexivity. }
  rewrite Elo, Ehi. rewrite Elo in H1. rewrite Ehi in H2.
  assert (Hlo : inject_Z (2 ^ 52) <= x / u) by (apply Qle_shift_div_l; lra).
  assert (Hhi : x / u <= inject_Z (2 ^ 53)).
  { apply Qle_shift_div_r; [exact Hu|]. lra. }
  apply nearest_even_mono in Hlo, Hhi. rewrite nearest_even_Z in Hlo, Hhi.
  rewrite Zle_Qle in Hlo, Hhi. split; nra.
Qed.

Lemma round64_pos_mono (x y : Q) :
  0 < x -> x <= y -> round64_pos x <= round64_pos y.
Proof.
  intros Hx Hxy. pose proof (binade_mono x y Hx Hxy) as Hb.
  destruct (Z.eq_dec (binade x) (binade y)) as [E|E].
  - unfold round64_pos. rewrite <- E. set (u := 2 ^ (binade x - 52)).
    assert (Hu : 0 < u) by apply two_power_pos.
    assert (H : x / u <= y / u).
    { apply Qle_shift_div_l; [exact Hu|].
      assert (Ex : x / u * u == x) by (field; lra). lra. }
    apply nearest_even_mono in H. rewrite Zle_Qle in H. nra.
  - destruct (round64_pos_bounds x Hx) as [_ H1].
    destruct (round64_pos_bounds y ltac:(lra)) as [H2 _].
    pose proof (two_power_le (binade x + 1) (binade y) ltac:(lia)). lra.
Qed.

Lemma round64_pos_positive (x : Q) : 0 < x -> 0 < round64_pos x.
Proof.
  intros Hx. destruct (round64_pos_bounds x Hx) as [H _].
  pose proof (two_power_pos (binade x)). lra.
Qed.

Lemma Qnum_sign (x : Q) :
  match Qnum x with Z0 => x == 0 | Zpos _ => 0 < x | Zneg _ => x < 0 end.
Proof. destruct x as [[|p|p] d]; unfold Qeq, Qlt; cbn; lia. Qed.

Lemma round64_mono (x y : Q) : x <= y -> round64 x <= round64 y.
Proof.
  intros Hxy. unfold round64.
  pose proof (Qnum_sign x) as Sx. pose proof (Qnum_sign y) as Sy.
  pose proof (Qnum_sign (- x)) as Snx. pose proof (Qnum_sign (- y)) as Sny.
  destruct (Qnum x) eqn:Ex, (Qnum y) eqn:Ey; try lra.
  - pose proof (round64_pos_positive y Sy). lra.
  - now apply round64_pos_mono.
  - pose proof (round64_pos_positive (- x) ltac:(lra)). lra.
  - pose proof (round64_pos_positive (- x) ltac:(lra)).
    pose proof (round64_pos_positive y Sy). lra.
  - pose proof (round64_pos_mono (- y) (- x) ltac:(lra) ltac:(lra)). lra.
Qed.

Lemma Math_round_mono (x y : Q) : x <= y -> (Math_round x <= Math_round y)%Z.
Proof. intros H. apply Qfloor_resp_le. lra. Qed.

(** Dividing by a positive number and multiplying by one that is not
    negative keep the order, also after rounding. *)
Lemma scaled_mono (d1 d2 total scale : Z) :
  (0 < total)%Z -> (0 <= scale)%Z -> (d1 <= d2)%Z ->
  (Math_round (mul (div d1 total) scale) <= Math_round (mul (div d2 total) scale))%Z.
Proof.
  intros Ht Hs Hd. unfold mul, div.
  apply Math_round_mono, round64_mono.
  assert (H : inject_Z d1 / inject_Z total <= inject_Z d2 / inject_Z total).
  { rewrite Zlt_Qlt in Ht. rewrite Zle_Qle in Hd.
    change (inject_Z 0) with 0 in Ht.
    apply Qle_shift_div_l; [exact Ht|].
    assert (E : inject_Z d1 / inject_Z total * inject_Z total == inject_Z d1)
      by (field; lra).
    lra. }
  apply round64_mono in H. rewrite Zle_Qle in Hs.
  change (inject_Z 0) with 0 in Hs. nra.
Qed.

(** The double nearest to one tenth, and two products that a double
    brings below the half an exact ratio would reach. *)
Example one_tenth :
  Qreduction.Qred (div 1 10) = 3602879701896397 # 36028797018963968.
Proof. reflexivity. Qed.

Example halves_missed :
  Math_round (mul (div 11 30) 75) = 27%Z /\
  Math_round (mul (div 7 20) 90) = 31%Z /\
  Math_round (mul (div 1 2) 75) = 38%Z.
Proof. repeat split; reflexivity. Qed.

End IeeeSpec.

(** ** The streaming progress reconciler *)

Module ReconcilerSpec.
Import Analysis Reconciler.

Local Open Scope Z_scope.

Ltac open_state st :=
  destruct st as [[ar te ld aj pct msg pu] [fin ec cl sf tos]].

(** C2. An [error] event finalizes the operation only when the connection
    is closed: with any other ready state (reconnecting included) nothing a
    finalize writes changes, and on an unfinished operation an [error] with
    the connection closed is a finalize without payload. *)
Theorem error_finalizes_only_when_closed (k : Stream) (st : State)
    (rs : ReadyState) :
  (rs <> CLOSED -> not_finalized st (handle k st (Error rs))) /\
  (rs = CLOSED -> finished (op st) = false ->
     handle k st (Error rs) = resetSafety (finalize k None st) /\
     finished (op (handle k st (Error rs))) = true /\
     closed (op (handle k st (Error rs))) = S (closed (op st)) /\
     timeouts (op (handle k st (Error rs))) = (timeouts (op st) ++ [ResetProgress])%list).
Proof.
  open_state st. split.
  - intros Hrs. unfold not_finalized.
    destruct k, rs, fin; try congruence; cbn; repeat split; reflexivity.
  - intros -> Hfin. cbn in Hfin. subst fin.
    destruct k; cbn; repeat split; reflexivity.
Qed.

Lemma error_finalizes_only_when_closed_witness :
  not_finalized (begin AnalyzeGit) (handle AnalyzeGit (begin AnalyzeGit) (Error CONNECTING)) /\
  finished (op (handle AnalyzeLocal (begin AnalyzeLocal) (Error CLOSED))) = true.
Proof.
  split.
  - apply (proj1 (error_finalizes_only_when_closed AnalyzeGit (begin AnalyzeGit) CONNECTING)).
    discriminate.
  - apply (proj2 (error_finalizes_only_when_closed AnalyzeLocal (begin AnalyzeLocal) CLOSED)
             eq_refl eq_refl).
Defined.

(** Scenario: an [error] while reconnecting, then one with the connection
    closed. *)
Example reconnect_then_closed :
  let st1 := handle AnalyzeLocal (begin AnalyzeLocal) (Error CONNECTING) in
  let st2 := handle AnalyzeLocal st1 (Error CLOSED) in
  finished (op st1) = false /\ progressMsg (page st1) = "reconnecting..."%string /\
  finished (op st2) = true /\ pushed (page st2) = [] /\
  analysisResult (page st2) = None.
Proof. cbn. repeat split; reflexivity. Qed.

(** *** The percent of a [scanning] event *)

Lemma round_scaled_mono (d1 d2 total scale : Z) :
  0 < total -> 0 <= scale -> d1 <= d2 ->
  round_scaled d1 total scale <= round_scaled d2 total scale.
Proof.
  intros Ht Hs Hd. unfold round_scaled. now apply IeeeSpec.scaled_mono.
Qed.

Lemma scanningPct_mono (k : Stream) (total d1 d2 : Z) :
  d1 <= d2 -> scanningPct k d1 total <= scanningPct k d2 total.
Proof.
  intros Hd. unfold scanningPct.
  destruct k; destruct (Z.ltb_spec 0 total) as [Ht|Ht]; try lia.
  - pose proof (round_scaled_mono d1 d2 total 75 Ht ltac:(lia) Hd). lia.
  - pose proof (round_scaled_mono d1 d2 total 90 Ht ltac:(lia) Hd). lia.
Qed.

Lemma scanningPct_ceiling (k : Stream) (d total : Z) : scanningPct k d total <= 90.
Proof.
  unfold scanningPct. destruct k; destruct (0 <? total); lia.
Qed.

(** *** What holds along every stream of events *)

Lemma redirects_app (l1 l2 : list Callback) :
  redirects (l1 ++ l2) = (redirects l1 + redirects l2)%nat.
Proof. unfold redirects. now rewrite List.filter_app, List.length_app. Qed.

Lemma redirects_delete (l : list Callback) (n : nat) (cb : Callback) :
  l !! n = Some cb ->
  (redirects (delete n l) + (if is_redirect cb then 1 else 0))%nat = redirects l.
Proof.
  revert n. induction l as [|c l IH]; intros [|n] H; try discriminate.
  - injection H as ->. unfold redirects. cbn.
    destruct (is_redirect cb); cbn; lia.
  - simpl in H. specialize (IH n H). unfold redirects in *. simpl.
    destruct (is_redirect c); simpl; lia.
Qed.

Lemma begin_consistent (k : Stream) : consistent (begin k).
Proof. destruct k; cbn; repeat split; lia. Qed.

Local Arguments scanningPct : simpl never.
Local Arguments redirects : simpl never.
Local Arguments derivedEntries : simpl never.
Local Arguments Js.show : simpl never.
Local Arguments Js.or_else : simpl never.
Local Arguments Js.truthy : simpl never.
Local Arguments String.append : simpl never.

Ltac finish_consistent :=
  repeat split; cbn in *; subst; unfold redirects; cbn;
  try reflexivity; try lia; try congruence.

Lemma fire_consistent (st : State) (n : nat) (cb : Callback) :
  consistent st -> timeouts (op st) !! n = Some cb ->
  consistent (fire cb (set_timeouts (delete n (timeouts (op st))) st)).
Proof.
  open_state st. unfold consistent. cbn. intros H Hn.
  destruct fin.
  - destruct H as [Hc Hr]. pose proof (redirects_delete _ _ _ Hn) as Hd.
    destruct cb as [t|]; cbn [is_redirect] in Hd; unfold fire.
    + destruct (Js.truthy t); cbn; rewrite redirects_app;
        change (redirects [ResetProgress]) with 0%nat; split; lia.
    + cbn. split; lia.
  - destruct H as (_ & -> & _). discriminate.
Qed.

Lemma handle_consistent (k : Stream) (st : State) (ev : Event) :
  consistent st -> consistent (handle k st ev).
Proof.
  intros H.
  destruct ev as [| |rs|name data| | |n].
  7:{ destruct k; cbn; destruct (timeouts (op st) !! n) eqn:E; auto using fire_consistent. }
  all: open_state st; unfold consistent in *; cbn in H.
  all: try destruct rs; try destruct name; try (destruct data as [[|d]|]).
  all: destruct k, fin; cbn; try exact H.
  all: try (destruct H as (-> & -> & -> & Hp)).
  all: try solve [finish_consistent].
  all: try solve [destruct sf; cbn; first [exact H | finish_consistent]].
  all: try solve [pose proof (scanningPct_ceiling AnalyzeLocal (num (Reconciler.done d)) (num (total d)));
                  pose proof (scanningPct_ceiling AnalyzeGit (num (Reconciler.done d)) (num (total d)));
                  pose proof (scanningPct_ceiling AnalyzeLocal 0 0);
                  pose proof (scanningPct_ceiling AnalyzeGit 0 0);
                  finish_consistent].
  all: destruct (derivedEntries _); cbn; finish_consistent.
Qed.

Lemma run_consistent (k : Stream) (evs : list Event) (st : State) :
  consistent st -> consistent (run k st evs).
Proof.
  revert st. induction evs as [|ev evs IH]; intros st H; [exact H|].
  cbn. apply IH, handle_consistent, H.
Qed.

(** *** One finalize per operation *)

Lemma stalled_stream_not_finalized :
  let st := run AnalyzeGit (begin AnalyzeGit) stalled in
  finished (op st) = false /\ closed (op st) = 0%nat /\
  safetyTimer (op st) = false /\ timeouts (op st) = [] /\
  loading (page st) = true /\ progressMsg (page st) = "still working..."%string.
Proof. cbn. repeat split; reflexivity. Qed.

Lemma nonterminal_step (k : Stream) (st : State) (ev : Event) :
  nonterminal ev ->
  finished (op (handle k st ev)) = finished (op st) /\
  closed (op (handle k st ev)) = closed (op st).
Proof.
  intros N. open_state st.
  destruct ev as [| |rs|name data| | |n].
  7:{ destruct k; cbn; destruct (tos !! n) as [[t|]|]; cbn;
      try destruct (Js.truthy t); cbn; split; reflexivity. }
  all: try destruct rs; try destruct name; cbn in N; try tauto.
  all: try (destruct data as [[|d]|]).
  all: destruct k, fin; cbn; try solve [split; reflexivity].
  all: destruct sf; cbn; split; reflexivity.
Qed.

(** A stream of events none of which is terminal leaves the operation as
    unfinished as it was. *)
Lemma nonterminal_stream_unfinished (k : Stream) (evs : list Event) :
  forall st, Forall nonterminal evs ->
    finished (op (run k st evs)) = finished (op st) /\
    closed (op (run k st evs)) = closed (op st).
Proof.
  induction evs as [|ev evs IH]; intros st Hall; [split; reflexivity|].
  apply List.Forall_cons_iff in Hall as [Hev Hall].
  change (run k st (ev :: evs)) with (run k (handle k st ev) evs).
  destruct (IH (handle k st ev) Hall) as [-> ->].
  now apply nonterminal_step.
Qed.

(** The two operations that listen on an [EventSource]: [finalize] on a
    finished operation returns the state as it is; a late [done], [cached] or
    [error] event and an inactivity timeout leave the page (progress, result,
    navigation) and the pending timers of a finished operation untouched;
    over every stream the [EventSource] is closed at most once, exactly when
    the operation is finished, and at most one navigation is made; a [done]
    event and an [error] with the connection closed finalize an unfinished
    operation; no event that is not terminal does. *)
Lemma finalize_at_most_once (k : Stream) :
  (forall data st, finished (op st) = true -> finalize k data st = st) /\
  (forall st ev, finished (op st) = true -> late ev ->
     page (handle k st ev) = page st /\
     timeouts (op (handle k st ev)) = timeouts (op st) /\
     closed (op (handle k st ev)) = closed (op st) /\
     finished (op (handle k st ev)) = true) /\
  (forall evs,
     (closed (op (run k (begin k) evs)) <= 1)%nat /\
     (length (pushed (page (run k (begin k) evs))) <= 1)%nat /\
     (finished (op (run k (begin k) evs)) = true <->
      closed (op (run k (begin k) evs)) = 1%nat)) /\
  (forall st data, finished (op st) = false ->
     finished (op (handle k st (Named done_ data))) = true /\
     closed (op (handle k st (Named done_ data))) = S (closed (op st))) /\
  (forall st, finished (op st) = false ->
     finished (op (handle k st (Error CLOSED))) = true /\
     closed (op (handle k st (Error CLOSED))) = S (closed (op st))) /\
  (forall st ev, nonterminal ev ->
     finished (op (handle k st ev)) = finished (op st) /\
     closed (op (handle k st ev)) = closed (op st)).
Proof.
  repeat apply conj.
  - intros data st H. unfold finalize. now rewrite H.
  - intros st ev H L. open_state st. cbn in H. subst fin.
    destruct ev as [| |rs|name data| | |n]; try destruct name; try contradiction.
    all: destruct k; cbn; try solve [repeat split; reflexivity].
    all: destruct sf; cbn; repeat split; reflexivity.
  - intros evs.
    pose proof (run_consistent k evs (begin k) (begin_consistent k)) as H.
    unfold consistent in H.
    destruct (finished (op (run k (begin k) evs))).
    + destruct H as [-> H]. split; [lia|]. split; [lia|]. tauto.
    + destruct H as (-> & _ & -> & _). cbn. split; [lia|]. split; [lia|].
      split; discriminate.
  - intros st data H. open_state st. cbn in H. subst fin.
    destruct k, data as [[|d]|]; cbn; try solve [split; reflexivity].
    all: destruct (derivedEntries _); cbn; split; reflexivity.
  - intros st H. open_state st. cbn in H. subst fin.
    destruct k; cbn; split; reflexivity.
  - intros st ev. apply nonterminal_step.
Qed.

Lemma finalize_at_most_once_witness :
  let st := run AnalyzeLocal (begin AnalyzeLocal)
              [Named done_ (payload versioned); Timeout 0] in
  finalize AnalyzeLocal None st = st /\
  page (handle AnalyzeLocal st (Error CLOSED)) = page st /\
  pushed (page st) = [FindingsVersion "v1"].
Proof.
  cbv zeta. split; [|split].
  - apply (proj1 (finalize_at_most_once AnalyzeLocal)). reflexivity.
  - apply (proj1 (proj2 (finalize_at_most_once AnalyzeLocal)) _ (Error CLOSED));
      [reflexivity|exact I].
  - reflexivity.
Defined.

(** The [cached] listener logs a payload that does not parse and goes on;
    the [done] listener finalizes without payload. *)
Example unparsed_cached_and_done :
  finished (op (handle AnalyzeGit (begin AnalyzeGit) (Named cached None))) = false /\
  finished (op (handle AnalyzeGit (begin AnalyzeGit) (Named done_ None))) = true.
Proof. split; reflexivity. Qed.

(** *** The displayed percent *)

(** Scenario: [start] with a total of 10, five [scanning] events, [done]. *)
Example ten_files_percents :
  percents AnalyzeLocal (begin AnalyzeLocal) ten_files = [10; 25; 40; 55; 70; 85; 100] /\
  percents AnalyzeGit (begin AnalyzeGit) ten_files = [1; 18; 36; 54; 72; 90; 100].
Proof. split; reflexivity. Qed.

(** The product is a double: 11 of 30 files show 37 and not 38 in a local
    scan, 7 of 20 show 31 and not 32 in a git scan. *)
Example scanning_percent_of_doubles :
  scanningPct AnalyzeLocal 11 30 = 37 /\ scanningPct AnalyzeGit 7 20 = 31 /\
  scanningPct AnalyzeLocal 5 10 = 48 /\ scanningPct AnalyzeGit 30 20 = 90.
Proof. repeat split; reflexivity. Qed.

(** An [error] on a closed connection shows 100 although no [done] event
    was ever processed. *)
Lemma full_percent_without_done :
  let evs := [Open; Named start (progress 0 10); Named scanning (progress 2 10);
              Error CLOSED] in
  percents AnalyzeLocal (begin AnalyzeLocal) evs = [2; 10; 25; 100] /\
  analysisResult (page (run AnalyzeLocal (begin AnalyzeLocal) evs)) = None.
Proof. split; reflexivity. Qed.

(** The bar of the overlay is full exactly when the percent is 100, and it
    grows with the percent. *)
Lemma overlayWidth_full (p : Page) :
  overlayWidth p = 100 <-> progressPct p = 100.
Proof. unfold overlayWidth. destruct (loading p); lia. Qed.

Lemma overlayWidth_mono (p q : Page) :
  loading p = loading q -> progressPct p <= progressPct q ->
  overlayWidth p <= overlayWidth q.
Proof. unfold overlayWidth. intros ->. destruct (loading q); lia. Qed.

(** C8, amended. The percent of a [scanning] event is monotone in [done]
    for a constant [total] and never above the ceiling of 90; a [scanning]
    event displays exactly that percent (or leaves the display alone when
    its payload does not parse); and along every stream the display shows
    100 only once the operation has been finalized. *)
Theorem scanning_percent_monotone_capped (k : Stream) :
  (forall total d1 d2, d1 <= d2 -> scanningPct k d1 total <= scanningPct k d2 total) /\
  (forall d total, scanningPct k d total <= 90) /\
  (forall st d,
     progressPct (page (handle k st (Named scanning (Some d))))
       = scanningPct k (num (field Reconciler.done d)) (num (field total d))) /\
  (forall st,
     progressPct (page (handle k st (Named scanning None))) = progressPct (page st)) /\
  (forall evs, progressPct (page (run k (begin k) evs)) = 100 ->
     finished (op (run k (begin k) evs)) = true).
Proof.
  repeat apply conj.
  - intros total d1 d2. apply scanningPct_mono.
  - apply scanningPct_ceiling.
  - intros st d. destruct k; reflexivity.
  - intros st. destruct k; reflexivity.
  - intros evs Hp.
    pose proof (run_consistent k evs (begin k) (begin_consistent k)) as H.
    unfold consistent in H.
    destruct (finished (op (run k (begin k) evs))); [reflexivity|].
    destruct H as (_ & _ & _ & H). lia.
Qed.

Lemma scanning_percent_monotone_capped_witness :
  scanningPct AnalyzeLocal 4 10 <= scanningPct AnalyzeLocal 15 10 /\
  finished (op (run AnalyzeGit (begin AnalyzeGit) ten_files)) = true.
Proof.
  split.
  - apply (proj1 (scanning_percent_monotone_capped AnalyzeLocal)). lia.
  - apply (proj2 (proj2 (proj2 (proj2 (scanning_percent_monotone_capped AnalyzeGit))))).
    reflexivity.
Defined.

End ReconcilerSpec.

(** ** Directory trees *)

Module TreeSpec.
Import Tree.

Local Open Scope Z_scope.

(** *** Strings *)

Lemma append_inj_l (s a b : string) : s +:+ a = s +:+ b -> a = b.
Proof. induction s as [|c s IH]; cbn; intros H; [exact H|]. injection H. exact IH. Qed.

Lemma join_inj (agg a b : string) : join agg a = join agg b -> a = b.
Proof.
  unfold join. destruct (String.eqb agg ""); [trivial|].
  intros H. apply append_inj_l in H. now apply (append_inj_l "/") in H.
Qed.

Lemma join_nonempty (agg seg : string) : seg <> ""%string -> join agg seg <> ""%string.
Proof.
  unfold join. destruct (String.eqb_spec agg "") as [->|Hne]; [trivial|].
  intros _. destruct agg; [congruence|discriminate].
Qed.

Lemma parts_of_nonempty (p : string) : Forall (fun s => s <> ""%string) (parts_of p).
Proof.
  unfold parts_of. apply List.Forall_forall. intros s [_ H]%List.filter_In.
  intros ->. discriminate.
Qed.

(** *** Well-formed forests *)

Lemma wf_app agg i (F G : list TreeNode) :
  wf agg i (F ++ G) <-> wf agg i F /\ wf agg i G.
Proof.
  split.
  - induction F as [|n F IH]; cbn; intros H.
    + split; [constructor|exact H].
    + inversion H; subst; destruct (IH ltac:(assumption)); split; trivial;
        constructor; assumption.
  - intros [HF HG]. induction HF; cbn; try constructor; auto.
Qed.

Lemma wf_one_inv agg i (n : TreeNode) :
  wf agg i [n] ->
  n_name n <> ""%string /\ n_path n = join agg (n_name n) /\ n_level n = i /\
  match n_type n with
  | file => n_children n = None
  | folder => exists cs, n_children n = Some cs /\ wf (n_path n) (i + 1) cs
  end.
Proof.
  intros H. inversion H; subst; cbn; repeat split; eauto.
Qed.

Lemma wf_cons agg i (n : TreeNode) (F : list TreeNode) :
  wf agg i (n :: F) <-> wf agg i [n] /\ wf agg i F.
Proof. apply (wf_app agg i [n] F). Qed.

Lemma wf_fresh agg i seg rest :
  seg <> ""%string -> wf agg i [fresh agg i seg rest].
Proof.
  intros H. unfold fresh. destruct (is_last rest); cbn; repeat constructor; exact H.
Qed.

Lemma wf_set_children agg i (n : TreeNode) (cs : list TreeNode) :
  wf agg i [n] -> n_type n = folder -> wf (n_path n) (i + 1) cs ->
  wf agg i [set_children n (Some cs)].
Proof.
  intros H Ht Hcs. inversion H; subst; cbn in *; try discriminate.
  constructor; [assumption|assumption|constructor].
Qed.

(** *** [locate] and [addUnique] *)

Lemma locate_Some node arr l e r :
  locate node arr = Some (l, e, r) ->
  arr = (l ++ e :: r)%list /\ same_key node e = true /\
  Forall (fun n => same_key node n = false) l.
Proof.
  revert l. induction arr as [|n arr IH]; cbn; intros l H; [discriminate|].
  destruct (same_key node n) eqn:E.
  - injection H as <- <- <-. repeat split; [exact E|constructor].
  - destruct (locate node arr) as [[[l' e'] r']|]; [|discriminate].
    injection H as <- <- <-. destruct (IH l' eq_refl) as (-> & ? & ?).
    repeat split; [assumption|]. constructor; assumption.
Qed.

Lemma locate_None node arr :
  locate node arr = None -> Forall (fun n => same_key node n = false) arr.
Proof.
  induction arr as [|n arr IH]; cbn; intros H; [constructor|].
  destruct (same_key node n) eqn:E; [discriminate|].
  destruct (locate node arr) as [[[l' e'] r']|]; [discriminate|].
  constructor; auto.
Qed.

Lemma same_key_spec (node n : TreeNode) :
  same_key node n = true <-> n_path n = n_path node /\ n_type n = n_type node.
Proof.
  unfold same_key. rewrite andb_true_iff, String.eqb_eq.
  destruct (n_type n), (n_type node); cbn; intuition congruence.
Qed.

(** What [addUnique] returns on a well-formed array. *)
Lemma addUnique_wf agg i seg rest arr l added r :
  wf agg i arr -> seg <> ""%string ->
  addUnique arr (fresh agg i seg rest) = (l, added, r) ->
  wf agg i l /\ wf agg i [added] /\ wf agg i r /\
  n_name added = seg /\ n_type added = is_last rest /\
  Forall (fun n => same_key (fresh agg i seg rest) n = false) l /\
  (arr = (l ++ added :: r)%list \/
   (arr = l /\ r = [] /\ added = fresh agg i seg rest)).
Proof.
  intros Hwf Hseg. unfold addUnique.
  destruct (locate _ arr) as [[[l' e] r']|] eqn:E; intros H; injection H as <- <- <-.
  - apply locate_Some in E as (-> & Hk & Hl).
    apply wf_app in Hwf as [Hl' Her]. apply wf_cons in Her as [He Hr'].
    apply same_key_spec in Hk as [Hp Ht]. cbn in Hp, Ht.
    destruct (wf_one_inv _ _ _ He) as (_ & Hpath & _).
    rewrite Hpath in Hp. apply join_inj in Hp.
    repeat split; auto.
  - apply locate_None in E.
    repeat split; auto using wf_fresh, wf_nil.
Qed.

(** *** The loop of [buildTree] on the entries of a path *)

Lemma unwind_below (i : Z) (stack : list Frame) (focus : list TreeNode) :
  Forall (fun fr => n_level (fr_node fr) < i) stack ->
  unwind i stack focus = (stack, focus).
Proof.
  intros H. destruct H as [|fr stack Hfr _]; cbn; [reflexivity|].
  destruct (Z.leb_spec i (n_level (fr_node fr))); [lia|reflexivity].
Qed.

Lemma unwind_all (stack : list Frame) (focus : list TreeNode) :
  Forall (fun fr => 0 <= n_level (fr_node fr)) stack ->
  unwind 0 stack focus = ([], rewind stack focus).
Proof.
  intros H. revert focus. induction H as [|fr stack Hfr _ IH]; intros focus; cbn.
  - reflexivity.
  - destruct (Z.leb_spec 0 (n_level (fr_node fr))); [apply IH|lia].
Qed.

Lemma wf_insertE (parts : list string) :
  forall agg i arr,
    Forall (fun s => s <> ""%string) parts -> wf agg i arr ->
    wf agg i (insertE agg i parts arr).
Proof.
  induction parts as [|seg rest IH]; intros agg i arr Hne Hwf; [exact Hwf|].
  inversion Hne as [|? ? Hseg Hrest]; subst. cbn [insertE].
  destruct (addUnique arr (fresh agg i seg rest)) as [[l added] r] eqn:E.
  destruct (addUnique_wf _ _ _ _ _ _ _ _ Hwf Hseg E)
    as (Hl & Ha & Hr & Hn & Ht & _ & _).
  destruct (is_last rest) eqn:El.
  - apply wf_app. split; [exact Hl|]. apply wf_cons. split; [|exact Hr].
    destruct (wf_one_inv _ _ _ Ha) as (_ & Hp & _ & Hk). rewrite Ht in Hk.
    destruct Hk as (cs & Hcs & Hwcs).
    apply wf_set_children; [exact Ha|exact Ht|].
    rewrite Hp, Hn. apply IH; [exact Hrest|].
    unfold children_or_empty. rewrite Hcs. rewrite Hp, Hn in Hwcs. exact Hwcs.
  - apply wf_app. split; [exact Hl|]. apply wf_cons. split; assumption.
Qed.

Lemma step_at agg i seg rest stack focus l added r :
  Forall (fun fr => n_level (fr_node fr) < i) stack ->
  addUnique focus (fresh agg i seg rest) = (l, added, r) ->
  step addUnique (stack, focus)
    {| type := is_last rest; name := seg; path := join agg seg; level := i;
       supported := Some true |}
  = match is_last rest with
    | folder =>
        ({| fr_node := added; fr_left := l; fr_right := r |} :: stack,
         children_or_empty added)
    | file => (stack, (l ++ added :: r)%list)
    end.
Proof.
  intros Hst E. unfold step. cbn [fst snd level type].
  rewrite unwind_below by exact Hst.
  change (node_of _) with (fresh agg i seg rest). rewrite E. reflexivity.
Qed.

(** From a cursor whose open folders all lie above level [i], the entries
    of [parts] are inserted into the focus. *)
Lemma descend (parts : list string) :
  forall agg i stack focus,
    Forall (fun s => s <> ""%string) parts -> wf agg i focus -> 0 <= i ->
    Forall (fun fr => 0 <= n_level (fr_node fr) < i) stack ->
    let cur := fold_left (step addUnique) (entriesOfParts agg i parts) (stack, focus) in
    rewind (fst cur) (snd cur) = rewind stack (insertE agg i parts focus) /\
    Forall (fun fr => 0 <= n_level (fr_node fr)) (fst cur).
Proof.
  induction parts as [|seg rest IH]; intros agg i stack focus Hne Hwf Hi Hst.
  - cbn. split; [reflexivity|].
    eapply List.Forall_impl; [|exact Hst]. cbn. intros; lia.
  - inversion Hne as [|? ? Hseg Hrest]; subst.
    cbn [entriesOfParts fold_left insertE].
    change (if String.eqb agg "" then seg else agg +:+ "/" +:+ seg)
      with (join agg seg).
    destruct (addUnique focus (fresh agg i seg rest)) as [[l added] r] eqn:E.
    assert (Forall (fun fr => n_level (fr_node fr) < i) stack) as Hbelow
      by (eapply List.Forall_impl; [|exact Hst]; cbn; intros; lia).
    rewrite (step_at _ _ _ _ _ _ _ _ _ Hbelow E).
    destruct (addUnique_wf _ _ _ _ _ _ _ _ Hwf Hseg E)
      as (Hl & Ha & Hr & Hn & Ht & _ & _).
    destruct (wf_one_inv _ _ _ Ha) as (_ & Hp & Hlv & Hk). rewrite Ht in Hk.
    destruct (is_last rest) eqn:El.
    + destruct Hk as (cs & Hcs & Hwcs).
      assert (children_or_empty added = cs) as Hc
        by (unfold children_or_empty; now rewrite Hcs).
      rewrite Hp, Hn in Hwcs.
      specialize (IH (join agg seg) (i + 1)
                    ({| fr_node := added; fr_left := l; fr_right := r |} :: stack)
                    (children_or_empty added) Hrest).
      rewrite Hc in IH |- *.
      destruct IH as [IH1 IH2]; [exact Hwcs|lia| |].
      { constructor; [cbn; lia|].
        eapply List.Forall_impl; [|exact Hst]. cbn. intros; lia. }
      split; [|exact IH2]. rewrite IH1. reflexivity.
    + destruct rest; [|discriminate]. cbn. split; [reflexivity|].
      eapply List.Forall_impl; [|exact Hst]. cbn. intros; lia.
Qed.

(** One whole path, from any cursor the loop can be in. *)
Lemma run_path (parts : list string) (stack : list Frame) (focus : list TreeNode) :
  Forall (fun s => s <> ""%string) parts ->
  Forall (fun fr => 0 <= n_level (fr_node fr)) stack ->
  wf "" 0 (rewind stack focus) ->
  let cur := fold_left (step addUnique) (entriesOfParts "" 0 parts) (stack, focus) in
  rewind (fst cur) (snd cur) = insertE "" 0 parts (rewind stack focus) /\
  Forall (fun fr => 0 <= n_level (fr_node fr)) (fst cur).
Proof.
  intros Hne Hst Hwf. destruct parts as [|seg rest].
  - cbn. split; [reflexivity|exact Hst].
  - assert (fold_left (step addUnique) (entriesOfParts "" 0 (seg :: rest)) (stack, focus)
            = fold_left (step addUnique) (entriesOfParts "" 0 (seg :: rest))
                ([], rewind stack focus)) as ->.
    { cbn [entriesOfParts fold_left]. f_equal.
      unfold step. cbn [fst snd level]. rewrite unwind_all by exact Hst.
      reflexivity. }
    apply (descend (seg :: rest) "" 0 [] (rewind stack focus) Hne Hwf);
      [lia|constructor].
Qed.

Lemma wf_insertPaths (paths : list string) :
  forall arr, wf "" 0 arr -> wf "" 0 (insertPaths paths arr).
Proof.
  induction paths as [|p paths IH]; intros arr H; [exact H|].
  cbn. apply IH, wf_insertE; [apply parts_of_nonempty|exact H].
Qed.

Lemma run_paths (paths : list string) :
  forall stack focus,
    Forall (fun fr => 0 <= n_level (fr_node fr)) stack ->
    wf "" 0 (rewind stack focus) ->
    let cur := fold_left (step addUnique) (entriesOfPaths paths) (stack, focus) in
    rewind (fst cur) (snd cur) = insertPaths paths (rewind stack focus).
Proof.
  induction paths as [|p paths IH]; intros stack focus Hst Hwf; [reflexivity|].
  unfold entriesOfPaths. cbn [flat_map]. rewrite fold_left_app.
  destruct (run_path (parts_of p) stack focus (parts_of_nonempty p) Hst Hwf)
    as [H1 H2].
  destruct (fold_left (step addUnique) (entriesOfParts "" 0 (parts_of p)) (stack, focus))
    as [stack' focus'] eqn:E.
  cbn [fst snd] in H1, H2.
  specialize (IH stack' focus' H2).
  rewrite H1 in IH. cbn [insertPaths fold_left].
  apply IH, wf_insertE; [apply parts_of_nonempty|exact Hwf].
Qed.

(** [buildTree] on the entries derived from a list of paths inserts the
    paths one after the other. *)
Lemma buildTree_insertPaths (paths : list string) :
  buildTree (entriesOfPaths paths) = insertPaths paths [].
Proof.
  unfold buildTree, build.
  apply (run_paths paths [] []); constructor.
Qed.

(** *** Distinct names *)

Lemma distinct_NoDup {A} (eqb : A -> A -> bool) (l : list A) :
  (forall a b, eqb a b = true <-> a = b) ->
  distinct eqb l = true <-> List.NoDup l.
Proof.
  intros Heqb. induction l as [|x l IH]; cbn.
  - split; [constructor|reflexivity].
  - rewrite andb_true_iff, negb_true_iff, IH, List.NoDup_cons_iff.
    assert (existsb (eqb x) l = false <-> ~ In x l) as ->; [|reflexivity].
    rewrite <- not_true_iff_false, existsb_exists.
    split; intros H C; apply H.
    + exists x. split; [exact C|now apply Heqb].
    + destruct C as (y & Hy & ->%Heqb). exact Hy.
Qed.

Lemma names_distinct_NoDup (arr : list TreeNode) :
  names_distinct arr = true <-> List.NoDup (map n_name arr).
Proof. apply distinct_NoDup, String.eqb_eq. Qed.

Lemma names_ok_unfold (arr : list TreeNode) :
  names_ok arr = true <->
  List.NoDup (map n_name arr) /\
  Forall (fun n => every_array names_distinct n = true) arr.
Proof.
  unfold names_ok, every_array_of.
  rewrite andb_true_iff, names_distinct_NoDup, forallb_forall, List.Forall_forall.
  reflexivity.
Qed.

Lemma every_array_folder ok name path level sup cs :
  every_array ok (mkTreeNode name path folder level sup (Some cs)) = true <->
  every_array_of ok cs = true.
Proof. reflexivity. Qed.

Lemma names_middle (l r : list TreeNode) (x : TreeNode) :
  List.NoDup (map n_name (l ++ x :: r)) ->
  Forall (fun n => n_name n <> n_name x) l.
Proof.
  rewrite List.map_app. cbn [map]. intros H.
  apply List.NoDup_remove_2 in H.
  apply List.Forall_forall. intros n Hn E. apply H, List.in_or_app. left.
  rewrite <- E. now apply List.in_map.
Qed.

(** *** The scratch objects *)

Lemma to_trie_eq (n : TreeNode) :
  to_trie n
  = (n_name n,
     mkPNode (n_name n) ("/" +:+ n_path n) (n_type n)
       (map to_trie (children_or_empty n))).
Proof. destruct n as [? ? ? ? ? [cs|]]; reflexivity. Qed.

Lemma slash_join (agg seg : string) :
  seg <> ""%string ->
  slash agg +:+ "/" +:+ seg = "/" +:+ join agg seg /\
  slash (join agg seg) = "/" +:+ join agg seg.
Proof.
  intros Hseg. split.
  - unfold slash, join. destruct (String.eqb agg ""); reflexivity.
  - unfold slash. pose proof (join_nonempty agg seg Hseg) as H.
    apply String.eqb_neq in H. now rewrite H.
Qed.

Lemma upsert_found k fresh f (l r : list (string * PNode)) v :
  Forall (fun kv => fst kv <> k) l ->
  upsert k fresh f (l ++ (k, v) :: r) = (l ++ (k, f v) :: r)%list.
Proof.
  induction 1 as [|[k' v'] l Hk _ IH]; cbn.
  - now rewrite String.eqb_refl.
  - cbn in Hk. apply String.eqb_neq in Hk. rewrite Hk. now rewrite IH.
Qed.

Lemma upsert_missing k fresh f (l : list (string * PNode)) :
  Forall (fun kv => fst kv <> k) l ->
  upsert k fresh f l = (l ++ [(k, f fresh)])%list.
Proof.
  induction 1 as [|[k' v'] l Hk _ IH]; cbn; [reflexivity|].
  cbn in Hk. apply String.eqb_neq in Hk. rewrite Hk. now rewrite IH.
Qed.

Lemma to_trie_keys (l : list TreeNode) (seg : string) :
  Forall (fun n => n_name n <> seg) l ->
  Forall (fun kv => fst kv <> seg) (map to_trie l).
Proof.
  intros H. apply List.Forall_map. eapply List.Forall_impl; [|exact H].
  intros n. now rewrite to_trie_eq.
Qed.

Lemma p_set_children_same (c : PNode) : p_set_children c (p_children c) = c.
Proof. now destruct c. Qed.

Lemma insertE_cons agg i seg rest arr l added r :
  addUnique arr (fresh agg i seg rest) = (l, added, r) ->
  insertE agg i (seg :: rest) arr = (l ++ grown agg i seg rest added :: r)%list.
Proof.
  intros E. cbn [insertE]. rewrite E. unfold grown.
  now destruct (is_last rest).
Qed.

Lemma grown_name agg i seg rest added :
  n_name (grown agg i seg rest added) = n_name added.
Proof. unfold grown. destruct (is_last rest), added; reflexivity. Qed.

(** Inserting a path never frees a name. *)
Lemma names_ok_insertE (parts : list string) :
  forall agg i arr,
    Forall (fun s => s <> ""%string) parts -> wf agg i arr ->
    names_ok (insertE agg i parts arr) = true -> names_ok arr = true.
Proof.
  induction parts as [|seg rest IH]; intros agg i arr Hne Hwf; [trivial|].
  inversion Hne as [|? ? Hseg Hrest]; subst.
  destruct (addUnique arr (fresh agg i seg rest)) as [[l added] r] eqn:E.
  rewrite (insertE_cons _ _ _ _ _ _ _ _ E).
  destruct (addUnique_wf _ _ _ _ _ _ _ _ Hwf Hseg E)
    as (Hl & Ha & Hr & Hn & Ht & _ & Hcase).
  rewrite !names_ok_unfold. intros [Hnd Hall].
  apply List.Forall_app in Hall as [Hall_l Hall_x].
  apply List.Forall_cons_iff in Hall_x as [Hx Hall_r].
  assert (every_array names_distinct added = true) as Hadded.
  { destruct (wf_one_inv _ _ _ Ha) as (_ & Hp & _ & Hk).
    unfold grown in Hx. rewrite Ht in Hk. destruct (is_last rest) eqn:El.
    - destruct Hk as (cs & Hcs & Hwcs).
      destruct added as [an ap aty al asup ach]. cbn in *. subst.
      eapply IH; [exact Hrest|exact Hwcs|exact Hx].
    - exact Hx. }
  destruct Hcase as [->|(-> & -> & ->)].
  - split.
    + rewrite List.map_app in Hnd |- *. cbn [map] in Hnd |- *.
      now rewrite grown_name in Hnd.
    + apply List.Forall_app. split; [exact Hall_l|]. constructor; assumption.
  - split; [|exact Hall_l].
    rewrite List.map_app in Hnd. now apply List.NoDup_app_remove_r in Hnd.
Qed.

Lemma names_ok_insertPaths (paths : list string) :
  forall arr, wf "" 0 arr ->
    names_ok (insertPaths paths arr) = true -> names_ok arr = true.
Proof.
  induction paths as [|p paths IH]; intros arr Hwf H; [exact H|].
  cbn in H. apply IH in H; [|apply wf_insertE; [apply parts_of_nonempty|exact Hwf]].
  eapply names_ok_insertE; [apply parts_of_nonempty|exact Hwf|exact H].
Qed.

(** On forests without a name used twice, inserting a path on the entry
    side is inserting it in the scratch object. *)
Lemma to_trie_insertE (parts : list string) :
  forall agg i arr,
    Forall (fun s => s <> ""%string) parts -> wf agg i arr ->
    names_ok (insertE agg i parts arr) = true ->
    map to_trie (insertE agg i parts arr)
    = insertParts (slash agg) parts (map to_trie arr).
Proof.
  induction parts as [|seg rest IH]; intros agg i arr Hne Hwf; [reflexivity|].
  inversion Hne as [|? ? Hseg Hrest]; subst.
  destruct (addUnique arr (fresh agg i seg rest)) as [[l added] r] eqn:E.
  rewrite (insertE_cons _ _ _ _ _ _ _ _ E).
  destruct (addUnique_wf _ _ _ _ _ _ _ _ Hwf Hseg E)
    as (Hl & Ha & Hr & Hn & Ht & _ & Hcase).
  intros Hok. apply names_ok_unfold in Hok as [Hnd Hall].
  pose proof (names_middle _ _ _ Hnd) as Hfree.
  rewrite grown_name, Hn in Hfree.
  apply List.Forall_app in Hall as [_ Hall_x].
  apply List.Forall_cons_iff in Hall_x as [Hx _].
  destruct (slash_join agg seg Hseg) as [Hs1 Hs2].
  destruct (wf_one_inv _ _ _ Ha) as (_ & Hp & _ & Hk). rewrite Hn in Hp.
  cbn [insertParts]. rewrite Hs1.
  (* the scratch object for the grown node *)
  assert (to_trie (grown agg i seg rest added)
          = (seg,
             p_set_children (snd (to_trie added))
               (insertParts ("/" +:+ join agg seg) rest
                  (p_children (snd (to_trie added)))))) as Hgrown.
  { rewrite (to_trie_eq added). cbn [snd p_children p_set_children].
    unfold grown in Hx |- *. rewrite Ht in Hk. destruct (is_last rest) eqn:El.
    - destruct Hk as (cs & Hcs & Hwcs).
      destruct added as [an ap aty al asup ach]. cbn in *. subst.
      rewrite <- Hs2. rewrite IH; [reflexivity|exact Hrest|exact Hwcs|exact Hx].
    - destruct rest; [|discriminate].
      rewrite to_trie_eq, Hn, Hp, Ht. reflexivity. }
  rewrite List.map_app. cbn [map]. rewrite Hgrown.
  destruct Hcase as [->|(-> & -> & ->)].
  - rewrite List.map_app. cbn [map].
    rewrite (to_trie_eq added), Hn.
    rewrite upsert_found by (apply to_trie_keys, Hfree).
    reflexivity.
  - rewrite upsert_missing by (apply to_trie_keys, Hfree).
    unfold fresh. cbn [to_trie snd p_children p_set_children].
    destruct (is_last rest); reflexivity.
Qed.

Lemma to_trie_insertPaths (paths : list string) :
  forall arr, wf "" 0 arr ->
    names_ok (insertPaths paths arr) = true ->
    map to_trie (insertPaths paths arr)
    = fold_left (fun root full => insertParts "" (parts_of full) root) paths
        (map to_trie arr).
Proof.
  induction paths as [|p paths IH]; intros arr Hwf Hok; [reflexivity|].
  change (insertPaths (p :: paths) arr)
    with (insertPaths paths (insertE "" 0 (parts_of p) arr)) in *.
  cbn [fold_left].
  assert (wf "" 0 (insertE "" 0 (parts_of p) arr)) as Hwf'
    by (apply wf_insertE; [apply parts_of_nonempty|exact Hwf]).
  rewrite (IH _ Hwf' Hok). f_equal.
  apply (to_trie_insertE (parts_of p) "" 0 arr (parts_of_nonempty p) Hwf).
  exact (names_ok_insertPaths paths _ Hwf' Hok).
Qed.

(** *** Reading the scratch object in key order *)

Lemma insert_by_map {A B} (f : A -> B) (key1 : A -> string) (key2 : B -> string)
    (x : A) (l : list A) :
  (forall a, key2 (f a) = key1 a) ->
  insert_by key2 (f x) (map f l) = map f (insert_by key1 x l).
Proof.
  intros Hk. induction l as [|y l IH]; cbn; [reflexivity|].
  rewrite !Hk. destruct (String.leb (key1 x) (key1 y)); cbn; [reflexivity|].
  now rewrite IH.
Qed.

Lemma sort_by_map {A B} (f : A -> B) (key1 : A -> string) (key2 : B -> string)
    (l : list A) :
  (forall a, key2 (f a) = key1 a) ->
  sort_by key2 (map f l) = map f (sort_by key1 l).
Proof.
  intros Hk. induction l as [|x l IH]; cbn; [reflexivity|].
  fold (sort_by key2 (map f l)). fold (sort_by key1 l).
  rewrite IH. now apply insert_by_map.
Qed.

Lemma In_insert_by {A} (key : A -> string) (x y : A) (l : list A) :
  In y (insert_by key x l) <-> y = x \/ In y l.
Proof.
  induction l as [|z l IH]; cbn; [intuition congruence|].
  destruct (String.leb (key x) (key z)); cbn; [intuition congruence|].
  rewrite IH. intuition congruence.
Qed.

Lemma In_sort_by {A} (key : A -> string) (y : A) (l : list A) :
  In y (sort_by key l) <-> In y l.
Proof.
  induction l as [|x l IH]; cbn; [reflexivity|].
  fold (sort_by key l). rewrite In_insert_by, IH. intuition congruence.
Qed.

(** *** Sorting the keys *)

Lemma leb_trans (a : string) :
  forall b c, String.leb a b = true -> String.leb b c = true -> String.leb a c = true.
Proof.
  unfold String.leb.
  induction a as [|x a IH]; intros [|y b] [|z c]; cbn; try congruence.
  unfold Ascii.compare.
  destruct (N.compare_spec (N_of_ascii x) (N_of_ascii y));
    destruct (N.compare_spec (N_of_ascii y) (N_of_ascii z));
    destruct (N.compare_spec (N_of_ascii x) (N_of_ascii z));
    try congruence; try lia; apply IH.
Qed.

Lemma insert_by_perm {A} (key : A -> string) (x : A) (l : list A) :
  Permutation (insert_by key x l) (x :: l).
Proof.
  induction l as [|y l IH]; cbn; [reflexivity|].
  destruct (String.leb (key x) (key y)); [reflexivity|].
  rewrite IH. apply perm_swap.
Qed.

Lemma sort_by_perm {A} (key : A -> string) (l : list A) :
  Permutation (sort_by key l) l.
Proof.
  induction l as [|x l IH]; cbn; [reflexivity|].
  fold (sort_by key l). rewrite insert_by_perm. now constructor.
Qed.

Lemma insert_by_sorted {A} (key : A -> string) (x : A) (l : list A) :
  StronglySorted (key_le key) l -> StronglySorted (key_le key) (insert_by key x l).
Proof.
  induction 1 as [|y l Hl IH Hy]; cbn; [repeat constructor|].
  destruct (String.leb (key x) (key y)) eqn:E.
  - constructor; [now constructor|].
    constructor; [exact E|].
    eapply List.Forall_impl; [|exact Hy].
    intros z Hz. eapply leb_trans; [exact E|exact Hz].
  - constructor; [exact IH|].
    apply List.Forall_forall. intros z [->|Hz]%In_insert_by.
    + destruct (String.leb_total (key x) (key y)) as [H|H]; [congruence|exact H].
    + rewrite List.Forall_forall in Hy. now apply Hy.
Qed.

Lemma sort_by_sorted {A} (key : A -> string) (l : list A) :
  StronglySorted (key_le key) (sort_by key l).
Proof.
  induction l as [|x l IH]; cbn; [constructor|].
  now apply insert_by_sorted.
Qed.

Lemma sorted_perm_eq (l : list string) :
  forall l', StronglySorted (key_le (fun k => k)) l ->
    StronglySorted (key_le (fun k => k)) l' -> Permutation l l' -> l = l'.
Proof.
  induction l as [|a l IH]; intros l' Hl Hl' Hp.
  - now apply Permutation_nil in Hp.
  - destruct l' as [|b l']; [now apply Permutation_sym, Permutation_nil in Hp|].
    inversion Hl as [|? ? Hs Ha]; subst. inversion Hl' as [|? ? Hs' Hb]; subst.
    assert (a = b) as ->.
    { assert (In a (b :: l')) as [->|Ha'] by (eapply Permutation_in; [exact Hp|now left]);
        [reflexivity|].
      assert (In b (a :: l)) as [->|Hb']
          by (eapply Permutation_in; [symmetry; exact Hp|now left]);
        [reflexivity|].
      rewrite List.Forall_forall in Ha, Hb.
      apply String.leb_antisym; [apply (Ha _ Hb')|apply (Hb _ Ha')]. }
    f_equal. apply IH; [assumption|assumption|].
    eapply Permutation_cons_inv, Hp.
Qed.

(** The sorted keys do not depend on the order [Object.keys] lists them in. *)
Lemma sorted_keys_any_order (keys keys' : list string) :
  Permutation keys keys' ->
  sort_by (fun k => k) keys = sort_by (fun k => k) keys'.
Proof.
  intros Hp. apply sorted_perm_eq; try apply sort_by_sorted.
  now rewrite !sort_by_perm.
Qed.

Lemma assoc_named {B} (g : TreeNode -> B) (arr : list TreeNode) (n : TreeNode) :
  List.NoDup (map n_name arr) -> In n arr ->
  assoc (n_name n) (map (fun m => (n_name m, g m)) arr) = Some (g n).
Proof.
  induction arr as [|m arr IH]; cbn; intros Hnd Hin; [contradiction|].
  apply List.NoDup_cons_iff in Hnd as [Hm Hnd].
  destruct Hin as [->|Hin]; [now rewrite String.eqb_refl|].
  destruct (String.eqb_spec (n_name m) (n_name n)) as [E|_]; [|now apply IH].
  exfalso. apply Hm. rewrite E. now apply List.in_map.
Qed.

Lemma omap_assoc_named {B} (g : TreeNode -> B) (arr l : list TreeNode) :
  List.NoDup (map n_name arr) -> (forall n, In n l -> In n arr) ->
  omap (fun k => assoc k (map (fun m => (n_name m, g m)) arr)) (map n_name l)
  = map g l.
Proof.
  intros Hnd. induction l as [|n l IH]; intros Hin; [reflexivity|].
  simpl. rewrite (assoc_named g arr n Hnd) by (apply Hin; now left).
  simpl. f_equal. apply IH. intros m Hm. apply Hin. now right.
Qed.

(** The nodes [toNodes] pushes for a scratch object whose keys are distinct:
    the children in the order of their names. *)
Lemma toNodes_to_trie (lvl : Z) (arr : list TreeNode) :
  List.NoDup (map n_name arr) ->
  toNodes lvl (map to_trie arr)
  = map (fun n => toNode lvl (snd (to_trie n))) (sort_by n_name arr).
Proof.
  intros Hnd. unfold toNodes, in_key_order.
  assert (map (fun kc : string * PNode => let '(k, c) := kc in (k, toNode lvl c))
              (map to_trie arr)
          = map (fun n => (n_name n, toNode lvl (snd (to_trie n)))) arr) as ->.
  { induction arr as [|n arr IH]; [reflexivity|].
    cbn [map]. rewrite IH by (now apply List.NoDup_cons_iff in Hnd).
    now rewrite to_trie_eq. }
  assert (map fst (map (fun n => (n_name n, toNode lvl (snd (to_trie n)))) arr)
          = map n_name arr) as ->.
  { clear Hnd. induction arr as [|n arr IH]; [reflexivity|].
    cbn [map fst]. now rewrite IH. }
  rewrite (sort_by_map n_name n_name (fun k => k) arr) by reflexivity.
  apply omap_assoc_named; [exact Hnd|].
  intros n. apply In_sort_by.
Qed.

Lemma canonical_name (n : TreeNode) : n_name (canonical n) = n_name n.
Proof. now destruct n. Qed.

Lemma forest_canonical (lvl : Z) (arr : list TreeNode) :
  List.NoDup (map n_name arr) -> Forall same_shape arr ->
  map erase (toNodes lvl (map to_trie arr)) = canonical_forest arr.
Proof.
  intros Hnd Hall. rewrite toNodes_to_trie by exact Hnd.
  unfold canonical_forest.
  rewrite (sort_by_map canonical n_name n_name arr canonical_name).
  rewrite List.map_map. apply List.map_ext_in.
  intros n Hn%In_sort_by. rewrite List.Forall_forall in Hall. now apply Hall.
Qed.

Lemma node_canonical agg i (arr : list TreeNode) :
  wf agg i arr -> names_ok arr = true -> Forall same_shape arr.
Proof.
  induction 1 as [agg i|agg i seg sup rest Hseg Hrest IHrest
                 |agg i seg sup cs rest Hseg Hcs IHcs Hrest IHrest];
    intros Hok.
  - constructor.
  - apply names_ok_unfold in Hok as [Hnd Hall].
    cbn [map] in Hnd. apply List.NoDup_cons_iff in Hnd as [_ Hnd].
    apply List.Forall_cons_iff in Hall as [_ Hall].
    constructor; [intros lvl; reflexivity|].
    apply IHrest, names_ok_unfold. now split.
  - apply names_ok_unfold in Hok as [Hnd Hall].
    cbn [map] in Hnd. apply List.NoDup_cons_iff in Hnd as [_ Hnd].
    apply List.Forall_cons_iff in Hall as [Hn Hall].
    constructor; [|apply IHrest, names_ok_unfold; now split].
    apply every_array_folder in Hn. specialize (IHcs Hn).
    apply names_ok_unfold in Hn as [Hndcs _].
    intros lvl. cbn [to_trie snd toNode erase canonical option_map].
    do 2 f_equal.
    exact (forest_canonical (lvl + 1) cs Hndcs IHcs).
Qed.

(** *** No duplicate siblings *)

Lemma key_eqb_eq (a b : string * NodeType) : key_eqb a b = true <-> a = b.
Proof.
  destruct a as [p t], b as [q u]. unfold key_eqb. cbn.
  rewrite andb_true_iff, String.eqb_eq.
  destruct t, u; cbn; intuition congruence.
Qed.

Lemma same_key_key (node n : TreeNode) :
  same_key node n = true <-> key n = key node.
Proof. rewrite <- key_eqb_eq. reflexivity. Qed.

Lemma keys_ok_unfold (arr : list TreeNode) :
  keys_ok arr = true <->
  List.NoDup (map key arr) /\
  Forall (fun n => every_array keys_distinct n = true) arr.
Proof.
  unfold keys_ok, every_array_of, keys_distinct.
  rewrite andb_true_iff, (distinct_NoDup key_eqb _ key_eqb_eq),
    forallb_forall, List.Forall_forall.
  reflexivity.
Qed.

Lemma every_array_set_children ok (n : TreeNode) (cs : list TreeNode) :
  every_array ok (set_children n (Some cs)) = every_array_of ok cs.
Proof. reflexivity. Qed.

Lemma close_ok (fr : Frame) (focus : list TreeNode) :
  frame_ok fr -> keys_ok focus = true -> keys_ok (close fr focus) = true.
Proof.
  intros (Hnd & Hl & Hr) Hf. apply keys_ok_unfold. unfold close. split.
  - rewrite List.map_app in Hnd |- *. exact Hnd.
  - apply List.Forall_app. split; [exact Hl|]. constructor; [|exact Hr].
    rewrite every_array_set_children. exact Hf.
Qed.

Lemma unwind_ok (lvl : Z) (stack : list Frame) (focus : list TreeNode) :
  cursor_ok (stack, focus) -> cursor_ok (unwind lvl stack focus).
Proof.
  revert focus. induction stack as [|fr stack IH]; intros focus [Hs Hf]; cbn.
  - split; assumption.
  - cbn in Hs. apply List.Forall_cons_iff in Hs as [Hfr Hs].
    destruct (lvl <=? n_level (fr_node fr)).
    + apply IH. split; [exact Hs|]. now apply close_ok.
    + split; [constructor|]; assumption.
Qed.

Lemma rewind_ok (stack : list Frame) (focus : list TreeNode) :
  cursor_ok (stack, focus) -> keys_ok (rewind stack focus) = true.
Proof.
  revert focus. induction stack as [|fr stack IH]; intros focus [Hs Hf]; cbn.
  - exact Hf.
  - cbn in Hs. apply List.Forall_cons_iff in Hs as [Hfr Hs].
    apply IH. split; [exact Hs|]. now apply close_ok.
Qed.

Lemma node_of_ok (e : DirectoryEntry) :
  every_array keys_distinct (node_of e) = true.
Proof. unfold node_of. now destruct (type e). Qed.

(** The array after [addUnique] still has distinct keys. *)
Lemma addUnique_ok (arr : list TreeNode) (node added : TreeNode)
    (l r : list TreeNode) :
  keys_ok arr = true -> every_array keys_distinct node = true ->
  addUnique arr node = (l, added, r) ->
  List.NoDup (map key (l ++ added :: r)) /\
  Forall (fun n => every_array keys_distinct n = true) (l ++ added :: r).
Proof.
  intros [Hnd Hall]%keys_ok_unfold Hnode. unfold addUnique.
  destruct (locate node arr) as [[[l' e] r']|] eqn:E; intros H; injection H as <- <- <-.
  - apply locate_Some in E as (-> & _ & _). split; assumption.
  - apply locate_None in E. split.
    + rewrite List.map_app. cbn [map].
      apply List.NoDup_app; [exact Hnd|repeat constructor; intros []|].
      intros k Hk [<-|[]].
      apply List.in_map_iff in Hk as (n & Hn & Hin).
      rewrite List.Forall_forall in E. specialize (E n Hin).
      apply same_key_key in Hn. congruence.
    + apply List.Forall_app. split; [exact Hall|]. repeat constructor. exact Hnode.
Qed.

Lemma step_ok (cur : Cursor) (e : DirectoryEntry) :
  cursor_ok cur -> cursor_ok (step addUnique cur e).
Proof.
  intros Hcur. unfold step. destruct cur as [stack focus]. cbn [fst snd].
  pose proof (unwind_ok (level e) stack focus Hcur) as Hu.
  destruct (unwind (level e) stack focus) as [stack' focus'].
  destruct Hu as [Hs Hf]. cbn [fst snd] in Hs, Hf.
  destruct (addUnique focus' (node_of e)) as [[l added] r] eqn:E.
  destruct (addUnique_ok _ _ _ _ _ Hf (node_of_ok e) E) as [Hnd Hall].
  destruct (type e).
  - split; cbn [fst snd].
    + constructor; [|exact Hs].
      apply List.Forall_app in Hall as [Hl Har].
      apply List.Forall_cons_iff in Har as [_ Hr].
      repeat split; assumption.
    + apply List.Forall_app in Hall as [_ Har].
      apply List.Forall_cons_iff in Har as [Ha _].
      unfold children_or_empty.
      destruct added as [? ? ? ? ? [cs|]]; [exact Ha|reflexivity].
  - split; cbn [fst snd]; [exact Hs|].
    apply keys_ok_unfold. split; assumption.
Qed.

Lemma buildTree_keys_ok (entries : list DirectoryEntry) :
  keys_ok (buildTree entries) = true.
Proof.
  unfold buildTree, build.
  assert (cursor_ok (fold_left (step addUnique) entries ([], []))) as H.
  { assert (cursor_ok ([], [])) as H0 by (split; [constructor|reflexivity]).
    revert H0. generalize (@nil Frame, @nil TreeNode).
    induction entries as [|e entries IH]; intros cur H0; [exact H0|].
    cbn. apply IH, step_ok, H0. }
  destruct (fold_left (step addUnique) entries ([], [])) as [stack focus].
  now apply rewind_ok.
Qed.

(** X1. [buildTree] never leaves two siblings with the same (path, type),
    whatever the entries, repeated ones included. *)
Theorem buildTree_siblings_distinct (entries : list DirectoryEntry) :
  keys_ok (buildTree entries) = true /\
  (forall l r a b, buildTree entries = (l ++ a :: r)%list -> In b (l ++ r) ->
     same_key a b = false).
Proof.
  pose proof (buildTree_keys_ok entries) as H. split; [exact H|].
  apply keys_ok_unfold in H as [Hnd _].
  intros l r a b E Hb. rewrite E, List.map_app in Hnd. cbn [map] in Hnd.
  apply List.NoDup_remove_2 in Hnd.
  apply not_true_iff_false. intros Hk%same_key_key. apply Hnd.
  rewrite <- List.map_app, <- Hk. now apply List.in_map.
Qed.

(** C7. [buildTree], the entry-based builder that dedups on insert, never
    leaves two siblings with the same (path, type), whatever the entries,
    repeated ones included.  Its [addUnique] reuses: when the array holds a
    sibling with the path and type of the node, the array stays as it is
    and the first such sibling is returned; only when there is none is the
    node pushed, and returned. *)
Theorem buildTree_reuses_siblings (entries : list DirectoryEntry) :
  keys_ok (buildTree entries) = true /\
  (forall arr node l added r, addUnique arr node = (l, added, r) ->
     (existsb (same_key node) arr = true ->
      (l ++ added :: r)%list = arr /\ same_key node added = true /\
      Forall (fun n => same_key node n = false) l) /\
     (existsb (same_key node) arr = false ->
      (l ++ added :: r)%list = (arr ++ [node])%list /\ added = node)).
Proof.
  split; [apply buildTree_keys_ok|].
  intros arr node l added r. unfold addUnique.
  destruct (locate node arr) as [[[l' e] r']|] eqn:E; intros H; injection H as <- <- <-.
  - destruct (locate_Some _ _ _ _ _ E) as (-> & Hk & Hl).
    split; [auto|]. intros Hnone. exfalso.
    assert (existsb (same_key node) (l' ++ e :: r') = true); [|congruence].
    apply existsb_exists. exists e. split; [|exact Hk].
    apply in_or_app. right. now left.
  - pose proof (locate_None _ _ E) as Hall. split; [|auto].
    intros Hsome. exfalso. apply existsb_exists in Hsome as (n & Hin & Hn).
    rewrite List.Forall_forall in Hall. specialize (Hall n Hin). congruence.
Qed.

(** The editor page's [buildTreeFromEntries] has no such step: it pushes
    every entry, so a listing given twice comes out as two [src] folders,
    where [buildTree] reuses the first.  The page hands it one directory
    listing, in which no entry repeats. *)
Example buildTreeFromEntries_repeats_siblings :
  buildTreeFromEntries listed_twice
  = [mkTreeNode "src" "src" folder 0 None (Some [node_of a_ts]);
     mkTreeNode "src" "src" folder 0 None (Some [node_of a_ts])] /\
  keys_ok (buildTreeFromEntries listed_twice) = false /\
  buildTree listed_twice
  = [mkTreeNode "src" "src" folder 0 None (Some [node_of a_ts])].
Proof. repeat split; reflexivity. Qed.

(** *** Paths that name a file and a folder *)

Lemma is_prefix_app (s r : list string) : is_prefix s (s ++ r) = true.
Proof.
  induction s as [|x s IH]; cbn; [reflexivity|].
  now rewrite String.eqb_refl, IH.
Qed.

Lemma prefix_free_no_clash (paths : list string) :
  prefix_free paths = true -> no_clash (map parts_of paths).
Proof.
  unfold prefix_free. intros H s t r Hs Ht Hne ->.
  rewrite forallb_forall in H. specialize (H s Hs).
  rewrite forallb_forall in H. specialize (H _ Ht).
  apply negb_true_iff in H. unfold clashes in H.
  destruct s as [|x s]; [congruence|].
  rewrite is_prefix_app in H. cbn [andb] in H.
  apply Nat.ltb_ge in H. rewrite List.length_app in H.
  destruct r; [reflexivity|cbn in H; lia].
Qed.

Lemma In_tails (seg : string) (S : list (list string)) (s : list string) :
  In s (tails seg S) <-> In (seg :: s) S.
Proof.
  unfold tails. rewrite List.in_flat_map. split.
  - intros ([|x t] & Hin & Hs); [contradiction|].
    destruct (String.eqb_spec x seg) as [->|_]; [|contradiction].
    destruct Hs as [->|[]]. exact Hin.
  - intros H. exists (seg :: s). split; [exact H|].
    rewrite String.eqb_refl. now left.
Qed.

Lemma no_clash_tails (seg : string) (S : list (list string)) :
  no_clash S -> no_clash (tails seg S).
Proof.
  intros H s t r Hs%In_tails Ht%In_tails Hne ->.
  apply (H (seg :: s) (seg :: s ++ r)%list r Hs Ht); [discriminate|reflexivity].
Qed.

Lemma covers_mono (S S' : list (list string)) (F : list TreeNode) :
  covers S F -> (forall s, In s S -> In s S') -> covers S' F.
Proof.
  intros H. revert S'.
  induction H as [S|S name path lvl sup rest Hin _ IH
                 |S name path lvl sup cs rest below Hb Hin _ IHcs _ IH];
    intros S' Hsub.
  - constructor.
  - constructor; auto.
  - econstructor; eauto.
    apply IHcs. intros s Hs%In_tails. apply In_tails. auto.
Qed.

Lemma covers_app (S : list (list string)) (F G : list TreeNode) :
  covers S (F ++ G) <-> covers S F /\ covers S G.
Proof.
  split.
  - induction F as [|n F IH]; cbn; intros H.
    + split; [constructor|exact H].
    + inversion H; subst; destruct (IH ltac:(assumption)); split; trivial;
        econstructor; eassumption.
  - intros [HF HG]. induction HF; cbn; try econstructor; eauto.
Qed.

Lemma covers_cons (S : list (list string)) (n : TreeNode) (F : list TreeNode) :
  covers S (n :: F) <-> covers S [n] /\ covers S F.
Proof. apply (covers_app S [n] F). Qed.

(** Inserting a path keeps the forest within the paths inserted. *)
Lemma covers_insertE (parts : list string) :
  forall agg i S arr,
    Forall (fun s => s <> ""%string) parts -> wf agg i arr -> covers S arr ->
    covers (parts :: S) (insertE agg i parts arr).
Proof.
  induction parts as [|seg rest IH]; intros agg i S arr Hne Hwf Hcov.
  - cbn. eapply covers_mono; [exact Hcov|]. intros s Hs. now right.
  - inversion Hne as [|? ? Hseg Hrest]; subst.
    destruct (addUnique arr (fresh agg i seg rest)) as [[l added] r] eqn:E.
    rewrite (insertE_cons _ _ _ _ _ _ _ _ E).
    destruct (addUnique_wf _ _ _ _ _ _ _ _ Hwf Hseg E)
      as (Hl & Ha & Hr & Hn & Ht & _ & Hcase).
    assert (forall s, In s S -> In s ((seg :: rest) :: S)) as Hsub
      by (intros s Hs; now right).
    assert (covers S l /\ covers S r /\
            (arr = (l ++ added :: r)%list -> covers S [added])) as (Hcl & Hcr & Hca).
    { destruct Hcase as [->|(-> & -> & ->)].
      - apply covers_app in Hcov as [? Hcov]. apply covers_cons in Hcov as [? ?].
        auto.
      - repeat split; [exact Hcov|constructor|].
        intros Heq. apply (f_equal (@length TreeNode)) in Heq.
        rewrite List.length_app in Heq. cbn in Heq. lia. }
    apply covers_app. split; [eapply covers_mono; eassumption|].
    apply covers_cons. split; [|eapply covers_mono; eassumption].
    destruct (wf_one_inv _ _ _ Ha) as (_ & Hp & _ & Hk). rewrite Ht in Hk.
    unfold grown. destruct (is_last rest) eqn:El.
    + destruct Hk as (cs & Hcs & Hwcs).
      destruct added as [an ap aty al asup ach]. cbn in *. subst.
      econstructor; [| now left | | constructor].
      * intros ->. discriminate.
      * cbn. rewrite String.eqb_refl. cbn.
        apply IH; [exact Hrest|exact Hwcs|].
        destruct Hcase as [Heq|(_ & _ & Heq)].
        -- specialize (Hca Heq). inversion Hca; subst. assumption.
        -- unfold fresh in Heq. rewrite El in Heq. cbn in Heq.
           injection Heq as _ _ ->. constructor.
    + destruct rest; [|discriminate].
      destruct added as [an ap aty al asup ach]. cbn in *. subst.
      constructor; [now left|constructor].
Qed.

Lemma covers_insertPaths (paths : list string) :
  forall S arr, wf "" 0 arr -> covers S arr ->
    covers (rev (map parts_of paths) ++ S) (insertPaths paths arr).
Proof.
  induction paths as [|p paths IH]; intros S arr Hwf Hcov; [exact Hcov|].
  change (insertPaths (p :: paths) arr)
    with (insertPaths paths (insertE "" 0 (parts_of p) arr)).
  cbn [map rev]. rewrite <- List.app_assoc. cbn [app].
  apply IH.
  - apply wf_insertE; [apply parts_of_nonempty|exact Hwf].
  - apply covers_insertE; [apply parts_of_nonempty|exact Hwf|exact Hcov].
Qed.

Lemma wf_In agg i (F : list TreeNode) (n : TreeNode) :
  wf agg i F -> In n F -> n_path n = join agg (n_name n).
Proof.
  induction 1; cbn; intros Hin; [contradiction| |];
    (destruct Hin as [<-|Hin]; [reflexivity|auto]).
Qed.

Lemma covers_In (S : list (list string)) (F : list TreeNode) (n : TreeNode) :
  covers S F -> In n F ->
  match n_type n with
  | file => In [n_name n] S
  | folder => exists below, below <> [] /\ In (n_name n :: below) S
  end.
Proof.
  induction 1 as [S|S name path lvl sup rest Hin0 _ IH
                 |S name path lvl sup cs rest below Hb Hin0 _ _ _ IH];
    cbn; intros Hin.
  - contradiction.
  - destruct Hin as [<-|Hin]; [exact Hin0|exact (IH Hin)].
  - destruct Hin as [<-|Hin]; [cbn; eauto|exact (IH Hin)].
Qed.

(** Two siblings of one name are a file and a folder, which clash. *)
Lemma one_name_clashes agg i S (F : list TreeNode) (n m : TreeNode) :
  wf agg i F -> covers S F -> no_clash S -> In n F -> In m F ->
  n_name n = n_name m -> key n = key m.
Proof.
  intros Hwf Hcov Hfree Hn Hm Hname. unfold key.
  rewrite (wf_In _ _ _ _ Hwf Hn), (wf_In _ _ _ _ Hwf Hm), Hname. f_equal.
  pose proof (covers_In _ _ _ Hcov Hn) as Cn.
  pose proof (covers_In _ _ _ Hcov Hm) as Cm.
  rewrite Hname in Cn.
  destruct (n_type n), (n_type m); try reflexivity; exfalso.
  - destruct Cn as (below & Hb & Hin).
    apply Hb, (Hfree [n_name m] _ below Cm Hin); [discriminate|reflexivity].
  - destruct Cm as (below & Hb & Hin).
    apply Hb, (Hfree [n_name m] _ below Cn Hin); [discriminate|reflexivity].
Qed.

Lemma names_of_keys agg i S (F : list TreeNode) :
  wf agg i F -> covers S F -> no_clash S ->
  List.NoDup (map key F) -> List.NoDup (map n_name F).
Proof.
  intros Hwf Hcov Hfree.
  assert (forall n m, In n F -> In m F -> n_name n = n_name m -> key n = key m) as H
    by (intros n m; apply (one_name_clashes agg i S F n m Hwf Hcov Hfree)).
  clear Hwf Hcov. induction F as [|n F IH]; cbn; intros Hnd; [constructor|].
  apply List.NoDup_cons_iff in Hnd as [Hn Hnd]. constructor.
  - intros (m & Hm & Hin)%List.in_map_iff. apply Hn.
    rewrite (H n m); [now apply List.in_map|now left|now right|now symmetry].
  - apply IH; [|exact Hnd]. intros a b Ha Hb. apply H; now right.
Qed.

(** Without clashing paths, distinct keys are distinct names. *)
Lemma names_ok_of_keys_ok agg i (F : list TreeNode) :
  wf agg i F ->
  forall S, covers S F -> no_clash S -> keys_ok F = true -> names_ok F = true.
Proof.
  induction 1 as [agg i|agg i seg sup rest Hseg Hrest IHrest
                 |agg i seg sup cs rest Hseg Hcs IHcs Hrest IHrest];
    intros S Hcov Hfree Hok.
  - reflexivity.
  - assert (wf agg i (mkTreeNode seg (join agg seg) file i sup None :: rest)) as Hwf
      by (constructor; assumption).
    apply names_ok_unfold. split.
    + apply keys_ok_unfold in Hok as [Hnd _].
      exact (names_of_keys _ _ _ _ Hwf Hcov Hfree Hnd).
    + constructor; [reflexivity|].
      apply covers_cons in Hcov as [_ Hcov].
      apply keys_ok_unfold in Hok as [Hnd Hall].
      cbn [map] in Hnd. apply List.NoDup_cons_iff in Hnd as [_ Hnd].
      apply List.Forall_cons_iff in Hall as [_ Hall].
      assert (keys_ok rest = true) as Hokr by (apply keys_ok_unfold; now split).
      now apply (IHrest S Hcov Hfree) in Hokr as [_ ?]%names_ok_unfold.
  - assert (wf agg i (mkTreeNode seg (join agg seg) folder i sup (Some cs) :: rest))
      as Hwf by (constructor; assumption).
    apply names_ok_unfold. split.
    + apply keys_ok_unfold in Hok as [Hnd _].
      exact (names_of_keys _ _ _ _ Hwf Hcov Hfree Hnd).
    + apply keys_ok_unfold in Hok as [Hnd Hall].
      cbn [map] in Hnd. apply List.NoDup_cons_iff in Hnd as [_ Hnd].
      apply List.Forall_cons_iff in Hall as [Hn Hall].
      inversion Hcov; subst. constructor.
      * apply every_array_folder. fold names_ok.
        apply (IHcs (tails seg S)); [assumption|now apply no_clash_tails|exact Hn].
      * assert (keys_ok rest = true) as Hokr by (apply keys_ok_unfold; now split).
        now apply (IHrest S ltac:(assumption) Hfree) in Hokr as [_ ?]%names_ok_unfold.
Qed.

(** *** The two builders *)

(** Two files listed in the order b, a: the entry-based builder keeps the
    order of the entries, the path-based one sorts the names; and the paths
    differ by the leading slash. *)
Lemma builders_differ_in_order :
  map n_name (buildTree (entriesOfPaths unsorted)) = ["b.ts"; "a.ts"]%string /\
  map n_name (buildTreeFromFilePaths unsorted) = ["a.ts"; "b.ts"]%string /\
  map level (entriesOfPaths unsorted) = [0; 0] /\
  map n_path (buildTree (entriesOfPaths unsorted)) = ["b.ts"; "a.ts"]%string /\
  map n_path (buildTreeFromFilePaths unsorted) = ["/a.ts"; "/b.ts"]%string.
Proof. repeat split; reflexivity. Qed.

(** The two builders on a list of paths whose entry-built forest uses no
    name twice among siblings. *)
Lemma builders_agree_when_names_distinct (paths : list string) :
  names_ok (buildTree (entriesOfPaths paths)) = true ->
  canonical_forest (buildTree (entriesOfPaths paths))
  = map erase (buildTreeFromFilePaths paths).
Proof.
  intros Hok. rewrite buildTree_insertPaths in *.
  assert (wf "" 0 (insertPaths paths [])) as Hwf
    by (apply wf_insertPaths; constructor).
  unfold buildTreeFromFilePaths.
  change (@nil (string * PNode)) with (map to_trie []).
  rewrite <- (to_trie_insertPaths paths [] (wf_nil "" 0) Hok).
  symmetry. apply forest_canonical.
  - now apply names_ok_unfold in Hok as [Hnd _].
  - exact (node_canonical "" 0 _ Hwf Hok).
Qed.

Lemma prefix_free_names_ok (paths : list string) :
  prefix_free paths = true -> names_ok (buildTree (entriesOfPaths paths)) = true.
Proof.
  intros Hfree.
  pose proof (buildTree_keys_ok (entriesOfPaths paths)) as Hkeys.
  rewrite buildTree_insertPaths in *.
  apply (names_ok_of_keys_ok "" 0 _ (wf_insertPaths paths [] (wf_nil "" 0))
           (map parts_of paths)).
  - eapply covers_mono.
    + apply (covers_insertPaths paths [] [] (wf_nil "" 0) (covers_nil [])).
    + intros s Hs. rewrite List.app_nil_r in Hs. now apply List.in_rev.
  - now apply prefix_free_no_clash.
  - exact Hkeys.
Qed.

(** C6, amended. For a list of paths (segments that are ordinary keys) none
    of which is, segment by segment, a proper prefix of another, and the
    entries the handlers derive from it, the entry-based forest, with every
    sibling array sorted by name and every path given the leading slash, is
    the path-based forest; level and [supported] are ignored on both sides. *)
Theorem builders_agree_up_to_order (paths : list string) :
  plain_keys paths ->
  prefix_free paths = true ->
  canonical_forest (buildTree (entriesOfPaths paths))
  = map erase (buildTreeFromFilePaths paths).
Proof.
  intros _ Hfree.
  apply builders_agree_when_names_distinct, prefix_free_names_ok, Hfree.
Qed.

Lemma builders_agree_up_to_order_witness :
  canonical_forest (buildTree (entriesOfPaths project))
  = map erase (buildTreeFromFilePaths project) /\
  map n_name (buildTreeFromFilePaths project) = ["readme.md"; "src"]%string.
Proof.
  split; [|reflexivity].
  apply (builders_agree_up_to_order project).
  - intros p seg Hp Hseg Hin.
    cbn in Hp. repeat destruct Hp as [<-|Hp]; try contradiction;
      cbn in Hseg; repeat destruct Hseg as [<-|Hseg]; try contradiction;
      cbn in Hin; repeat destruct Hin as [Hin|Hin]; try discriminate; contradiction.
  - reflexivity.
Defined.

(** Scenario: three paths, two top-level nodes. *)
Example three_paths_tree :
  buildTreeFromFilePaths three_paths
  = [mkTreeNode "readme.md" "/readme.md" file 0 None None;
     mkTreeNode "src" "/src" folder 0 None
       (Some
          [mkTreeNode "a.ts" "/src/a.ts" file 1 None None;
           mkTreeNode "b" "/src/b" folder 1 None
             (Some [mkTreeNode "c.ts" "/src/b/c.ts" file 2 None None])])].
Proof. reflexivity. Qed.

Example empty_input :
  buildTree [] = [] /\ buildTreeFromEntries [] = [] /\ buildTreeFromFilePaths [] = [].
Proof. repeat split; reflexivity. Qed.

Example empty_segments_discarded :
  parts_of "/src//a.ts/" = ["src"; "a.ts"]%string /\ parts_of "" = [].
Proof. split; reflexivity. Qed.

(** A name used for a file and for a folder: the entry-based builder keeps
    both nodes, the path-based one the first it met. *)
Example file_and_folder_of_one_name :
  let paths := ["a"; "a/b"]%string in
  prefix_free paths = false /\
  names_ok (buildTree (entriesOfPaths paths)) = false /\
  map n_type (buildTree (entriesOfPaths paths)) = [file; folder] /\
  map n_type (buildTreeFromFilePaths paths) = [file].
Proof. repeat split; reflexivity. Qed.

End TreeSpec.

(** ** Escaping and Markdown *)

Module StringFacts.

Lemma string_app_assoc (a b c : string) : (a +:+ b) +:+ c = a +:+ (b +:+ c).
Proof.
  induction a as [|x a IH]; [reflexivity|].
  change (String x a +:+ b) with (String x (a +:+ b)).
  change (String x (a +:+ b) +:+ c) with (String x ((a +:+ b) +:+ c)).
  now rewrite IH.
Qed.

Lemma string_app_nil_r (a : string) : a +:+ "" = a.
Proof.
  induction a as [|x a IH]; [reflexivity|].
  change (String x a +:+ "") with (String x (a +:+ "")). now rewrite IH.
Qed.

Lemma string_app_cons x (a b : string) : String x a +:+ b = String x (a +:+ b).
Proof. reflexivity. Qed.

End StringFacts.

Module MarkupSpec.
Import Markup StringFacts.

Lemma replaceAll_app c rep a b :
  replaceAll c rep (a +:+ b) = replaceAll c rep a +:+ replaceAll c rep b.
Proof.
  induction a as [|x a IH]; [reflexivity|].
  rewrite string_app_cons. cbn [replaceAll]. rewrite IH.
  destruct (Ascii.eqb x c); [|reflexivity].
  symmetry. apply string_app_assoc.
Qed.

Lemma escapeHtml_cons c s : escapeHtml (String c s) = entity c +:+ escapeHtml s.
Proof.
  unfold escapeHtml, entity. cbn [replaceAll].
  destruct (Ascii.eqb_spec c "&") as [->|H1].
  { rewrite !replaceAll_app. reflexivity. }
  cbn [replaceAll].
  destruct (Ascii.eqb_spec c "<") as [->|H2].
  { rewrite !replaceAll_app. reflexivity. }
  cbn [replaceAll].
  destruct (Ascii.eqb_spec c ">") as [->|H3].
  { rewrite !replaceAll_app. reflexivity. }
  cbn [replaceAll].
  destruct (Ascii.eqb_spec c quot) as [->|H4]; reflexivity.
Qed.

Lemma escapeHtml_app a b : escapeHtml (a +:+ b) = escapeHtml a +:+ escapeHtml b.
Proof.
  induction a as [|x a IH]; [reflexivity|].
  rewrite string_app_cons, !escapeHtml_cons, IH. symmetry. apply string_app_assoc.
Qed.

Lemma entity_cases c :
  (c = "&"%char /\ entity c = "&amp;") \/
  (c = "<"%char /\ entity c = "&lt;") \/
  (c = ">"%char /\ entity c = "&gt;") \/
  (c = quot /\ entity c = "&quot;") \/
  (special c = false /\ entity c = String c "").
Proof.
  unfold entity, special, markup.
  destruct (Ascii.eqb_spec c "&") as [->|H1]; [tauto|].
  destruct (Ascii.eqb_spec c "<") as [->|H2]; [tauto|].
  destruct (Ascii.eqb_spec c ">") as [->|H3]; [tauto|].
  destruct (Ascii.eqb_spec c quot) as [->|H4]; [tauto|].
  cbn. tauto.
Qed.

Lemma chars_app a b : chars (a +:+ b) = (chars a ++ chars b)%list.
Proof.
  induction a as [|x a IH]; [reflexivity|].
  rewrite string_app_cons. unfold chars in *. cbn. now rewrite IH.
Qed.

Lemma escapeHtml_clean (value : string) :
  Forall (fun c => markup c = false) (chars (escapeHtml value)).
Proof.
  induction value as [|c s IH]; [constructor|].
  rewrite escapeHtml_cons, chars_app. apply Forall_app. split; [|exact IH].
  destruct (entity_cases c) as [[-> ->]|[[-> ->]|[[-> ->]|[[-> ->]|[H ->]]]]].
  1-4: repeat constructor.
  unfold special in H. apply orb_false_iff in H as [_ H]. repeat constructor. exact H.
Qed.

Lemma escapeHtml_plain (value : string) :
  Forall (fun c => special c = false) (chars value) -> escapeHtml value = value.
Proof.
  induction value as [|c s IH]; [reflexivity|].
  intros H. unfold chars in H. cbn in H. apply Forall_cons in H as [Hc Hs].
  rewrite escapeHtml_cons, (IH Hs).
  destruct (entity_cases c) as [[-> _]|[[-> _]|[[-> _]|[[-> _]|[_ ->]]]]];
    try discriminate. reflexivity.
Qed.

Lemma string_app_nil_l (a : string) : "" +:+ a = a.
Proof. reflexivity. Qed.

Ltac head_chars H := rewrite ?string_app_cons, ?string_app_nil_l in H.

Lemma entity_head c r : exists x t, entity c +:+ r = String x t /\
  (special c = false -> x = c /\ t = r) /\
  (special c = true -> x = "&"%char).
Proof.
  destruct (entity_cases c) as [[-> E]|[[-> E]|[[-> E]|[[-> E]|[Hc E]]]]];
    rewrite E; rewrite ?string_app_cons, ?string_app_nil_l;
    eexists _, _; (split; [reflexivity|]); split; intros H;
    try discriminate; try reflexivity; try (split; reflexivity).
  congruence.
Qed.

Lemma escapeHtml_inj (a b : string) : escapeHtml a = escapeHtml b -> a = b.
Proof.
  revert b. induction a as [|x a IH]; intros [|y b] H.
  - reflexivity.
  - rewrite escapeHtml_cons in H. exfalso.
    destruct (entity_head y (escapeHtml b)) as (c & t & E & _). rewrite E in H.
    discriminate.
  - rewrite escapeHtml_cons in H. exfalso.
    destruct (entity_head x (escapeHtml a)) as (c & t & E & _). rewrite E in H.
    discriminate.
  - rewrite !escapeHtml_cons in H.
    destruct (entity_cases x) as [[-> E]|[[-> E]|[[-> E]|[[-> E]|[Hx E]]]]];
    destruct (entity_cases y) as [[-> E']|[[-> E']|[[-> E']|[[-> E']|[Hy E']]]]];
      rewrite ?E, ?E' in H; head_chars H;
      try discriminate;
      try (injection H as H; f_equal; now apply IH);
      try (injection H as <- H; discriminate);
      try (injection H as -> H; discriminate).
    injection H as -> H. f_equal. now apply IH.
Qed.

(** X17. The text [escapeHtml] returns holds none of [<], [>] and the
    double quote, whatever the input.  Escaping goes character by
    character, so the escape of a concatenation is the concatenation of
    the escapes, and a text without [&], [<], [>] and double quote is
    returned as it is. *)
Theorem escapeHtml_leaves_no_markup (value a b : string) :
  Forall (fun c => markup c = false) (chars (escapeHtml value)) /\
  escapeHtml (a +:+ b) = escapeHtml a +:+ escapeHtml b /\
  (Forall (fun c => special c = false) (chars value) -> escapeHtml value = value).
Proof.
  split; [apply escapeHtml_clean|]. split; [apply escapeHtml_app|].
  apply escapeHtml_plain.
Qed.

(** X18. Escaping loses nothing: two texts have the same escape only when
    they are the same text.  In particular a text that already holds an
    entity, such as [&lt;], is told apart from the character the entity
    stands for, because [&] is escaped as well. *)
Theorem escapeHtml_loses_nothing (a b : string) :
  (escapeHtml a = escapeHtml b <-> a = b) /\
  escapeHtml "&lt;" = "&amp;lt;" /\ escapeHtml "<" = "&lt;".
Proof.
  split; [|split; reflexivity].
  split; [apply escapeHtml_inj|now intros ->].
Qed.

End MarkupSpec.

Module MarkdownSpec.
Import Text Markup Markdown StringFacts MarkupSpec.

Lemma drop_nil n : drop n "" = "".
Proof. now destruct n. Qed.

Lemma drop_app_length a k b : drop (String.length a + k) (a +:+ b) = drop k b.
Proof. induction a as [|x a IH]; [reflexivity|]. exact IH. Qed.

Lemma drop_wrapped a g b rest :
  drop (String.length g + (String.length a + String.length b))
       (a +:+ g +:+ b +:+ rest) = rest.
Proof.
  replace (String.length g + (String.length a + String.length b))%nat
    with (String.length a + (String.length g + (String.length b + 0)))%nat by lia.
  now rewrite !drop_app_length.
Qed.

Lemma drop_shorter n s : (String.length (drop n s) <= String.length s)%nat.
Proof.
  revert n. induction s as [|c s IH]; intros [|n]; cbn; try lia.
  specialize (IH n). lia.
Qed.

Lemma startsWith_drop p s :
  startsWith p s = true -> s = p +:+ drop (String.length p) s.
Proof.
  revert s. induction p as [|a p IH]; intros s H; [reflexivity|].
  destruct s as [|b s]; [discriminate|]. cbn in H.
  apply andb_true_iff in H as [Hab H]. apply Ascii.eqb_eq in Hab as ->.
  rewrite string_app_cons. cbn [String.length drop]. f_equal. now apply IH.
Qed.

Lemma span_spec keep s run tail :
  span keep s = (run, tail) ->
  s = run +:+ tail /\ Forall (fun c => keep c = true) (chars run).
Proof.
  revert run tail. induction s as [|c s IH]; intros run tail H; cbn in H.
  - injection H as <- <-. split; [reflexivity|constructor].
  - destruct (keep c) eqn:Hc.
    + destruct (span keep s) as [r t]. injection H as <- <-.
      destruct (IH r t eq_refl) as [-> Hr]. split; [reflexivity|].
      constructor; assumption.
    + injection H as <- <-. split; [reflexivity|constructor].
Qed.

(** **** What a match is *)

Lemma code_at_spec s g n :
  code_at s = Some (g, n) ->
  exists rest, s = "`" +:+ g +:+ "`" +:+ rest /\ drop n s = rest /\ (1 <= n)%nat /\
    Forall (fun c => c <> "`"%char) (chars g).
Proof.
  unfold code_at. destruct s as [|c s]; [discriminate|].
  destruct (Ascii.eqb_spec c "`") as [->|Hc].
  2:{ destruct c as [[] [] [] [] [] [] [] []]; try discriminate. congruence. }
  destruct (span (is_not "`") s) as [run tail] eqn:E.
  destruct (span_spec _ _ _ _ E) as [-> Hrun].
  destruct (negb (run =? "")); [|discriminate]. cbn [andb].
  destruct (startsWith "`" tail) eqn:Ht; [|discriminate].
  intros H. injection H as <- <-. apply startsWith_drop in Ht.
  exists (drop 1 tail). rewrite Ht at 1. split; [reflexivity|]. split.
  - rewrite Ht at 1.
    exact (drop_wrapped "`" run "`" (drop 1 tail)).
  - split; [lia|]. eapply List.Forall_impl; [|exact Hrun].
    intros a Ha. unfold is_not in Ha. cbn beta in Ha.
    apply negb_true_iff in Ha. now apply Ascii.eqb_neq in Ha.
Qed.

Lemma bold_at_spec s g n :
  bold_at s = Some (g, n) ->
  exists rest, s = "**" +:+ g +:+ "**" +:+ rest /\ drop n s = rest /\ (1 <= n)%nat.
Proof.
  unfold bold_at. destruct (startsWith "**" s) eqn:Hs; [|discriminate].
  apply startsWith_drop in Hs. cbn [String.length] in Hs.
  destruct (span (is_not "*") (drop 2 s)) as [run tail] eqn:E.
  destruct (span_spec _ _ _ _ E) as [E' _].
  destruct (negb (run =? "")); [|discriminate]. cbn [andb].
  destruct (startsWith "**" tail) eqn:Ht; [|discriminate].
  intros H. injection H as <- <-. apply startsWith_drop in Ht.
  cbn [String.length] in Ht.
  exists (drop 2 tail).
  assert (Hall : s = "**" +:+ run +:+ "**" +:+ drop 2 tail).
  { rewrite Hs at 1. rewrite E'. rewrite Ht at 1. reflexivity. }
  split; [exact Hall|]. split; [|lia].
  rewrite Hall at 1. exact (drop_wrapped "**" run "**" (drop 2 tail)).
Qed.

Lemma italic_at_spec s g n :
  italic_at s = Some (g, n) ->
  exists rest, s = "*" +:+ g +:+ "*" +:+ rest /\ drop n s = rest /\ (1 <= n)%nat.
Proof.
  unfold italic_at. destruct (startsWith "*" s) eqn:Hs; [|discriminate].
  cbn [andb]. destruct (negb (startsWith "*" (drop 1 s))); [|discriminate].
  apply startsWith_drop in Hs. cbn [String.length] in Hs.
  destruct (span (is_not "*") (drop 1 s)) as [run tail] eqn:E.
  destruct (span_spec _ _ _ _ E) as [E' _].
  destruct (negb (run =? "")); [|discriminate]. cbn [andb].
  destruct (startsWith "*" tail) eqn:Ht; [|discriminate]. cbn [andb].
  destruct (negb (startsWith "*" (drop 1 tail))); [|discriminate].
  intros H. injection H as <- <-. apply startsWith_drop in Ht.
  cbn [String.length] in Ht.
  exists (drop 1 tail).
  assert (Hall : s = "*" +:+ run +:+ "*" +:+ drop 1 tail).
  { rewrite Hs at 1. rewrite E'. rewrite Ht at 1. reflexivity. }
  split; [exact Hall|]. split; [|lia].
  rewrite Hall at 1. exact (drop_wrapped "*" run "*" (drop 1 tail)).
Qed.

Lemma placeholder_at_spec s g n :
  placeholder_at s = Some (g, n) ->
  exists rest, s = "@@CODE" +:+ g +:+ "@@" +:+ rest /\ drop n s = rest /\ (1 <= n)%nat.
Proof.
  unfold placeholder_at. destruct (startsWith "@@CODE" s) eqn:Hs; [|discriminate].
  apply startsWith_drop in Hs. cbn [String.length] in Hs.
  destruct (span is_digit (drop 6 s)) as [run tail] eqn:E.
  destruct (span_spec _ _ _ _ E) as [E' _].
  destruct (negb (run =? "")); [|discriminate]. cbn [andb].
  destruct (startsWith "@@" tail) eqn:Ht; [|discriminate].
  intros H. injection H as <- <-. apply startsWith_drop in Ht.
  cbn [String.length] in Ht.
  exists (drop 2 tail).
  assert (Hall : s = "@@CODE" +:+ run +:+ "@@" +:+ drop 2 tail).
  { rewrite Hs at 1. rewrite E'. rewrite Ht at 1. reflexivity. }
  split; [exact Hall|]. split; [|lia].
  rewrite Hall at 1. exact (drop_wrapped "@@CODE" run "@@" (drop 2 tail)).
Qed.

(** **** Text made of tags and plain characters *)

Lemma tags_shape t : In t tags -> exists r, t = String "<" r.
Proof.
  unfold tags. cbn [In]. intros H.
  repeat (destruct H as [<-|H]; [eexists; reflexivity|]). contradiction.
Qed.

Lemma outside_decide d :
  forallb (fun t => negb (existsb (Ascii.eqb d) (chars t))) tags = true -> outside d.
Proof.
  intros H t Ht Hd. rewrite forallb_forall in H. specialize (H t Ht).
  apply negb_true_iff in H.
  assert (existsb (Ascii.eqb d) (chars t) = true); [|congruence].
  apply existsb_exists. exists d. split; [exact Hd|apply Ascii.eqb_refl].
Qed.

Lemma html_app a b : html a -> html b -> html (a +:+ b).
Proof.
  intros Ha Hb. induction Ha as [|c s Hc _ IH|t s Ht _ IH].
  - exact Hb.
  - rewrite string_app_cons. now constructor.
  - rewrite string_app_assoc. now constructor.
Qed.

Lemma html_clean s : Forall (fun c => markup c = false) (chars s) -> html s.
Proof.
  induction s as [|c s IH]; intros H; [constructor|].
  unfold chars in H. cbn in H. apply Forall_cons in H as [Hc Hs].
  constructor; [exact Hc|now apply IH].
Qed.

Lemma html_one t : In t tags -> html t.
Proof.
  intros H. rewrite <- (string_app_nil_r t). constructor; [exact H|constructor].
Qed.

Lemma html_tail c s : html (String c s) -> c <> "<"%char -> html s.
Proof.
  intros H Hc. inversion H as [|c' s' _ Hs|t s' Ht Hs E]; subst.
  - exact Hs.
  - destruct (tags_shape t Ht) as [r ->]. rewrite string_app_cons in E.
    injection E as E _. congruence.
Qed.

Lemma app_eq_split a d b t s :
  a +:+ String d b = t +:+ s -> ~ In d (chars t) ->
  exists a', a = t +:+ a' /\ s = a' +:+ String d b.
Proof.
  revert a. induction t as [|x t IH]; intros a E Hd.
  - exists a. split; [reflexivity|]. now rewrite E.
  - destruct a as [|y a]; rewrite !string_app_cons in E.
    + cbn in E. injection E as -> _. exfalso. apply Hd. now left.
    + injection E as -> E. destruct (IH a E) as (a' & -> & ->).
      { intros Hin. apply Hd. now right. }
      exists a'. split; reflexivity.
Qed.

Lemma html_split a d b : outside d -> html (a +:+ String d b) -> html a /\ html b.
Proof.
  intros Hd H. remember (a +:+ String d b) as s eqn:E. revert a E.
  induction H as [|c s Hc Hs IH|t s Ht Hs IH]; intros a E.
  - destruct a; discriminate.
  - destruct a as [|y a].
    + cbn in E. injection E as -> ->. split; [constructor|exact Hs].
    + rewrite string_app_cons in E. injection E as -> ->.
      destruct (IH a eq_refl) as [Ha Hb]. split; [now constructor|exact Hb].
  - symmetry in E. destruct (app_eq_split a d b t s E (Hd t Ht)) as (a' & -> & E').
    destruct (IH a' E') as [Ha Hb]. split; [now constructor|exact Hb].
Qed.

(** **** The replacement keeps the text well formed *)

Section ReplaceFacts.

Context {St : Type}.
Variable match_at : string -> option (string * nat).
Variable replacement : St -> string -> St * string.

Lemma replace_go_skip k st s :
  replace_go match_at replacement k st s
  = replace_go match_at replacement 0 st (drop k s).
Proof.
  revert k. induction s as [|c s IH]; intros k.
  - now rewrite drop_nil.
  - destruct k as [|k]; [reflexivity|]. cbn [replace_go drop]. apply IH.
Qed.

Variable d : ascii.
Variable Inv : St -> Prop.
Hypothesis Hd : outside d.
Hypothesis Hstart : forall s g n, match_at s = Some (g, n) -> exists r, s = String d r.
Hypothesis Hmatch : forall s g n st,
  match_at s = Some (g, n) -> html s -> Inv st ->
  (1 <= n)%nat /\ html (drop n s) /\
  Inv (fst (replacement st g)) /\ html (snd (replacement st g)).

Lemma replace_go_tag t st s :
  In t tags ->
  replace_go match_at replacement 0 st (t +:+ s)
  = (fst (replace_go match_at replacement 0 st s),
     t +:+ snd (replace_go match_at replacement 0 st s)).
Proof.
  intros Ht. pose proof (Hd t Ht) as Hout. clear Ht.
  induction t as [|x t IH].
  - rewrite !string_app_nil_l.
    now destruct (replace_go match_at replacement 0 st s).
  - rewrite !string_app_cons. cbn [replace_go].
    destruct (match_at (String x (t +:+ s))) as [[g n]|] eqn:E.
    + destruct (Hstart _ _ _ E) as [r Er]. injection Er as -> _.
      exfalso. apply Hout. now left.
    + rewrite IH.
      * reflexivity.
      * intros Hin. apply Hout. now right.
Qed.

Lemma replace_html_by_length n : forall s st,
  (String.length s <= n)%nat -> html s -> Inv st ->
  Inv (fst (replace match_at replacement st s)) /\
  html (snd (replace match_at replacement st s)).
Proof.
  unfold replace. induction n as [|n IH]; intros s st Hn Hs Hst.
  - destruct s; [|cbn in Hn; lia]. cbn. split; [exact Hst|constructor].
  - inversion Hs as [|c s' Hc Hs'|t s' Ht Hs' E]; subst.
    + cbn. split; [exact Hst|constructor].
    + cbn [replace_go].
      destruct (match_at (String c s')) as [[g m]|] eqn:E.
      * destruct (Hmatch _ _ _ st E Hs Hst) as (Hm & Hrest & Hinv & Hout).
        destruct (replacement st g) as [st1 out1]. cbn [fst snd] in Hinv, Hout.
        rewrite replace_go_skip.
        assert (Hdrop : drop (Nat.pred m) s' = drop m (String c s')).
        { destruct m; [lia|reflexivity]. }
        rewrite Hdrop.
        destruct (IH (drop m (String c s')) st1) as [H1 H2]; try assumption.
        { destruct m; [lia|]. cbn [drop]. pose proof (drop_shorter m s').
          cbn in Hn. lia. }
        destruct (replace_go match_at replacement 0 st1 (drop m (String c s')))
          as [st2 tail]. cbn [fst snd] in *. split; [exact H1|].
        now apply html_app.
      * destruct (IH s' st) as [H1 H2]; try assumption.
        { cbn in Hn. lia. }
        destruct (replace_go match_at replacement 0 st s') as [st2 tail].
        cbn [fst snd] in *. split; [exact H1|]. now constructor.
    + rewrite replace_go_tag by exact Ht. cbn [fst snd].
      destruct (tags_shape t Ht) as [r ->].
      destruct (IH s' st) as [H1 H2]; try assumption.
      { rewrite string_app_cons in Hn. cbn [String.length] in Hn.
        assert (String.length s' <= String.length (r +:+ s'))%nat; [|lia].
        clear. induction r as [|x r IHr]; [rewrite string_app_nil_l; lia|].
        rewrite string_app_cons. cbn [String.length]. lia. }
      split; [exact H1|]. now constructor.
Qed.

Lemma replace_html s st :
  html s -> Inv st ->
  Inv (fst (replace match_at replacement st s)) /\
  html (snd (replace match_at replacement st s)).
Proof. apply (replace_html_by_length (String.length s)). lia. Qed.

End ReplaceFacts.

Lemma digits_clean d :
  Forall (fun c => markup c = false) (chars (NilEmpty.string_of_uint d)).
Proof.
  unfold chars.
  induction d as [|d IH|d IH|d IH|d IH|d IH|d IH|d IH|d IH|d IH|d IH];
    [apply Forall_nil_2|..]; (apply Forall_cons_2; [reflexivity|exact IH]).
Qed.

Lemma uint_clean d :
  Forall (fun c => markup c = false) (chars (NilZero.string_of_uint d)).
Proof.
  destruct d; try apply digits_clean. repeat constructor.
Qed.

Lemma show_html z : html (Js.show z).
Proof.
  apply html_clean. unfold Js.show, NilZero.string_of_int.
  destruct (Z.to_int z) as [d|d].
  - apply uint_clean.
  - cbn. constructor; [reflexivity|apply uint_clean].
Qed.

Lemma outside_backquote : outside "`".
Proof. now apply outside_decide. Qed.

Lemma outside_star : outside "*".
Proof. now apply outside_decide. Qed.

Lemma outside_at : outside "@".
Proof. now apply outside_decide. Qed.

Lemma placeholder_html placeholders n :
  Forall html placeholders -> html (placeholder placeholders n).
Proof.
  intros H. unfold placeholder.
  destruct (n <? N.of_nat (length placeholders))%N eqn:E; [|constructor].
  rewrite List.Forall_forall in H. apply H. apply nth_In.
  apply N.ltb_lt in E. lia.
Qed.

Lemma keep_code_html s st :
  html s -> Forall html st ->
  Forall html (fst (replace code_at keep_code st s)) /\
  html (snd (replace code_at keep_code st s)).
Proof.
  apply (replace_html code_at keep_code "`" (Forall html) outside_backquote).
  - intros s0 g n H. destruct (code_at_spec _ _ _ H) as (rest & -> & _).
    eexists. reflexivity.
  - intros s0 g n st0 H Hs Hst.
    destruct (code_at_spec _ _ _ H) as (rest & -> & -> & Hn & _).
    rewrite !string_app_cons, string_app_nil_l in Hs.
    apply html_tail in Hs; [|discriminate].
    apply (html_split _ _ _ outside_backquote) in Hs as [Hg Hrest].
    split; [exact Hn|]. split; [exact Hrest|]. cbn [keep_code fst snd]. split.
    + apply Forall_app. split; [exact Hst|]. now constructor.
    + apply html_app; [now apply html_clean; repeat constructor|].
      apply html_app; [apply show_html|]. apply html_clean. repeat constructor.
Qed.

Lemma wrap_bold_html s :
  html s -> html (snd (replace bold_at (wrap "<strong>" "</strong>") tt s)).
Proof.
  intros Hs.
  apply (replace_html bold_at (wrap "<strong>" "</strong>") "*" (fun _ => True)
           outside_star); [| |exact Hs|exact I].
  - intros s0 g n H. destruct (bold_at_spec _ _ _ H) as (rest & -> & _).
    eexists. reflexivity.
  - intros s0 g n st0 H Hs0 _.
    destruct (bold_at_spec _ _ _ H) as (rest & -> & -> & Hn).
    rewrite !string_app_cons, string_app_nil_l in Hs0.
    do 2 (apply html_tail in Hs0; [|discriminate]).
    apply (html_split _ _ _ outside_star) in Hs0 as [Hg Hrest].
    apply html_tail in Hrest; [|discriminate].
    split; [exact Hn|]. split; [exact Hrest|]. cbn [wrap fst snd].
    split; [exact I|].
    apply html_tag; [cbn; tauto|]. apply html_app; [exact Hg|].
    apply html_one. cbn; tauto.
Qed.

Lemma wrap_italic_html s :
  html s -> html (snd (replace italic_at (wrap "<em>" "</em>") tt s)).
Proof.
  intros Hs.
  apply (replace_html italic_at (wrap "<em>" "</em>") "*" (fun _ => True)
           outside_star); [| |exact Hs|exact I].
  - intros s0 g n H. destruct (italic_at_spec _ _ _ H) as (rest & -> & _).
    eexists. reflexivity.
  - intros s0 g n st0 H Hs0 _.
    destruct (italic_at_spec _ _ _ H) as (rest & -> & -> & Hn).
    rewrite !string_app_cons, string_app_nil_l in Hs0.
    apply html_tail in Hs0; [|discriminate].
    apply (html_split _ _ _ outside_star) in Hs0 as [Hg Hrest].
    split; [exact Hn|]. split; [exact Hrest|]. cbn [wrap fst snd].
    split; [exact I|].
    apply html_tag; [cbn; tauto|]. apply html_app; [exact Hg|].
    apply html_one. cbn; tauto.
Qed.

Lemma restore_code_html s placeholders :
  html s -> Forall html placeholders ->
  html (snd (replace placeholder_at restore_code placeholders s)).
Proof.
  intros Hs Hp.
  apply (replace_html placeholder_at restore_code "@" (Forall html)
           outside_at); [| |exact Hs|exact Hp].
  - intros s0 g n H. destruct (placeholder_at_spec _ _ _ H) as (rest & -> & _).
    eexists. reflexivity.
  - intros s0 g n st0 H Hs0 Hst.
    destruct (placeholder_at_spec _ _ _ H) as (rest & -> & -> & Hn).
    rewrite !string_app_cons, string_app_nil_l in Hs0.
    do 6 (apply html_tail in Hs0; [|discriminate]).
    apply (html_split _ _ _ outside_at) in Hs0 as [_ Hrest].
    apply html_tail in Hrest; [|discriminate].
    split; [exact Hn|]. split; [exact Hrest|]. cbn [restore_code fst snd].
    split; [exact Hst|].
    apply html_tag; [cbn; tauto|].
    apply html_app; [now apply placeholder_html|].
    apply html_one. cbn; tauto.
Qed.

Lemma escapeHtml_html value : html (escapeHtml value).
Proof. apply html_clean, escapeHtml_clean. Qed.

Lemma renderInlineMarkdown_html text : html (renderInlineMarkdown text).
Proof.
  unfold renderInlineMarkdown.
  destruct (keep_code_html (escapeHtml text) []) as [Hp Hc];
    [apply escapeHtml_html|constructor|].
  destruct (replace code_at keep_code [] (escapeHtml text)) as [placeholders withCode].
  cbn [fst snd] in Hp, Hc.
  apply restore_code_html; [|exact Hp].
  apply wrap_italic_html, wrap_bold_html, Hc.
Qed.

Lemma concat_html l : Forall html l -> html (String.concat "" l).
Proof.
  induction l as [|x l IH]; intros H; [constructor|].
  apply Forall_cons in H as [Hx Hl]. cbn [String.concat].
  destruct l as [|y l]; [exact Hx|].
  apply html_app; [exact Hx|]. rewrite string_app_nil_l. now apply IH.
Qed.

Lemma wrapped_html open close text :
  In open tags -> In close tags -> html text -> html (open +:+ text +:+ close).
Proof.
  intros Ho Hc Ht. apply html_tag; [exact Ho|].
  apply html_app; [exact Ht|]. now apply html_one.
Qed.

Lemma emit_html piece r :
  html piece -> Forall html (out r) -> Forall html (out (emit piece r)).
Proof.
  intros Hp Hr. cbn [out emit]. apply Forall_app. split; [exact Hr|].
  now constructor.
Qed.

Lemma pre_code_html : html "<pre><code>".
Proof. apply (html_tag "<pre>" "<code>"); [cbn; tauto|apply html_one; cbn; tauto]. Qed.

Lemma code_pre_html : html "</code></pre>".
Proof. apply (html_tag "</code>" "</pre>"); [cbn; tauto|apply html_one; cbn; tauto]. Qed.

Lemma render_line_html trim trimStart r rawLine :
  Forall html (out r) -> Forall html (out (render_line trim trimStart r rawLine)).
Proof.
  intros Hr. unfold render_line.
  repeat match goal with
         | |- context [if ?b then _ else _] => destruct b
         end;
    repeat (apply emit_html || (cbn [out set_inList set_inCode]));
    try exact Hr;
    try exact pre_code_html; try exact code_pre_html;
    try (apply html_one; cbn; tauto);
    try (apply wrapped_html; [cbn; tauto|cbn; tauto|apply renderInlineMarkdown_html]).
  all: apply html_app; [apply escapeHtml_html|].
  all: apply html_clean; repeat constructor.
Qed.

Lemma fold_render_html trim trimStart lines r :
  Forall html (out r) ->
  Forall html (out (fold_left (render_line trim trimStart) lines r)).
Proof.
  revert r. induction lines as [|l lines IH]; intros r Hr; [exact Hr|].
  cbn [fold_left]. apply IH. now apply render_line_html.
Qed.

Lemma no_quote_in_html s : html s -> ~ In quot (chars s).
Proof.
  induction 1 as [|c s Hc _ IH|t s Ht _ IH].
  - intros [].
  - intros [E|Hin]; [rewrite E in Hc; discriminate|now apply IH].
  - rewrite chars_app. intros Hin. apply in_app_or in Hin as [Hin|Hin]; [|now apply IH].
    revert Hin. clear -Ht. unfold tags in Ht. cbn [In] in Ht.
    repeat (destruct Ht as [<-|Ht];
            [cbn; intuition discriminate|]).
    contradiction.
Qed.

(** X19. Whatever the Markdown text, and whatever [trim] and the removal
    of leading white space do, the HTML that [renderMarkdown] returns is
    made only of the tags the renderer writes itself ([strong], [em],
    [code], [pre], [ul], [li], [h2] to [h4], [p], [br]) and of characters
    that are none of [<], [>] and the double quote; so every [<] of the
    result opens one of these tags, and the result holds no double quote.
    The same holds for the HTML of one line of inline text. *)
Theorem renderMarkdown_writes_only_its_own_tags
    (trim trimStart : string -> string) (markdown text : string) :
  html (renderMarkdown trim trimStart markdown) /\
  ~ In quot (chars (renderMarkdown trim trimStart markdown)) /\
  html (renderInlineMarkdown text).
Proof.
  assert (H : html (renderMarkdown trim trimStart markdown)).
  { unfold renderMarkdown, pieces. apply concat_html.
    set (r := fold_left _ _ _).
    assert (Hr : Forall html (out r)).
    { apply fold_render_html. constructor. }
    clearbody r.
    destruct (inList r) eqn:E1.
    - assert (Hr1 : Forall html (out (emit "</ul>" r))).
      { apply emit_html; [apply html_one; cbn; tauto|exact Hr]. }
      destruct (inCode (emit "</ul>" r)); [|exact Hr1].
      apply emit_html; [exact code_pre_html|exact Hr1].
    - destruct (inCode r); [|exact Hr].
      apply emit_html; [exact code_pre_html|exact Hr]. }
  split; [exact H|]. split; [now apply no_quote_in_html|].
  apply renderInlineMarkdown_html.
Qed.

Lemma occurrences_snoc piece l p :
  occurrences piece (l ++ [p])
  = (occurrences piece l + (if String.eqb piece p then 1 else 0))%nat.
Proof.
  unfold occurrences. rewrite List.filter_app, List.length_app. cbn [List.filter].
  now destruct (String.eqb piece p).
Qed.

Lemma not_an_escaped_line r value :
  String.eqb (String "<" r) (escapeHtml value +:+ String "010" "") = false.
Proof.
  apply String.eqb_neq. intros E.
  assert (H : Forall (fun c => markup c = false)
                (chars (escapeHtml value +:+ String "010" ""))).
  { rewrite chars_app. apply Forall_app. split; [apply escapeHtml_clean|].
    repeat constructor. }
  rewrite <- E in H. unfold chars in H. cbn in H.
  apply Forall_cons in H as [H _]. discriminate.
Qed.

Ltac count_pieces :=
  cbn [out emit set_inList set_inCode inList inCode];
  rewrite ?occurrences_snoc, ?not_an_escaped_line;
  repeat match goal with
         | |- context [String.eqb ?a (?b +:+ ?c)] =>
             change (String.eqb a (b +:+ c)) with false
         end;
  cbn [String.eqb Ascii.eqb Bool.eqb]; lia.

Lemma render_line_accounted trim trimStart r rawLine :
  accounted r -> accounted (render_line trim trimStart r rawLine).
Proof.
  destruct r as [o l c]. unfold accounted, render_line.
  cbn [out inList inCode]. intros [Hl Hc].
  repeat match goal with
         | |- context [if startsWith ?a ?b then _ else _] =>
             destruct (startsWith a b)
         | |- context [if String.eqb ?a ?b then _ else _] =>
             destruct (String.eqb a b)
         end;
    destruct l, c; cbn [andb negb set_inList set_inCode emit inList inCode out];
    split; count_pieces.
Qed.

(** X20. In the array of pieces that [renderMarkdown] joins, the opening
    [<ul>] occurs as often as the closing [</ul>], and the opening
    [<pre><code>] as often as the closing [</code></pre>]: every list and
    every code block that is opened is closed, also one that the text
    leaves open at its end, and none is closed that was not opened. *)
Theorem renderMarkdown_closes_what_it_opens
    (trim trimStart : string -> string) (markdown : string) :
  occurrences "<ul>" (pieces trim trimStart markdown)
    = occurrences "</ul>" (pieces trim trimStart markdown) /\
  occurrences "<pre><code>" (pieces trim trimStart markdown)
    = occurrences "</code></pre>" (pieces trim trimStart markdown).
Proof.
  unfold pieces. set (lines := Tree.split _ _). clearbody lines.
  set (r0 := {| out := []; inList := false; inCode := false |}).
  assert (H0 : accounted r0) by (split; reflexivity).
  clearbody r0. revert r0 H0.
  induction lines as [|l lines IH]; intros r H.
  - cbn [fold_left]. destruct r as [o l c]. destruct H as [Hl Hc].
    cbn [out inList inCode] in *.
    destruct l, c; cbn [out inList inCode emit]; split; count_pieces.
  - cbn [fold_left]. apply IH. now apply render_line_accounted.
Qed.

End MarkdownSpec.

(** ** Totals, headline, top categories and the filter panel *)

Module TotalsSpec.
Import Findings Totals.
Local Open Scope Z_scope.

Lemma skips_passes (filters : Filters) (fi : Finding) :
  negb (skips filters fi) = finding_passes (f_severity filters) (f_category filters) fi.
Proof.
  unfold skips, finding_passes.
  destruct (no_size _), (has _ _), (no_size _), (has _ _); reflexivity.
Qed.

Lemma dropped_file_lists_nothing (filters : Filters) (file_ : ScanFile) :
  keeps filters file_ = false ->
  List.filter (fun fi => negb (skips filters fi)) (findings_of file_) = [].
Proof.
  unfold keeps. intros H.
  destruct (cryptoOnly filters && negb (0 <? length (findings_of file_))%nat) eqn:Hc.
  - apply andb_true_iff in Hc as [_ Hc]. apply negb_true_iff, Nat.ltb_ge in Hc.
    destruct (findings_of file_); [reflexivity|]. cbn in Hc. exfalso. lia.
  - destruct (no_size (f_severity filters) && no_size (f_category filters)); [discriminate|].
    clear Hc. induction (findings_of file_) as [|fi l IH]; [reflexivity|].
    cbn in H. apply orb_false_iff in H as [H1 H2].
    cbn. rewrite skips_passes, H1. now apply IH.
Qed.

Lemma collect_filteredFiles (files : list ScanFile) (filters : Filters) :
  collect (filteredFiles files filters) filters = collect files filters.
Proof.
  unfold collect, filteredFiles.
  induction files as [|file_ files IH]; [reflexivity|].
  cbn [List.filter flat_map]. destruct (keeps filters file_) eqn:Hk.
  - cbn [flat_map]. now rewrite IH.
  - rewrite IH, (dropped_file_lists_nothing _ _ Hk). reflexivity.
Qed.

Lemma in_collect (files : list ScanFile) (filters : Filters) (a : AggregatedFinding) :
  In a (collect files filters) <->
  exists file_, In file_ files /\ file a = path file_ /\ In (f a) (findings_of file_) /\
    finding_passes (f_severity filters) (f_category filters) (f a) = true.
Proof.
  unfold collect. rewrite in_flat_map. split.
  - intros (file_ & Hin & Ha). apply List.in_map_iff in Ha as (fi & <- & Hfi).
    apply filter_In in Hfi as [Hfi Hp]. rewrite skips_passes in Hp.
    exists file_. cbn. auto.
  - intros (file_ & Hin & Hf & Hfi & Hp). exists file_. split; [exact Hin|].
    apply List.in_map_iff. exists (f a). split.
    + destruct a as [af afi]. cbn in *. now subst.
    + apply filter_In. rewrite skips_passes. auto.
Qed.

(** X3. The list [allFindings] does not depend on the file filter that
    runs before it: looping over the filtered files gives the findings
    that looping over all files gives.  So a finding is listed exactly
    when it is a finding of one of the files and passes the severity and
    the category filter, each of which lets everything pass when its set
    is empty; and the [cryptoOnly] switch never changes the list. *)
Theorem allFindings_whatever_the_file_filter (files : list ScanFile) (filters : Filters) :
  allFindings files filters = collect files filters /\
  (forall a, In a (allFindings files filters) <->
     exists file_, In file_ files /\ file a = path file_ /\ In (f a) (findings_of file_) /\
       (f_severity filters = ∅ \/ canonicalSeverity (f a) ∈ f_severity filters) /\
       (f_category filters = ∅ \/ category_key (f a) ∈ f_category filters)) /\
  (forall flag,
     allFindings files {| f_severity := f_severity filters;
                          f_category := f_category filters;
                          cryptoOnly := flag |}
     = allFindings files filters).
Proof.
  split; [apply collect_filteredFiles|]. split.
  - intros a. unfold allFindings. rewrite collect_filteredFiles, in_collect.
    setoid_rewrite FindingsSpec.finding_passes_spec. reflexivity.
  - intros flag. unfold allFindings. rewrite !collect_filteredFiles.
    unfold collect, skips. reflexivity.
Qed.


(** *** Severity counters *)

Lemma severity_bucket (fi : Finding) :
  canonicalSeverity fi = "high" \/ canonicalSeverity fi = "medium" \/
  canonicalSeverity fi = "low" \/ canonicalSeverity fi = "info".
Proof.
  unfold canonicalSeverity.
  repeat match goal with |- context [if ?b then _ else _] => destruct b end; auto.
Qed.

Lemma shown_bump (base : gmap string Z) (key k : string) :
  shown (bump base key) k = shown base k + (if String.eqb key k then 1 else 0).
Proof.
  unfold shown, bump. destruct (String.eqb_spec key k) as [->|Hne].
  - now rewrite lookup_insert_eq.
  - rewrite lookup_insert_ne by exact Hne. lia.
Qed.

Lemma shown_fold (l : list AggregatedFinding) (base : gmap string Z) (k : string) :
  shown (fold_left (fun base a => bump base (canonicalSeverity (f a))) l base) k
  = shown base k + how_many (in_bucket k) l.
Proof.
  revert base. induction l as [|a l IH]; intros base.
  - unfold how_many. cbn. lia.
  - cbn [fold_left]. rewrite IH, shown_bump. unfold how_many, in_bucket. cbn [List.filter].
    destruct (String.eqb (canonicalSeverity (f a)) k); cbn [length]; lia.
Qed.

Lemma shown_base0 (k : string) : shown base0 k = 0.
Proof.
  unfold shown, base0. rewrite !lookup_insert. repeat case_decide; reflexivity.
Qed.

Lemma count_buckets (l : list AggregatedFinding) :
  how_many (in_bucket "high") l + how_many (in_bucket "medium") l
  + how_many (in_bucket "low") l + how_many (in_bucket "info") l = Z.of_nat (length l).
Proof.
  unfold how_many, in_bucket. induction l as [|a l IH]; [reflexivity|].
  cbn [List.filter length].
  destruct (severity_bucket (f a)) as [-> | [-> | [-> | ->]]]; cbn [String.eqb Ascii.eqb Bool.eqb length];
    cbn; lia.
Qed.

Lemma count_pos (p : AggregatedFinding -> bool) (l : list AggregatedFinding) :
  how_many p l <> 0 <-> exists a, In a l /\ p a = true.
Proof.
  unfold how_many. split.
  - intros H. destruct (List.filter p l) as [|a r] eqn:E; [cbn in H; lia|].
    exists a. apply filter_In. rewrite E. now left.
  - intros (a & Hin & Hp). assert (In a (List.filter p l)) as H by (apply filter_In; auto).
    destruct (List.filter p l); [destruct H|cbn; lia].
Qed.

(** X4. For every key, the number that [severityTotals] (and the
    [severityCounts] of the analytics panel) shows is the number of listed
    findings whose canonical severity is that key; the numbers of the four
    buckets add up to the number of listed findings. *)
Theorem severityTotals_count_each_bucket (allFindings : list AggregatedFinding) :
  (forall key, shown (severityTotals allFindings) key = how_many (in_bucket key) allFindings) /\
  shown (severityTotals allFindings) "high" + shown (severityTotals allFindings) "medium"
  + shown (severityTotals allFindings) "low" + shown (severityTotals allFindings) "info"
  = Z.of_nat (length allFindings).
Proof.
  assert (forall key, shown (severityTotals allFindings) key = how_many (in_bucket key) allFindings) as H.
  { intros key. unfold severityTotals. now rewrite shown_fold, shown_base0. }
  split; [exact H|]. rewrite !H. apply count_buckets.
Qed.

(** X5. The headline of the analytics panel names the most severe bucket
    that holds a finding: [High] when some finding is in the bucket high,
    [Medium] when none is but some finding is in medium, [Low] when only
    low is left, and [Info] in every other case, also when nothing is
    listed. *)
Theorem severityHeadline_most_severe (allFindings : list AggregatedFinding) :
  let has_one key := exists a, In a allFindings /\ canonicalSeverity (f a) = key in
  let headline := severityHeadline (severityTotals allFindings) in
  (headline = "High" <-> has_one "high") /\
  (headline = "Medium" <-> ~ has_one "high" /\ has_one "medium") /\
  (headline = "Low" <-> ~ has_one "high" /\ ~ has_one "medium" /\ has_one "low") /\
  (headline = "Info" <-> ~ has_one "high" /\ ~ has_one "medium" /\ ~ has_one "low").
Proof.
  intros has_one headline. subst headline. unfold severityHeadline.
  assert (forall key, (shown (severityTotals allFindings) key =? 0) = false <-> has_one key) as H.
  { intros key. rewrite Z.eqb_neq. unfold severityTotals. rewrite shown_fold, shown_base0.
    rewrite Z.add_0_l, count_pos. unfold has_one, in_bucket.
    split; intros (a & Hin & Ha); exists a; (split; [exact Hin|]);
      now apply String.eqb_eq. }
  pose proof (H "high") as Hh. pose proof (H "medium") as Hm. pose proof (H "low") as Hl.
  destruct (shown (severityTotals allFindings) "high" =? 0);
  destruct (shown (severityTotals allFindings) "medium" =? 0);
  destruct (shown (severityTotals allFindings) "low" =? 0);
  cbn [negb]; clear H; intuition congruence.
Qed.


(** *** Category counters and the six highest *)


Lemma assoc_tally (key k : string) (m : list (string * Z)) :
  Tree.assoc k (tally key m)
  = if String.eqb key k then Some (val m k + 1) else Tree.assoc k m.
Proof.
  unfold val. induction m as [|[k' v] m IH]; cbn [tally Tree.assoc].
  - rewrite (String.eqb_sym key k). destruct (String.eqb k key); reflexivity.
  - destruct (String.eqb_spec k' key) as [->|Hne]; cbn [Tree.assoc].
    + destruct (String.eqb_spec key k) as [->|Hk]; reflexivity.
    + destruct (String.eqb_spec k' k) as [->|Hk].
      * destruct (String.eqb_spec key k) as [->|?]; [congruence|reflexivity].
      * exact IH.
Qed.

Lemma keys_tally (key : string) (m : list (string * Z)) :
  List.NoDup (map fst m) -> List.NoDup (map fst (tally key m)) /\
  (forall k, In k (map fst (tally key m)) <-> k = key \/ In k (map fst m)).
Proof.
  induction m as [|[k' v] m IH]; intros Hnd; cbn [tally].
  - split; [constructor; [intros []|constructor]|]. intros k. cbn. intuition.
  - apply List.NoDup_cons_iff in Hnd as [Hk' Hnd]. specialize (IH Hnd) as [IH1 IH2].
    destruct (String.eqb_spec k' key) as [->|Hne]; cbn [map fst] in *.
    + split; [apply List.NoDup_cons_iff; auto|]. intros k. cbn. intuition.
    + split.
      * apply List.NoDup_cons_iff. split; [|exact IH1]. rewrite IH2. intuition.
      * intros k. cbn. rewrite IH2. intuition.
Qed.

Lemma assoc_In {A} (m : list (string * A)) (k : string) (v : A) :
  List.NoDup (map fst m) -> (In (k, v) m <-> Tree.assoc k m = Some v).
Proof.
  induction m as [|[k' v'] m IH]; intros Hnd; cbn [Tree.assoc In].
  - split; [intros []|discriminate].
  - apply List.NoDup_cons_iff in Hnd as [Hk' Hnd]. cbn [map fst] in Hk'.
    destruct (String.eqb_spec k' k) as [->|Hne].
    + split.
      * intros [H|H]; [congruence|]. exfalso. apply Hk'.
        apply List.in_map_iff. now exists (k, v).
      * intros [= ->]. now left.
    + rewrite <- (IH Hnd). split; [intros [H|H]; [congruence|exact H]|auto].
Qed.


Lemma tallied_spec (l : list AggregatedFinding) (m : list (string * Z)) :
  List.NoDup (map fst m) -> (forall k v, Tree.assoc k m = Some v -> 1 <= v) ->
  List.NoDup (map fst (tallied l m)) /\
  (forall k v, Tree.assoc k (tallied l m) = Some v -> 1 <= v) /\
  (forall k, val (tallied l m) k = val m k + how_many (of_category k) l).
Proof.
  revert m. induction l as [|a l IH]; intros m Hnd Hpos.
  - cbn [tallied fold_left]. split; [exact Hnd|]. split; [exact Hpos|]. intros k.
    change (how_many (of_category k) []) with 0. lia.
  - cbn [tallied fold_left].
    destruct (keys_tally (category_key (f a)) m Hnd) as [Hnd' _].
    assert (forall k v, Tree.assoc k (tally (category_key (f a)) m) = Some v -> 1 <= v) as Hpos'.
    { intros k v. rewrite assoc_tally.
      destruct (String.eqb (category_key (f a)) k); [|apply Hpos].
      intros [= <-]. unfold val. destruct (Tree.assoc k m) as [v'|] eqn:E; cbn; [|lia].
      specialize (Hpos k v' E). lia. }
    destruct (IH _ Hnd' Hpos') as (H1 & H2 & H3). split; [exact H1|]. split; [exact H2|].
    intros k. fold (tallied l (tally (category_key (f a)) m)). rewrite H3.
    unfold val at 1. rewrite assoc_tally. unfold how_many, of_category. cbn [List.filter].
    destruct (String.eqb (category_key (f a)) k); unfold val, default, Datatypes.id;
      cbn [from_option length]; lia.
Qed.

Lemma categoryTotals_spec (l : list AggregatedFinding) :
  List.NoDup (map fst (categoryTotals l)) /\
  (forall k c, In (k, c) (categoryTotals l) <-> c = how_many (of_category k) l /\ 1 <= c).
Proof.
  destruct (tallied_spec l []) as (Hnd & Hpos & Hval).
  { constructor. } { discriminate. }
  change (tallied l []) with (categoryTotals l) in *.
  split; [exact Hnd|]. intros k c.
  rewrite (assoc_In _ _ _ Hnd). specialize (Hval k). specialize (Hpos k).
  unfold val, default, Datatypes.id in Hval. cbn [Tree.assoc from_option] in Hval.
  destruct (Tree.assoc k (categoryTotals l)) as [v|]; cbn [from_option] in Hval.
  - specialize (Hpos v eq_refl). split; [intros [= <-]; lia|].
    intros [-> _]. f_equal. lia.
  - split; [discriminate|]. intros [-> Hc]. lia.
Qed.


Lemma insert_desc_perm (x : string * Z) (l : list (string * Z)) :
  Permutation (insert_desc x l) (x :: l).
Proof.
  induction l as [|y l IH]; cbn; [reflexivity|].
  destruct (snd y <=? snd x); [reflexivity|].
  rewrite IH. apply perm_swap.
Qed.

Lemma sort_desc_perm (l : list (string * Z)) : Permutation (sort_desc l) l.
Proof.
  induction l as [|x l IH]; cbn; [reflexivity|].
  rewrite insert_desc_perm. now constructor.
Qed.

Lemma insert_desc_sorted (x : string * Z) (l : list (string * Z)) :
  StronglySorted desc l -> StronglySorted desc (insert_desc x l).
Proof.
  induction 1 as [|y l Hs IH Hy]; cbn.
  - repeat constructor.
  - destruct (Z.leb_spec (snd y) (snd x)) as [Hle|Hgt].
    + constructor; [now constructor|]. constructor; [exact Hle|].
      eapply List.Forall_impl; [|exact Hy]. unfold desc. intros; lia.
    + constructor; [exact IH|].
      eapply Permutation_Forall; [symmetry; apply insert_desc_perm|].
      constructor; [unfold desc; lia|exact Hy].
Qed.

Lemma sort_desc_sorted (l : list (string * Z)) : StronglySorted desc (sort_desc l).
Proof.
  induction l as [|x l IH]; cbn; [constructor|]. now apply insert_desc_sorted.
Qed.

Lemma sorted_firstn_skipn (n : nat) (l : list (string * Z)) :
  StronglySorted desc l ->
  StronglySorted desc (firstn n l) /\
  forall x y, In x (firstn n l) -> In y (skipn n l) -> desc x y.
Proof.
  revert l. induction n as [|n IH]; intros l Hs; cbn.
  - split; [constructor|]. intros x y [].
  - destruct l as [|z l]; [split; [constructor|intros x y []]|].
    apply StronglySorted_inv in Hs as [Hs Hz]. destruct (IH l Hs) as [IH1 IH2].
    split.
    + constructor; [exact IH1|].
      apply List.Forall_forall. intros x Hx. rewrite List.Forall_forall in Hz.
      apply Hz. rewrite <- (firstn_skipn n l). apply in_or_app. now left.
    + intros x y [<-|Hx] Hy.
      * rewrite List.Forall_forall in Hz. apply Hz.
        rewrite <- (firstn_skipn n l). apply in_or_app. now right.
      * now apply IH2.
Qed.


(** X6. The cloud of top categories holds at most six entries, no
    category twice, in descending order of their counts.  The count of an
    entry is the number of listed findings of that category and is at
    least 1; a category that is left out has no more findings than any
    entry shown; with six categories or fewer none is left out. *)
Theorem topCategories_exact_and_highest (allFindings : list AggregatedFinding) :
  let top := topCategories allFindings in
  (length top <= 6)%nat /\
  List.NoDup (map fst top) /\
  StronglySorted desc top /\
  (forall key n, In (key, n) top ->
     n = how_many (of_category key) allFindings /\ 1 <= n) /\
  (forall key n a, In (key, n) top -> In a allFindings ->
     ~ In (category_key (f a)) (map fst top) ->
     how_many (of_category (category_key (f a))) allFindings <= n) /\
  ((length (categoryTotals allFindings) <= 6)%nat ->
     forall a, In a allFindings -> In (category_key (f a)) (map fst top)).
Proof.
  intros top. subst top. unfold topCategories, top6.
  destruct (categoryTotals_spec allFindings) as [Hnd Hspec].
  pose proof (sort_desc_perm (categoryTotals allFindings)) as Hperm.
  pose proof (sort_desc_sorted (categoryTotals allFindings)) as Hsorted.
  destruct (sorted_firstn_skipn 6 _ Hsorted) as [Hs1 Hs2].
  set (sorted := sort_desc (categoryTotals allFindings)) in *.
  assert (forall x, In x (firstn 6 sorted) -> In x (categoryTotals allFindings)) as Hsub.
  { intros x Hx. eapply Permutation_in; [exact Hperm|].
    rewrite <- (firstn_skipn 6 sorted). apply in_or_app. now left. }
  assert (forall a, In a allFindings ->
            In (category_key (f a), how_many (of_category (category_key (f a))) allFindings)
               sorted) as Hall.
  { intros a Ha. eapply Permutation_in; [symmetry; exact Hperm|].
    apply Hspec. split; [reflexivity|].
    assert (how_many (of_category (category_key (f a))) allFindings <> 0) as Hc.
    { apply count_pos. exists a. split; [exact Ha|]. apply String.eqb_refl. }
    unfold how_many in *. lia. }
  repeat apply conj.
  - apply firstn_le_length.
  - assert (List.NoDup (map fst sorted)) as Hnd'.
    { eapply Permutation_NoDup; [|exact Hnd]. apply Permutation_map. now symmetry. }
    rewrite <- (firstn_skipn 6 sorted), List.map_app in Hnd'.
    now apply NoDup_app_remove_r in Hnd'.
  - exact Hs1.
  - intros key n Hin. apply Hspec, Hsub, Hin.
  - intros key n a Hin Ha Hout.
    specialize (Hall a Ha). rewrite <- (firstn_skipn 6 sorted) in Hall.
    apply in_app_or in Hall as [Hall|Hall].
    + exfalso. apply Hout. apply List.in_map_iff. eexists. split; [|exact Hall]. reflexivity.
    + exact (Hs2 _ _ Hin Hall).
  - intros Hlen a Ha. specialize (Hall a Ha).
    rewrite firstn_all2.
    + apply List.in_map_iff. eexists. split; [|exact Hall]. reflexivity.
    + rewrite (Permutation_length Hperm). exact Hlen.
Qed.

(** *** The filter panel *)

Set Warnings "-clear-no-such-hyp".

Lemma toggled_twice (key : string) (old : gset string) :
  toggled key (toggled key old) = old.
Proof.
  unfold toggled, has.
  destruct (bool_decide_reflect (key ∈ old)) as [Hin|Hout].
  - rewrite bool_decide_eq_false_2 by set_solver.
    apply leibniz_equiv. intros x. destruct (decide (x = key)) as [->|?]; set_solver.
  - rewrite bool_decide_eq_true_2 by set_solver.
    apply leibniz_equiv. set_solver.
Qed.

Lemma toggled_elem (key x : string) (old : gset string) :
  x ∈ toggled key old <-> (x <> key /\ x ∈ old) \/ (x = key /\ key ∉ old).
Proof.
  unfold toggled, has.
  destruct (bool_decide_reflect (key ∈ old)) as [Hin|Hout].
  - destruct (decide (x = key)) as [->|?]; set_solver.
  - destruct (decide (x = key)) as [->|?]; set_solver.
Qed.

(** X7. A toggle of the filter panel flips one key and nothing else:
    after [toggleSeverity] (resp. [toggleCategory]) the set holds the key
    exactly when it did not before, every other key stays as it was, and
    the other two parts of the filter are unchanged; toggling the same key
    (or [cryptoOnly]) twice gives the filter back. *)
Theorem toggles_flip_one_key (value : Filters) (key : string) :
  toggleSeverity (toggleSeverity value key) key = value /\
  toggleCategory (toggleCategory value key) key = value /\
  toggleCryptoOnly (toggleCryptoOnly value) = value /\
  (forall x, x ∈ f_severity (toggleSeverity value key) <->
     (x <> key /\ x ∈ f_severity value) \/ (x = key /\ key ∉ f_severity value)) /\
  (forall x, x ∈ f_category (toggleCategory value key) <->
     (x <> key /\ x ∈ f_category value) \/ (x = key /\ key ∉ f_category value)) /\
  f_category (toggleSeverity value key) = f_category value /\
  cryptoOnly (toggleSeverity value key) = cryptoOnly value /\
  f_severity (toggleCategory value key) = f_severity value /\
  cryptoOnly (toggleCategory value key) = cryptoOnly value.
Proof.
  destruct value as [sev cat co].
  unfold toggleSeverity, toggleCategory, toggleCryptoOnly. cbn.
  rewrite !toggled_twice, negb_involutive.
  repeat split; try reflexivity; try apply toggled_elem.
Qed.

End TotalsSpec.

(** ** Decorations of the code viewer *)

Module ViewerSpec.
Import Findings Viewer.
Local Open Scope Z_scope.

(** X23. Every decoration of the code viewer has a range that the editor
    accepts: it starts at line 1 or later and does not end before it
    starts, whatever the line numbers of the highlight (zero, negative, an
    end before the start).  A start line from 1 on is kept; an end line is
    kept when it does not lie before the start, and a highlight without an
    end line, or with end line 0, covers its start line alone. *)
Theorem decoration_range_is_valid (h : Highlight) :
  1 <= start h <= end_ h /\
  (1 <= startLine h -> start h = startLine h) /\
  (startLine h <= 1 -> start h = 1) /\
  (forall e, endLine h = Some e -> start h <= e -> end_ h = e) /\
  (endLine h = None \/ endLine h = Some 0 -> end_ h = start h).
Proof.
  unfold end_, start, or_num. destruct h as [s e sev m]. cbn [startLine endLine].
  split; [|split; [|split; [|split]]].
  - destruct (s =? 0) eqn:Es; destruct e as [e|]; try destruct (e =? 0) eqn:Ee; lia.
  - intros Hs. destruct (s =? 0) eqn:Es; lia.
  - intros Hs. destruct (s =? 0) eqn:Es; lia.
  - intros e' -> Hle.
    destruct (s =? 0) eqn:Es; destruct (e' =? 0) eqn:Ee; lia.
  - intros [->| ->]; cbn [Z.eqb]; destruct (s =? 0) eqn:Es; lia.
Qed.

(** X24. The class the viewer gives the decoration of a finding follows the
    finding's [severity] label alone.  For a finding without a ranked
    severity, a decoration marked as an error belongs to a finding of the
    bucket [high] and one marked as a warning to a finding of the bucket
    [medium]; but a finding of the bucket [high] is not always marked as an
    error: the labels [critical] and [high] are drawn as [dec-info]. *)
Theorem decoration_class_and_bucket (fi : Finding) (h : Highlight) :
  Js.truthy (rankedSeverity fi) = false ->
  h_severity h = Some (Js.or_else (severity fi) "info") ->
  (className h = "dec-error" <-> raw fi = "error") /\
  (className h = "dec-warning" <-> raw fi = "warning") /\
  (className h = "dec-error" -> canonicalSeverity fi = "high") /\
  (className h = "dec-warning" -> canonicalSeverity fi = "medium") /\
  (raw fi = "critical" \/ raw fi = "high" ->
   canonicalSeverity fi = "high" /\ className h = "dec-info").
Proof.
  intros Hr Hs.
  assert (E : Js.toLowerCase (Js.or_else (h_severity h) "info") = raw fi).
  { rewrite Hs. unfold raw, Js.or_opt. rewrite Hr. unfold Js.or_else.
    destruct (severity fi) as [s|]; [|reflexivity].
    destruct (String.eqb s "") eqn:E0; [reflexivity|]. now rewrite E0. }
  unfold className, canonicalSeverity. rewrite E. clear E.
  destruct (String.eqb_spec (raw fi) "error") as [->|H1].
  { cbn. split; [tauto|]. split; [split; discriminate|]. split; [tauto|].
    split; [discriminate|]. intros [H|H]; discriminate. }
  destruct (String.eqb_spec (raw fi) "warning") as [->|H2].
  { cbn. split; [split; discriminate|]. split; [tauto|]. split; [discriminate|].
    split; [tauto|]. intros [H|H]; discriminate. }
  split; [split; [discriminate|contradiction]|].
  split; [split; [discriminate|contradiction]|].
  split; [discriminate|]. split; [discriminate|].
  intros [-> | ->]; split; reflexivity.
Qed.

Lemma decoration_class_and_bucket_witness :
  canonicalSeverity (with_severity "Critical") = "high" /\
  className {| startLine := 3; endLine := None;
               h_severity := Some "Critical"; message := None |} = "dec-info".
Proof.
  apply (decoration_class_and_bucket (with_severity "Critical")
           {| startLine := 3; endLine := None;
              h_severity := Some "Critical"; message := None |});
    [reflexivity|reflexivity|].
  left. reflexivity.
Defined.

End ViewerSpec.

(** ** Expanded state of the trees *)

Module ExplorerSpec.
Import Tree Explorer.
Local Open Scope Z_scope.

Lemma read_toggle_same (p : string) (m : gmap string bool) :
  read (toggle p m) p = Some (negb (default false (read m p))).
Proof. unfold toggle, read at 1. now rewrite lookup_insert_eq. Qed.

Lemma read_toggle_other (p q : string) (m : gmap string bool) :
  p <> q -> read (toggle p m) q = read m q.
Proof. intros H. unfold toggle, read. now rewrite lookup_insert_ne. Qed.

Lemma default_flip (dflt : bool) (o : option bool) :
  default dflt (Some (negb (default false o))) = negb (default dflt o)
  <-> is_Some o \/ dflt = false.
Proof.
  destruct o as [b|], dflt; cbn; split; intros H; auto;
    try discriminate; try (destruct H as [[? H]|H]; discriminate);
    left; now exists b.
Qed.

(** X8. A click on a row flips what the tree shows for it only when the
    state already has an entry for its path or the row is collapsed by
    default.  In the analyzer and editor trees that is: the node is a
    folder, and its path has an entry (own or inherited) or its level is
    above 1; in the tree of the findings page: the path has an entry or
    the node is not at the top.  So the first click on a folder that is
    open by default and has no entry writes [true] and changes nothing.
    The entry of every other path is left as it was. *)
Theorem toggle_flips_what_is_shown (expanded : gmap string bool) (node : TreeNode)
    (depth : Z) :
  (isExpanded (toggle (n_path node) expanded) node = negb (isExpanded expanded node)
   <-> n_type node = folder /\
       (is_Some (read expanded (n_path node)) \/ 1 < n_level node)) /\
  (isExpandedAt (toggle (n_path node) expanded) node depth
     = negb (isExpandedAt expanded node depth)
   <-> is_Some (read expanded (n_path node)) \/ depth <> 0) /\
  (forall q, q <> n_path node ->
     read (toggle (n_path node) expanded) q = read expanded q).
Proof.
  split; [|split].
  - unfold isExpanded. destruct (n_type node); cbv iota.
    + rewrite read_toggle_same, default_flip, Z.leb_gt. intuition congruence.
    + cbn. intuition discriminate.
  - unfold isExpandedAt. rewrite read_toggle_same, default_flip, Z.eqb_neq. reflexivity.
  - intros q Hq. apply read_toggle_other. congruence.
Qed.

Lemma read_assign (key k : string) (v : bool) (m : gmap string bool) :
  is_Some (read m k) -> is_Some (read (assign key v m) k).
Proof.
  unfold assign. destruct (String.eqb key "__proto__"); [trivial|].
  unfold read. destruct (decide (key = k)) as [->|Hne].
  - rewrite lookup_insert_eq. eauto.
  - now rewrite lookup_insert_ne.
Qed.

Lemma read_assign_same (key : string) (v : bool) (m : gmap string bool) :
  is_Some (read (assign key v m) key).
Proof.
  unfold assign. destruct (String.eqb_spec key "__proto__") as [->|Hne].
  - unfold read. destruct (m !! "__proto__"); [eauto|]. cbn. eauto.
  - unfold read. rewrite lookup_insert_eq. eauto.
Qed.

Lemma defaults_keep (entries : list DirectoryEntry) (m : gmap string bool) (k : string) :
  is_Some (read m k) -> is_Some (read (fold_left defaults_step entries m) k).
Proof.
  revert m. induction entries as [|e entries IH]; intros m H; [exact H|].
  cbn [fold_left]. apply IH. unfold defaults_step.
  destruct (type e); [|exact H]. destruct (level e <=? 1); [|exact H].
  now apply read_assign.
Qed.

Lemma defaults_cover (entries : list DirectoryEntry) (m : gmap string bool)
    (e : DirectoryEntry) :
  In e entries -> type e = folder -> level e <= 1 ->
  is_Some (read (fold_left defaults_step entries m) (path e)).
Proof.
  revert m. induction entries as [|x entries IH]; intros m Hin Ht Hl; [destruct Hin|].
  cbn [fold_left]. destruct Hin as [->|Hin]; [|now apply IH].
  apply defaults_keep. unfold defaults_step. rewrite Ht.
  apply Z.leb_le in Hl. rewrite Hl. apply read_assign_same.
Qed.

(** X9. Once [fetchDirectoryTree] has set its defaults, a click on any
    folder of the listing flips what the tree shows for it. *)
Theorem defaults_make_every_folder_toggle (entries : list DirectoryEntry)
    (e : DirectoryEntry) :
  In e entries -> type e = folder ->
  isExpanded (toggle (path e) (defaults entries)) (node_of e)
  = negb (isExpanded (defaults entries) (node_of e)).
Proof.
  intros Hin Ht. unfold isExpanded, node_of. cbn [n_type n_path n_level]. rewrite Ht.
  rewrite read_toggle_same. apply default_flip.
  destruct (Z.leb_spec (level e) 1) as [Hl|Hl]; [left|now right].
  exact (defaults_cover entries ∅ e Hin Ht Hl).
Qed.


Lemma expand_step_keeps (m : gmap string bool) (node : TreeNode) (k : string) (v : bool) :
  m !! k = Some v -> expand_step m node !! k = Some v.
Proof.
  intros H. unfold expand_step. destruct (read m (n_path node)) eqn:E; [exact H|].
  rewrite lookup_insert_ne; [exact H|]. intros Heq. rewrite Heq in E.
  unfold read in E. now rewrite H in E.
Qed.

Lemma expand_step_read (m : gmap string bool) (node : TreeNode) (k : string) :
  is_Some (read m k) -> is_Some (read (expand_step m node) k).
Proof.
  unfold read at 1. destruct (m !! k) as [b|] eqn:E.
  - intros _. unfold read. rewrite (expand_step_keeps _ _ _ _ E). eauto.
  - intros H. unfold expand_step. destruct (read m (n_path node)) eqn:E'.
    + unfold read. now rewrite E.
    + unfold read. destruct (decide (n_path node = k)) as [<-|Hne].
      * rewrite lookup_insert_eq. eauto.
      * rewrite lookup_insert_ne, E by exact Hne. exact H.
Qed.

Lemma expand_fold_keeps (codeTree : list TreeNode) (m : gmap string bool) (k : string) (v : bool) :
  m !! k = Some v -> fold_left expand_step codeTree m !! k = Some v.
Proof.
  revert m. induction codeTree as [|n t IH]; intros m H; [exact H|].
  cbn [fold_left]. now apply IH, expand_step_keeps.
Qed.

Lemma expand_fold_read (codeTree : list TreeNode) (m : gmap string bool) (k : string) :
  is_Some (read m k) -> is_Some (read (fold_left expand_step codeTree m) k).
Proof.
  revert m. induction codeTree as [|n t IH]; intros m H; [exact H|].
  cbn [fold_left]. now apply IH, expand_step_read.
Qed.

Lemma expand_fold_covers (codeTree : list TreeNode) (m : gmap string bool) (node : TreeNode) :
  In node codeTree -> is_Some (read (fold_left expand_step codeTree m) (n_path node)).
Proof.
  revert m. induction codeTree as [|n t IH]; intros m Hin; [destruct Hin|].
  cbn [fold_left]. destruct Hin as [->|Hin]; [|now apply IH].
  apply expand_fold_read. unfold expand_step.
  destruct (read m (n_path node)) eqn:E; [rewrite E; eauto|].
  unfold read. rewrite lookup_insert_eq. eauto.
Qed.

Lemma expand_fold_fixed (codeTree : list TreeNode) (m : gmap string bool) :
  (forall node, In node codeTree -> is_Some (read m (n_path node))) ->
  fold_left expand_step codeTree m = m.
Proof.
  induction codeTree as [|n t IH]; intros H; [reflexivity|].
  cbn [fold_left]. unfold expand_step at 2.
  destruct (H n (or_introl eq_refl)) as [b ->].
  apply IH. intros node Hn. apply H. now right.
Qed.

Lemma expand_fold_new (codeTree : list TreeNode) (m : gmap string bool) (k : string) (v : bool) :
  fold_left expand_step codeTree m !! k = Some v ->
  m !! k = Some v \/ (v = true /\ exists node, In node codeTree /\ n_path node = k).
Proof.
  revert m. induction codeTree as [|n t IH]; intros m H; [now left|].
  cbn [fold_left] in H. apply IH in H as [H|(-> & node & Hin & <-)].
  - unfold expand_step in H. destruct (read m (n_path n)); [now left|].
    destruct (decide (n_path n = k)) as [<-|Hne].
    + rewrite lookup_insert_eq in H. injection H as <-.
      right. split; [reflexivity|]. exists n. split; [now left|reflexivity].
    + rewrite lookup_insert_ne in H by exact Hne. now left.
  - right. split; [reflexivity|]. exists node. split; [now right|reflexivity].
Qed.

(** X10. The effect of the findings page that follows [codeTree]: an
    empty tree empties the state; otherwise every entry of the state is
    kept, every new entry is [true] under the path of a top-level node,
    every top-level node has an entry afterwards, so that a click on it
    flips what is shown, and running the effect again changes nothing. *)
Theorem expandRoots_opens_roots_once (codeTree : list TreeNode)
    (prev : gmap string bool) :
  let next := expandRoots codeTree prev in
  (codeTree = [] -> next = ∅) /\
  (codeTree <> [] -> forall k v, prev !! k = Some v -> next !! k = Some v) /\
  (forall k v, next !! k = Some v ->
     prev !! k = Some v \/
     (v = true /\ exists node, In node codeTree /\ n_path node = k)) /\
  (forall node, In node codeTree ->
     is_Some (read next (n_path node)) /\
     isExpandedAt (toggle (n_path node) next) node 0
       = negb (isExpandedAt next node 0)) /\
  expandRoots codeTree next = next.
Proof.
  intros next. subst next. destruct codeTree as [|n t].
  - cbn [expandRoots]. case_bool_decide as He.
    + subst prev. rewrite bool_decide_eq_true_2 by reflexivity.
      repeat split; try congruence; try tauto; try contradiction.
    + rewrite bool_decide_eq_true_2 by reflexivity.
      repeat split; try congruence; try tauto; try contradiction.
      intros k v Hk. now rewrite lookup_empty in Hk.
  - unfold expandRoots.
    assert (forall node, In node (n :: t) ->
              is_Some (read (fold_left expand_step (n :: t) prev) (n_path node))) as Hcov
      by (intros node; apply expand_fold_covers).
    repeat split.
    + discriminate.
    + intros _ k v. apply expand_fold_keeps.
    + apply expand_fold_new.
    + now apply Hcov.
    + unfold isExpandedAt. rewrite read_toggle_same. apply default_flip. left. now apply Hcov.
    + now apply expand_fold_fixed.
Qed.

Lemma defaults_make_every_folder_toggle_witness :
  isExpanded
    (toggle "src"
       (defaults [ {| type := folder; name := "src"; path := "src"; level := 0;
                      supported := None |} ]))
    (node_of {| type := folder; name := "src"; path := "src"; level := 0;
                supported := None |})
  = false.
Proof.
  apply (defaults_make_every_folder_toggle
           [ {| type := folder; name := "src"; path := "src"; level := 0;
                supported := None |} ]
           {| type := folder; name := "src"; path := "src"; level := 0;
              supported := None |}).
  - left. reflexivity.
  - reflexivity.
Defined.

End ExplorerSpec.

(** ** The tree of the findings page *)

Module CodeTreeSpec.
Import Tree CodeTree TreeSpec.
Local Open Scope Z_scope.

Lemma PNode_induction (P : PNode -> Prop) :
  (forall name path type children,
     Forall (fun kc => P (snd kc)) children -> P (mkPNode name path type children)) ->
  forall p, P p.
Proof.
  intros H. fix IH 1. intros [name path type children]. apply H.
  induction children as [|[k c] children IHc]; constructor; [apply IH|exact IHc].
Qed.

Lemma upsert_slashed k fresh f f' (children : list (string * PNode)) :
  (forall v, slashed (f v) = f' (slashed v)) ->
  slashed_all (upsert k fresh f children)
  = upsert k (slashed fresh) f' (slashed_all children).
Proof.
  intros Hf. unfold slashed_all.
  induction children as [|[k' v] children IH]; cbn [upsert map].
  - now rewrite Hf.
  - destruct (String.eqb k' k); cbn [map]; [now rewrite Hf|]. now rewrite IH.
Qed.

Lemma slashed_children (v : PNode) : p_children (slashed v) = slashed_all (p_children v).
Proof. now destruct v. Qed.

Lemma slashed_set_children (v : PNode) cs :
  slashed (p_set_children v cs) = p_set_children (slashed v) (slashed_all cs).
Proof. now destruct v. Qed.

Lemma insertSegments_slashed (parts : list string) :
  forall agg children,
    Forall (fun s => s <> ""%string) parts ->
    slashed_all (insertSegments agg parts children)
    = insertParts (slash agg) parts (slashed_all children).
Proof.
  induction parts as [|seg rest IH]; intros agg children Hne; [reflexivity|].
  inversion Hne as [|? ? Hseg Hrest]; subst.
  cbn [insertSegments insertParts].
  destruct (slash_join agg seg Hseg) as [Hs1 Hs2]. rewrite Hs1.
  erewrite upsert_slashed; [reflexivity|].
  intros v. rewrite slashed_set_children, slashed_children, IH by exact Hrest.
  now rewrite Hs2.
Qed.


(** *** Tidy tries *)

Lemma tidy_all_spec (children : list (string * PNode)) :
  tidy_all children = true <->
  List.NoDup (map fst children) /\
  Forall (fun kc => p_name (snd kc) = fst kc /\ tidy (snd kc) = true) children.
Proof.
  unfold tidy_all. rewrite andb_true_iff, forallb_forall, List.Forall_forall.
  rewrite (distinct_NoDup String.eqb) by apply String.eqb_eq.
  split; intros [H1 H2]; (split; [exact H1|]); intros [k c] Hin; specialize (H2 _ Hin);
    cbn in *.
  - apply andb_true_iff in H2 as [H2 H3]. apply String.eqb_eq in H2. auto.
  - destruct H2 as [-> H3]. now rewrite String.eqb_refl.
Qed.

Lemma tidy_node name path type children :
  tidy (mkPNode name path type children) = tidy_all children.
Proof. reflexivity. Qed.

Lemma upsert_tidy k fresh f (children : list (string * PNode)) :
  tidy_all children = true ->
  p_name (f fresh) = k -> tidy (f fresh) = true ->
  (forall v, p_name v = k -> tidy v = true -> p_name (f v) = k /\ tidy (f v) = true) ->
  tidy_all (upsert k fresh f children) = true.
Proof.
  rewrite !tidy_all_spec. intros [Hnd Hall] Hn Ht Hf.
  induction children as [|[k' v] children IH]; cbn [upsert].
  - split; [repeat constructor; intros []|]. repeat constructor; assumption.
  - cbn [map fst] in Hnd. apply List.NoDup_cons_iff in Hnd as [Hk' Hnd].
    apply List.Forall_cons_iff in Hall as [[Hv1 Hv2] Hall]. cbn [fst snd] in Hv1, Hv2.
    destruct (String.eqb_spec k' k) as [->|Hne].
    + split; [cbn [map fst]; apply List.NoDup_cons_iff; auto|].
      constructor; [|exact Hall]. cbn [fst snd]. now apply Hf.
    + destruct (IH Hnd Hall) as [IH1 IH2]. split.
      * cbn [map fst]. apply List.NoDup_cons_iff. split; [|exact IH1].
        intros Hin. apply Hk'. clear - Hin Hne.
        induction children as [|[k2 v2] children IHc]; cbn [upsert map fst] in Hin.
        -- destruct Hin as [->|[]]. congruence.
        -- destruct (String.eqb k2 k); cbn [map fst] in Hin |- *; [exact Hin|].
           destruct Hin as [->|Hin]; [now left|right; now apply IHc].
      * constructor; [now split|exact IH2].
Qed.

Lemma insertSegments_tidy (parts : list string) :
  forall agg children,
    tidy_all children = true -> tidy_all (insertSegments agg parts children) = true.
Proof.
  induction parts as [|seg rest IH]; intros agg children Ht; [exact Ht|].
  cbn [insertSegments]. apply upsert_tidy; [exact Ht|reflexivity| |].
  - cbn [p_set_children p_children]. rewrite tidy_node. now apply IH.
  - intros [n p t cs] Hn Hv. cbn [p_set_children p_children p_name] in *.
    split; [exact Hn|]. rewrite tidy_node in *. now apply IH.
Qed.

(** *** Reading a trie in the order of its keys *)

Lemma assoc_mapped {A B} (g : A -> B) (children : list (string * A)) (k : string) :
  assoc k (map (fun kc => let '(k, c) := kc in (k, g c)) children)
  = option_map g (assoc k children).
Proof.
  induction children as [|[k' c] children IH]; [reflexivity|].
  cbn. destruct (String.eqb k' k); [reflexivity|exact IH].
Qed.

Lemma keys_mapped {A B} (g : A -> B) (children : list (string * A)) :
  map fst (map (fun kc => let '(k, c) := kc in (k, g c)) children) = map fst children.
Proof.
  induction children as [|[k' c] children IH]; [reflexivity|]. cbn. now rewrite IH.
Qed.

Lemma pick_mapped {A B} (g : A -> B) (children : list (string * A)) (keys : list string) :
  pick (map (fun kc => let '(k, c) := kc in (k, g c)) children) keys
  = map g (pick children keys).
Proof.
  unfold pick. induction keys as [|k keys IH]; [reflexivity|].
  simpl. rewrite assoc_mapped. destruct (assoc k children); simpl.
  - f_equal. exact IH.
  - exact IH.
Qed.

Lemma assoc_In_value {A} (children : list (string * A)) (k : string) (c : A) :
  assoc k children = Some c -> In (k, c) children.
Proof.
  induction children as [|[k' c'] children IH]; [discriminate|].
  cbn. destruct (String.eqb_spec k' k) as [->|_].
  - intros [= ->]. now left.
  - intros H. right. now apply IH.
Qed.

Lemma assoc_key {A} (children : list (string * A)) (k : string) :
  In k (map fst children) -> exists c, assoc k children = Some c.
Proof.
  induction children as [|[k' c'] children IH]; [intros []|].
  cbn. destruct (String.eqb_spec k' k) as [->|Hne]; [eauto|].
  intros [H|H]; [congruence|now apply IH].
Qed.

Lemma pick_In {A} (children : list (string * A)) (keys : list string) (c : A) :
  In c (pick children keys) -> exists k, In (k, c) children.
Proof.
  unfold pick. induction keys as [|k keys IH]; [intros []|].
  simpl. destruct (assoc k children) as [c'|] eqn:E; simpl; [|exact IH].
  intros [<-|H]; [|now apply IH]. exists k. now apply assoc_In_value.
Qed.

Lemma pick_insert (children : list (string * PNode)) (k : string) (c : PNode)
    (keys : list string) :
  Forall (fun kc => p_name (snd kc) = fst kc) children ->
  assoc k children = Some c ->
  (forall y, In y keys -> In y (map fst children)) ->
  pick children (insert_by (fun x => x) k keys) = insert_by p_name c (pick children keys).
Proof.
  intros Hname Hk. induction keys as [|y keys IH]; intros Hsub.
  - unfold pick. simpl. now rewrite Hk.
  - destruct (assoc_key children y) as [cy Hy]; [apply Hsub; now left|].
    assert (p_name cy = y) as Hcy.
    { apply assoc_In_value in Hy. rewrite List.Forall_forall in Hname.
      exact (Hname _ Hy). }
    assert (p_name c = k) as Hc.
    { apply assoc_In_value in Hk. rewrite List.Forall_forall in Hname.
      exact (Hname _ Hk). }
    unfold pick in *. cbn [insert_by]. simpl omap at 2. rewrite Hy. simpl.
    rewrite Hc, Hcy. destruct (String.leb k y).
    + simpl. rewrite Hk, Hy. reflexivity.
    + simpl. rewrite Hy. simpl. f_equal. apply IH. intros z Hz. apply Hsub. now right.
Qed.

Lemma pick_sorted (children : list (string * PNode)) (keys : list string) :
  Forall (fun kc => p_name (snd kc) = fst kc) children ->
  (forall y, In y keys -> In y (map fst children)) ->
  sort_by p_name (pick children keys) = pick children (sort_by (fun x => x) keys).
Proof.
  intros Hname. induction keys as [|k keys IH]; intros Hsub; [reflexivity|].
  destruct (assoc_key children k) as [c Hk]; [apply Hsub; now left|].
  cbn [sort_by fold_right]. fold (sort_by (fun x : string => x) keys).
  rewrite (pick_insert children k c _ Hname Hk).
  - rewrite <- IH by (intros z Hz; apply Hsub; now right).
    unfold pick. simpl. rewrite Hk. reflexivity.
  - intros y Hy. apply In_sort_by in Hy. apply Hsub. now right.
Qed.

Lemma insert_cmp_perm cmp (x : string) (l : list string) :
  Permutation (insert_cmp cmp x l) (x :: l).
Proof.
  induction l as [|y l IH]; cbn; [reflexivity|].
  destruct (cmp x y <=? 0); [reflexivity|]. rewrite IH. apply perm_swap.
Qed.

Lemma sort_cmp_perm cmp (l : list string) : Permutation (sort_cmp cmp l) l.
Proof.
  induction l as [|x l IH]; cbn; [reflexivity|].
  fold (sort_cmp cmp l). rewrite insert_cmp_perm. now constructor.
Qed.

Lemma toEntry_name cmp (c : PNode) : n_name (toEntry cmp c) = p_name c.
Proof. now destruct c. Qed.

Lemma toNode_slashed_name lvl (c : PNode) : n_name (erase (toNode lvl (slashed c))) = p_name c.
Proof. now destruct c. Qed.

(** The entries of a tidy trie, once sorted by name, are the nodes the
    editor page reads from the same trie. *)
Lemma entries_sorted cmp lvl (children : list (string * PNode)) :
  tidy_all children = true ->
  Forall (fun kc => canonical (toEntry cmp (snd kc))
                    = erase (toNode lvl (slashed (snd kc)))) children ->
  sort_by n_name (map canonical (toEntries cmp children))
  = map erase (toNodes lvl (slashed_all children)).
Proof.
  intros Ht Hshape. apply tidy_all_spec in Ht as [Hnd Hall].
  assert (Forall (fun kc => p_name (snd kc) = fst kc) children) as Hname
    by (eapply List.Forall_impl; [|exact Hall]; cbn; tauto).
  unfold toEntries, toNodes, in_key_order, slashed_all.
  change (omap (fun k => assoc k ?l) ?ks) with (pick l ks).
  rewrite !pick_mapped, !keys_mapped, !List.map_map.
  rewrite <- (sorted_keys_any_order _ _ (sort_cmp_perm cmp (map fst children))).
  rewrite <- pick_sorted;
    [|exact Hname|intros y Hy; eapply Permutation_in; [apply sort_cmp_perm|exact Hy]].
  rewrite <- (sort_by_map (fun c => erase (toNode lvl (slashed c))) p_name n_name)
    by (intros c; apply toNode_slashed_name).
  f_equal. apply List.map_ext_in. intros c Hc.
  apply pick_In in Hc as [k Hk]. rewrite List.Forall_forall in Hshape.
  exact (Hshape _ Hk).
Qed.

Lemma entry_shape cmp (p : PNode) :
  tidy p = true -> forall lvl, canonical (toEntry cmp p) = erase (toNode lvl (slashed p)).
Proof.
  induction p as [name path type children IH] using PNode_induction.
  intros Ht lvl. rewrite tidy_node in Ht.
  destruct type; [|reflexivity].
  cbn [toEntry slashed toNode canonical erase option_map]. do 2 f_equal.
  apply (entries_sorted cmp (lvl + 1) children Ht).
  apply tidy_all_spec in Ht as [_ Hall].
  rewrite List.Forall_forall in IH, Hall |- *. intros kc Hin.
  apply IH; [exact Hin|]. now apply Hall.
Qed.

Lemma roots_slashed (paths : list string) :
  forall root,
    slashed_all
      (fold_left (fun root full =>
                    if String.eqb full "" then root
                    else insertSegments "" (parts_of full) root) paths root)
    = fold_left (fun root full => insertParts "" (parts_of full) root) paths
        (slashed_all root).
Proof.
  induction paths as [|p paths IH]; intros root; [reflexivity|].
  cbn [fold_left]. rewrite IH. f_equal.
  destruct (String.eqb_spec p "") as [->|_]; [reflexivity|].
  exact (insertSegments_slashed (parts_of p) "" root (parts_of_nonempty p)).
Qed.

Lemma roots_tidy (paths : list string) :
  forall root, tidy_all root = true ->
    tidy_all
      (fold_left (fun root full =>
                    if String.eqb full "" then root
                    else insertSegments "" (parts_of full) root) paths root) = true.
Proof.
  induction paths as [|p paths IH]; intros root Ht; [exact Ht|].
  cbn [fold_left]. apply IH. destruct (String.eqb p ""); [exact Ht|].
  now apply insertSegments_tidy.
Qed.

(** X11. For paths whose segments are ordinary keys, the tree of the
    findings page is the tree the editor page builds from the same paths,
    up to the order of the siblings and the leading slash of the editor's
    paths: with every sibling array sorted by name and every path given
    the slash, [buildTreeFromPaths] returns what [buildTreeFromFilePaths]
    returns with level and [supported] forgotten.  This holds whatever
    [localeCompare] answers. *)
Theorem buildTreeFromPaths_same_tree (localeCompare : string -> string -> Z)
    (paths : list string) :
  plain_keys paths ->
  canonical_forest (buildTreeFromPaths localeCompare paths)
  = map erase (buildTreeFromFilePaths paths).
Proof.
  intros _. unfold buildTreeFromPaths, buildTreeFromFilePaths, canonical_forest.
  pose proof (roots_slashed paths []) as Hr. change (slashed_all []) with (@nil (string * PNode)) in Hr.
  rewrite <- Hr.
  pose proof (roots_tidy paths [] eq_refl) as Ht.
  apply entries_sorted; [exact Ht|].
  apply tidy_all_spec in Ht as [_ Hall].
  eapply List.Forall_impl; [|exact Hall]. cbn. intros kc [_ H].
  now apply entry_shape.
Qed.

Lemma buildTreeFromPaths_same_tree_witness :
  canonical_forest (buildTreeFromPaths by_code_units project)
  = map erase (buildTreeFromFilePaths project) /\
  map n_path (buildTreeFromPaths by_code_units project) = ["readme.md"; "src"]%string.
Proof.
  split; [|reflexivity].
  apply (buildTreeFromPaths_same_tree by_code_units project).
  intros p seg Hp Hseg Hin.
  cbn in Hp. repeat destruct Hp as [<-|Hp]; try contradiction;
    cbn in Hseg; repeat destruct Hseg as [<-|Hseg]; try contradiction;
    cbn in Hin; repeat destruct Hin as [Hin|Hin]; try discriminate; contradiction.
Defined.

End CodeTreeSpec.

(** ** Files and repeated paths in the analyzer tree *)

Module WalkSpec.
Import Tree Walk TreeSpec StringFacts.
Local Open Scope Z_scope.

Lemma files_of_app (F G : list TreeNode) :
  files_of (F ++ G) = (files_of F ++ files_of G)%list.
Proof. unfold files_of. apply flat_map_app. Qed.

Lemma files_of_cons (n : TreeNode) (F : list TreeNode) :
  files_of (n :: F) = (files_of_node n ++ files_of F)%list.
Proof. reflexivity. Qed.

Lemma joined_cons agg seg rest : joined agg (seg :: rest) = joined (join agg seg) rest.
Proof. reflexivity. Qed.

Lemma files_insertE (parts : list string) :
  forall agg i arr q,
    Forall (fun s => s <> ""%string) parts -> parts <> [] -> wf agg i arr ->
    (In q (files_of (insertE agg i parts arr))
     <-> In q (files_of arr) \/ q = joined agg parts).
Proof.
  induction parts as [|seg rest IH]; intros agg i arr q Hne Hnil Hwf; [congruence|].
  inversion Hne as [|? ? Hseg Hrest]; subst.
  destruct (addUnique arr (fresh agg i seg rest)) as [[l added] r] eqn:E.
  rewrite (insertE_cons _ _ _ _ _ _ _ _ E).
  destruct (addUnique_wf _ _ _ _ _ _ _ _ Hwf Hseg E)
    as (Hl & Ha & Hr & Hn & Ht & _ & Hcase).
  destruct (wf_one_inv _ _ _ Ha) as (_ & Hp & _ & Hk). rewrite Hn in Hp.
  rewrite files_of_app, files_of_cons, !in_app_iff, joined_cons.
  assert (In q (files_of_node (grown agg i seg rest added))
          <-> In q (files_of_node added) \/ q = joined (join agg seg) rest) as Hg.
  { unfold grown. rewrite Ht in Hk. destruct (is_last rest) eqn:El.
    - destruct Hk as (cs & Hcs & Hwcs).
      destruct added as [an ap aty al asup ach]. cbn in Hn, Hp, Ht, Hcs, Hwcs |- *. subst.
      destruct rest as [|seg' rest']; [discriminate|].
      apply IH; [exact Hrest|discriminate|exact Hwcs].
    - destruct rest; [|discriminate].
      destruct added as [an ap aty al asup ach]. cbn in Hn, Hp, Ht, Hk |- *. subst.
      cbn. intuition. }
  rewrite Hg. destruct Hcase as [->|(-> & -> & ->)].
  - rewrite files_of_app, files_of_cons, !in_app_iff. tauto.
  - unfold fresh. destruct rest; cbn; intuition.
Qed.

Lemma files_insertPaths (paths : list string) :
  forall arr q, wf "" 0 arr ->
    (In q (files_of (insertPaths paths arr))
     <-> In q (files_of arr) \/
         exists p, In p paths /\ parts_of p <> [] /\ q = joined "" (parts_of p)).
Proof.
  induction paths as [|p paths IH]; intros arr q Hwf.
  - cbn. split; [auto|]. intros [H|(p & [] & _)]. exact H.
  - change (insertPaths (p :: paths) arr)
      with (insertPaths paths (insertE "" 0 (parts_of p) arr)).
    rewrite IH by (apply wf_insertE; [apply parts_of_nonempty|exact Hwf]).
    destruct (parts_of p) as [|seg rest] eqn:Ep.
    + cbn [insertE]. split.
      * intros [H|(p' & Hin & Hp')]; [now left|]. right. exists p'. split; [now right|exact Hp'].
      * intros [H|(p' & [<-|Hin] & Hne & Hq)]; [now left|congruence|].
        right. exists p'. auto.
    + rewrite files_insertE;
        [|rewrite <- Ep; apply parts_of_nonempty|discriminate|exact Hwf].
      split.
      * intros [[H| ->]|(p' & Hin & Hp')]; [now left| |].
        -- right. exists p. rewrite Ep. split; [now left|]. split; [discriminate|reflexivity].
        -- right. exists p'. split; [now right|exact Hp'].
      * intros [H|(p' & [<-|Hin] & Hne & Hq)]; [now left; left| |].
        -- left; right. now rewrite Hq, Ep.
        -- right. exists p'. auto.
Qed.

Lemma concat_shift (a x : string) (xs : list string) :
  String.concat "/" ((a +:+ "/" +:+ x) :: xs) = a +:+ "/" +:+ String.concat "/" (x :: xs).
Proof.
  destruct xs as [|y ys]; cbn [String.concat]; [reflexivity|].
  now rewrite !string_app_assoc.
Qed.

Lemma joined_concat (xs : list string) :
  forall a, a <> ""%string -> joined a xs = String.concat "/" (a :: xs).
Proof.
  induction xs as [|x xs IH]; intros a Ha; [reflexivity|].
  rewrite joined_cons. unfold join at 1.
  destruct (String.eqb_spec a "") as [->|_]; [congruence|].
  rewrite IH, concat_shift; [reflexivity|].
  destruct a; [congruence|discriminate].
Qed.

Lemma joined_parts (parts : list string) :
  Forall (fun s => s <> ""%string) parts ->
  joined "" parts = String.concat "/" parts.
Proof.
  intros H. destruct H as [|x xs Hx _]; [reflexivity|].
  rewrite joined_cons. unfold join at 1. cbn [String.eqb].
  now apply joined_concat.
Qed.

(** X12. The file nodes of the tree that [buildTree] makes of the entries
    derived from a list of paths are the paths of the list, each with its
    empty segments dropped and its segments joined by [/]; a path without
    a segment gives no node.  No file is lost and none is invented. *)
Theorem buildTree_files_are_the_paths (paths : list string) (q : string) :
  In q (files_of (buildTree (entriesOfPaths paths))) <->
  exists p, In p paths /\ parts_of p <> [] /\ q = String.concat "/" (parts_of p).
Proof.
  rewrite buildTree_insertPaths, files_insertPaths by constructor.
  split.
  - intros [[]|(p & Hin & Hne & ->)]. exists p.
    rewrite joined_parts by apply parts_of_nonempty. auto.
  - intros (p & Hin & Hne & ->). right. exists p.
    rewrite joined_parts by apply parts_of_nonempty. auto.
Qed.


(** *** A path that is listed again *)

Lemma find_app (node : TreeNode) (a b : list TreeNode) :
  find node (a ++ b)
  = match find node a with Some n => Some n | None => find node b end.
Proof.
  unfold find. induction a as [|x a IH]; [reflexivity|].
  cbn. destruct (same_key node x); [reflexivity|exact IH].
Qed.

Lemma find_locate (node : TreeNode) (arr : list TreeNode) :
  find node arr
  = match locate node arr with Some (_, n, _) => Some n | None => None end.
Proof.
  unfold find. induction arr as [|x arr IH]; [reflexivity|].
  cbn. destruct (same_key node x); [reflexivity|].
  rewrite IH. now destruct (locate node arr) as [[[l n] r]|].
Qed.

Lemma find_none (node : TreeNode) (l : list TreeNode) :
  Forall (fun n => same_key node n = false) l -> find node l = None.
Proof.
  unfold find. induction 1 as [|x l Hx _ IH]; [reflexivity|].
  cbn. now rewrite Hx.
Qed.

Lemma same_key_grown (node : TreeNode) agg i seg rest added :
  same_key node (grown agg i seg rest added) = same_key node added.
Proof. unfold grown. destruct (is_last rest), added; reflexivity. Qed.

Lemma same_key_added agg i seg rest (added : TreeNode) :
  wf agg i [added] -> n_name added = seg -> n_type added = is_last rest ->
  same_key (fresh agg i seg rest) added = true.
Proof.
  intros Ha Hn Ht. destruct (wf_one_inv _ _ _ Ha) as (_ & Hp & _).
  apply same_key_spec. rewrite Hp, Hn, Ht. split; reflexivity.
Qed.

Lemma grown_children agg i seg rest (added : TreeNode) :
  is_last rest = folder ->
  children_or_empty (grown agg i seg rest added)
  = insertE (join agg seg) (i + 1) rest (children_or_empty added).
Proof. unfold grown. intros ->. now destruct added. Qed.

Lemma folder_children agg i (n : TreeNode) :
  wf agg i [n] -> n_type n = folder ->
  set_children n (Some (children_or_empty n)) = n /\
  wf (n_path n) (i + 1) (children_or_empty n).
Proof.
  intros Hw Ht. destruct (wf_one_inv _ _ _ Hw) as (_ & _ & _ & Hk).
  rewrite Ht in Hk. destruct Hk as (cs & Hcs & Hwcs).
  destruct n as [nn np nt nl ns nc]. cbn in *. subst. split; [reflexivity|exact Hwcs].
Qed.

(** Inserting a path whose nodes are all there changes nothing. *)
Lemma present_insertE (parts : list string) :
  forall agg i arr,
    Forall (fun s => s <> ""%string) parts -> wf agg i arr ->
    present agg i parts arr = true -> insertE agg i parts arr = arr.
Proof.
  induction parts as [|seg rest IH]; intros agg i arr Hne Hwf Hp; [reflexivity|].
  inversion Hne as [|? ? Hseg Hrest]; subst.
  cbn [present] in Hp. rewrite find_locate in Hp.
  destruct (addUnique arr (fresh agg i seg rest)) as [[l added] r] eqn:E.
  rewrite (insertE_cons _ _ _ _ _ _ _ _ E).
  destruct (addUnique_wf _ _ _ _ _ _ _ _ Hwf Hseg E)
    as (Hl & Ha & Hr & Hn & Ht & _ & _).
  unfold addUnique in E.
  destruct (locate (fresh agg i seg rest) arr) as [[[l' n] r']|] eqn:El; [|discriminate].
  injection E as -> -> ->. apply locate_Some in El as (-> & _ & _).
  do 2 f_equal. unfold grown. destruct (is_last rest) eqn:Elast; [|reflexivity].
  destruct (folder_children _ _ _ Ha Ht) as [Hsame Hwcs].
  destruct (wf_one_inv _ _ _ Ha) as (_ & Hpath & _). rewrite Hn in Hpath.
  rewrite Hpath in Hwcs.
  rewrite (IH _ _ _ Hrest Hwcs Hp). exact Hsame.
Qed.

(** Once a path is inserted its nodes are all there. *)
Lemma insertE_present (parts : list string) :
  forall agg i arr,
    Forall (fun s => s <> ""%string) parts -> wf agg i arr ->
    present agg i parts (insertE agg i parts arr) = true.
Proof.
  induction parts as [|seg rest IH]; intros agg i arr Hne Hwf; [reflexivity|].
  inversion Hne as [|? ? Hseg Hrest]; subst.
  destruct (addUnique arr (fresh agg i seg rest)) as [[l added] r] eqn:E.
  rewrite (insertE_cons _ _ _ _ _ _ _ _ E).
  destruct (addUnique_wf _ _ _ _ _ _ _ _ Hwf Hseg E)
    as (Hl & Ha & Hr & Hn & Ht & Hfree & _).
  cbn [present]. rewrite find_app, (find_none _ _ Hfree).
  unfold find. cbn [List.find].
  rewrite same_key_grown, (same_key_added _ _ _ _ _ Ha Hn Ht).
  destruct (is_last rest) eqn:Elast; [|reflexivity].
  rewrite grown_children by exact Elast.
  destruct (folder_children _ _ _ Ha Ht) as [_ Hwcs].
  destruct (wf_one_inv _ _ _ Ha) as (_ & Hpath & _). rewrite Hn in Hpath.
  rewrite Hpath in Hwcs. now apply IH.
Qed.

(** Inserting another path leaves them there. *)
Lemma present_kept (parts : list string) :
  forall parts' agg i arr,
    Forall (fun s => s <> ""%string) parts -> Forall (fun s => s <> ""%string) parts' ->
    wf agg i arr -> present agg i parts arr = true ->
    present agg i parts (insertE agg i parts' arr) = true.
Proof.
  induction parts as [|seg rest IH]; intros parts' agg i arr Hne Hne' Hwf Hp; [reflexivity|].
  destruct parts' as [|seg' rest']; [exact Hp|].
  inversion Hne as [|? ? Hseg Hrest]; subst.
  inversion Hne' as [|? ? Hseg' Hrest']; subst.
  destruct (addUnique arr (fresh agg i seg' rest')) as [[l added] r] eqn:E.
  rewrite (insertE_cons _ _ _ _ _ _ _ _ E).
  destruct (addUnique_wf _ _ _ _ _ _ _ _ Hwf Hseg' E)
    as (Hl & Ha & Hr & Hn & Ht & Hfree & Hcase).
  cbn [present] in Hp |- *.
  set (k := fresh agg i seg rest) in *.
  destruct Hcase as [->|(-> & -> & ->)].
  - rewrite find_app in Hp |- *.
    destruct (find k l) as [n|]; [exact Hp|].
    unfold find in Hp |- *. cbn [List.find] in Hp |- *.
    rewrite same_key_grown.
    destruct (same_key k added) eqn:Ek; [|exact Hp].
    (* the node both paths go through *)
    pose proof (same_key_added _ _ _ _ _ Ha Hn Ht) as Ek'.
    apply same_key_spec in Ek as [Ep Ety]. apply same_key_spec in Ek' as [Ep' Ety'].
    subst k. cbn [fresh n_path n_type] in Ep, Ety, Ep', Ety'.
    assert (seg' = seg) as -> by (apply (join_inj agg); congruence).
    assert (is_last rest' = is_last rest) as Elast by congruence.
    destruct (is_last rest) eqn:Er; [|reflexivity].
    rewrite grown_children by exact Elast.
    destruct (folder_children _ _ _ Ha Ety) as [_ Hwcs]. rewrite Ep in Hwcs.
    now apply IH.
  - rewrite find_app. destruct (find k l) as [n|]; [exact Hp|discriminate].
Qed.

Lemma insertPaths_app (a b : list string) (arr : list TreeNode) :
  insertPaths (a ++ b) arr = insertPaths b (insertPaths a arr).
Proof. unfold insertPaths. apply fold_left_app. Qed.

Lemma present_insertPaths (paths : list string) :
  forall arr p, wf "" 0 arr ->
    present "" 0 (parts_of p) arr = true \/ In p paths ->
    present "" 0 (parts_of p) (insertPaths paths arr) = true.
Proof.
  induction paths as [|x paths IH]; intros arr p Hwf H.
  - destruct H as [H|[]]. exact H.
  - change (insertPaths (x :: paths) arr)
      with (insertPaths paths (insertE "" 0 (parts_of x) arr)).
    apply IH; [apply wf_insertE; [apply parts_of_nonempty|exact Hwf]|].
    destruct H as [H|[->|H]]; [left|left|now right].
    + apply present_kept; auto using parts_of_nonempty.
    + apply insertE_present; auto using parts_of_nonempty.
Qed.

Lemma listed_again (extra : list string) :
  forall arr, wf "" 0 arr ->
    (forall p, In p extra -> present "" 0 (parts_of p) arr = true) ->
    insertPaths extra arr = arr.
Proof.
  induction extra as [|p extra IH]; intros arr Hwf H; [reflexivity|].
  change (insertPaths (p :: extra) arr)
    with (insertPaths extra (insertE "" 0 (parts_of p) arr)).
  rewrite present_insertE;
    [|apply parts_of_nonempty|exact Hwf|apply H; now left].
  apply IH; [exact Hwf|]. intros q Hq. apply H. now right.
Qed.

(** X13. Paths that are listed again change nothing: when every path of
    [extra] is already among [paths], [buildTree] makes the same tree of
    the entries of [paths ++ extra] as of those of [paths]. *)
Theorem buildTree_ignores_repeated_paths (paths extra : list string) :
  (forall p, In p extra -> In p paths) ->
  buildTree (entriesOfPaths (paths ++ extra)) = buildTree (entriesOfPaths paths).
Proof.
  intros Hsub. rewrite !buildTree_insertPaths, insertPaths_app.
  apply listed_again; [apply wf_insertPaths; constructor|].
  intros p Hp. apply present_insertPaths; [constructor|]. right. now apply Hsub.
Qed.

Lemma buildTree_ignores_repeated_paths_witness :
  buildTree (entriesOfPaths (three_paths ++ ["src/a.ts"; "readme.md"]%string))
  = buildTree (entriesOfPaths three_paths).
Proof.
  apply (buildTree_ignores_repeated_paths three_paths ["src/a.ts"; "readme.md"]%string).
  intros p Hp. cbn in Hp. destruct Hp as [<-|[<-|[]]]; cbn; tauto.
Defined.

End WalkSpec.

(** ** Counts of the editor tree *)

Module EditorSpec.
Import Text Tree CodeTree Editor TreeSpec CodeTreeSpec.
Local Open Scope Z_scope.

Lemma rooted_all_spec (children : list (string * PNode)) :
  rooted_all children = true <-> Forall (fun kc => rooted (snd kc) = true) children.
Proof.
  unfold rooted_all. rewrite forallb_forall, List.Forall_forall.
  split; intros H [k c] Hin; exact (H _ Hin).
Qed.

Lemma rooted_node name path type children :
  rooted (mkPNode name path type children)
  = startsWith "/" path && rooted_all children.
Proof. reflexivity. Qed.

Lemma upsert_rooted k fresh f (children : list (string * PNode)) :
  rooted_all children = true -> rooted (f fresh) = true ->
  (forall v, rooted v = true -> rooted (f v) = true) ->
  rooted_all (upsert k fresh f children) = true.
Proof.
  rewrite !rooted_all_spec. intros Hall Hfresh Hf.
  induction Hall as [|[k' v] children Hv Hrest IH]; cbn [upsert].
  - repeat constructor. exact Hfresh.
  - cbn [snd] in Hv. destruct (String.eqb k' k).
    + constructor; [cbn [snd]; now apply Hf|exact Hrest].
    + constructor; [exact Hv|exact IH].
Qed.

Lemma slash_prefix (agg seg : string) :
  agg = ""%string \/ startsWith "/" agg = true ->
  startsWith "/" (agg +:+ "/" +:+ seg) = true.
Proof.
  intros [->|H]; [reflexivity|]. destruct agg as [|c agg]; [discriminate|].
  cbn in H |- *. now destruct (Ascii.eqb "/" c).
Qed.

Lemma insertParts_rooted (parts : list string) :
  forall agg children,
    agg = ""%string \/ startsWith "/" agg = true ->
    rooted_all children = true -> rooted_all (insertParts agg parts children) = true.
Proof.
  induction parts as [|seg rest IH]; intros agg children Hagg Hr; [exact Hr|].
  cbn [insertParts].
  pose proof (slash_prefix agg seg Hagg) as Hp.
  apply upsert_rooted; [exact Hr| |].
  - cbn [p_set_children p_children]. rewrite rooted_node, Hp. cbn [andb].
    apply IH; [now right|reflexivity].
  - intros [n p t cs]. rewrite rooted_node. intros [H1 H2]%andb_true_iff.
    cbn [p_set_children p_children]. rewrite rooted_node, H1. cbn [andb].
    apply IH; [now right|exact H2].
Qed.

Lemma nodes_of_toNode (c : PNode) :
  rooted c = true ->
  forall lvl node, In node (nodes_of_node (toNode lvl c)) ->
    startsWith "/" (n_path node) = true.
Proof.
  induction c as [name path type children IH] using PNode_induction.
  rewrite rooted_node. intros [Hp Hr]%andb_true_iff lvl node.
  cbn [toNode nodes_of_node]. intros [<-|Hin]; [exact Hp|].
  destruct type; [|destruct Hin].
  apply in_flat_map in Hin as (child & Hchild & Hnode).
  unfold in_key_order in Hchild.
  change (omap (fun k => assoc k ?l) ?ks) with (pick l ks) in Hchild.
  rewrite pick_mapped in Hchild. apply List.in_map_iff in Hchild as (c & <- & Hc).
  apply pick_In in Hc as [k Hk].
  apply rooted_all_spec in Hr. rewrite List.Forall_forall in IH, Hr.
  exact (IH _ Hk (Hr _ Hk) _ _ Hnode).
Qed.

Lemma root_rooted (paths : list string) :
  forall root, rooted_all root = true ->
    rooted_all
      (fold_left (fun root full => insertParts "" (parts_of full) root) paths root)
    = true.
Proof.
  induction paths as [|p paths IH]; intros root Hroot; [exact Hroot|].
  cbn [fold_left]. apply IH, insertParts_rooted; [now left|exact Hroot].
Qed.

Lemma tree_paths_rooted (paths : list string) (node : TreeNode) :
  In node (nodes_of (buildTreeFromFilePaths paths)) ->
  startsWith "/" (n_path node) = true.
Proof.
  unfold buildTreeFromFilePaths, nodes_of, toNodes, in_key_order.
  change (omap (fun k => assoc k ?l) ?ks) with (pick l ks).
  rewrite pick_mapped. intros Hin. apply in_flat_map in Hin as (n & Hn & Hnode).
  apply List.in_map_iff in Hn as (c & <- & Hc). apply pick_In in Hc as [k Hk].
  pose proof (root_rooted paths [] eq_refl) as Hr.
  apply rooted_all_spec in Hr. rewrite List.Forall_forall in Hr.
  exact (nodes_of_toNode c (Hr _ Hk) _ _ Hnode).
Qed.


(** *** The counts *)

Lemma len_nonneg {A} (xs : option (list A)) : 0 <= len xs.
Proof. destruct xs; cbn; lia. Qed.

Lemma findings_in_nonneg (a : BasicCryptoAnalysis) : 0 <= findings_in a.
Proof.
  unfold findings_in.
  pose proof (len_nonneg (crypto_imports a)). pose proof (len_nonneg (crypto_functions a)).
  pose proof (len_nonneg (crypto_patterns_found a)).
  pose proof (len_nonneg (crypto_algorithms_detected a)). lia.
Qed.

Lemma recorded (files : list BasicCryptoAnalysis) (inv : string -> Z -> Prop) :
  (forall a, In a files -> inv (file_path a) (findings_in a)) ->
  forall map, (forall k v, map !! k = Some v -> inv k v) ->
    forall k v, fold_left record files map !! k = Some v -> inv k v.
Proof.
  induction files as [|a files IH]; intros Hfiles map Hmap k v H; [exact (Hmap k v H)|].
  cbn [fold_left] in H. revert H. apply IH.
  - intros b Hb. apply Hfiles. now right.
  - intros k' v'. unfold record. destruct (String.eqb (file_path a) "__proto__"); [apply Hmap|].
    destruct (decide (file_path a = k')) as [<-|Hne].
    + rewrite lookup_insert_eq. intros [= <-]. apply Hfiles. now left.
    + rewrite lookup_insert_ne by exact Hne. apply Hmap.
Qed.

Lemma startsWith_trans (a b c : string) :
  startsWith a b = true -> startsWith b c = true -> startsWith a c = true.
Proof.
  revert b c. induction a as [|x a IH]; intros [|y b] [|z c]; cbn; try congruence.
  intros [H1 H2]%andb_true_iff [H3 H4]%andb_true_iff.
  apply Ascii.eqb_eq in H1, H3. subst. rewrite Ascii.eqb_refl. cbn. eauto.
Qed.

Lemma startsWith_app (a b : string) : startsWith a (a +:+ b) = true.
Proof.
  induction a as [|x a IH]; [reflexivity|].
  change (String x a +:+ b) with (String x (a +:+ b)). cbn.
  now rewrite Ascii.eqb_refl.
Qed.

Lemma folder_prefix_rooted (q : string) :
  startsWith "/" q = true -> startsWith "/" (folder_prefix q) = true.
Proof.
  intros H. unfold folder_prefix. destruct (ends_with_slash q); [exact H|].
  destruct q as [|c q]; [discriminate|]. exact H.
Qed.

Lemma sum_under_none (prefix : string) (l : list (string * Z)) :
  Forall (fun kv => startsWith prefix (fst kv) = false) l ->
  foldr (uncurry (add_under prefix)) 0 l = 0.
Proof.
  induction 1 as [|[k v] l Hk _ IH]; [reflexivity|].
  cbn [foldr uncurry]. unfold add_under at 1. cbn [fst] in Hk. now rewrite Hk.
Qed.

(** X21. The editor page builds its tree and its counts from the same
    file paths, but every path of the tree starts with a slash while the
    counts are filed under the paths as they came.  So when no file path
    of the result starts with a slash (and their segments are ordinary
    keys), every node of the tree, file or folder, has the count 0 and
    shows no badge, however many findings the files have. *)
Theorem relative_paths_get_no_badge (files : list BasicCryptoAnalysis)
    (node : TreeNode) :
  plain_keys (map file_path files) ->
  (forall a, In a files -> startsWith "/" (file_path a) = false) ->
  In node (nodes_of (buildTreeFromFilePaths (map file_path files))) ->
  startsWith "/" (n_path node) = true /\
  count (findingsCountByPath files) node = 0.
Proof.
  intros _ Hrel Hnode. pose proof (tree_paths_rooted _ _ Hnode) as Hroot.
  split; [exact Hroot|].
  assert (forall k v, findingsCountByPath files !! k = Some v -> startsWith "/" k = false)
    as Hkeys.
  { apply (recorded files (fun k _ => startsWith "/" k = false)).
    - exact Hrel.
    - intros k v H. now rewrite lookup_empty in H. }
  unfold count. destruct (n_type node).
  - unfold getFolderCount.
    destruct (String.eqb (n_path node) ""); [reflexivity|].
    rewrite map_fold_foldr. apply sum_under_none.
    apply List.Forall_forall. intros [k v] Hin. cbn [fst].
    apply list_elem_of_In, elem_of_map_to_list in Hin.
    destruct (startsWith (folder_prefix (n_path node)) k) eqn:E; [|reflexivity].
    rewrite <- (Hkeys k v Hin). symmetry.
    eapply startsWith_trans; [apply folder_prefix_rooted, Hroot|exact E].
  - destruct (findingsCountByPath files !! n_path node) as [v|] eqn:E; [|reflexivity].
    apply Hkeys in E. congruence.
Qed.

Lemma sum_under_le (p1 p2 : string) (l : list (string * Z)) :
  (forall k, startsWith p2 k = true -> startsWith p1 k = true) ->
  Forall (fun kv => 0 <= snd kv) l ->
  0 <= foldr (uncurry (add_under p2)) 0 l <= foldr (uncurry (add_under p1)) 0 l.
Proof.
  intros Hsub. induction 1 as [|[k v] l Hv _ IH]; [cbn; lia|].
  cbn [foldr uncurry snd] in *.
  set (s2 := foldr (uncurry (add_under p2)) 0 l) in *.
  set (s1 := foldr (uncurry (add_under p1)) 0 l) in *.
  unfold add_under. specialize (Hsub k).
  destruct (startsWith p2 k); [rewrite Hsub by reflexivity; lia|].
  destruct (startsWith p1 k); lia.
Qed.

(** X22. The count of a folder is never negative and covers the counts
    of the folders below it: when the path [inner] lies under the folder
    [outer], the count of [inner] is at most the count of [outer]. *)
Theorem folder_count_covers_subfolders (files : list BasicCryptoAnalysis)
    (outer inner : string) :
  outer <> ""%string -> startsWith (folder_prefix outer) inner = true ->
  0 <= getFolderCount (findingsCountByPath files) inner
    <= getFolderCount (findingsCountByPath files) outer.
Proof.
  intros Hne Hin. unfold getFolderCount.
  apply String.eqb_neq in Hne. rewrite Hne.
  assert (Forall (fun kv : string * Z => 0 <= snd kv)
            (map_to_list (findingsCountByPath files))) as Hpos.
  { apply List.Forall_forall. intros [k v] Hkv. cbn [snd].
    apply list_elem_of_In, elem_of_map_to_list in Hkv. revert Hkv.
    apply (recorded files (fun _ v => 0 <= v)).
    - intros a _. apply findings_in_nonneg.
    - intros k' v' H. now rewrite lookup_empty in H. }
  destruct (String.eqb inner "").
  - rewrite map_fold_foldr.
    destruct (sum_under_le (folder_prefix outer) (folder_prefix outer) _
                (fun k H => H) Hpos). lia.
  - rewrite !map_fold_foldr. apply sum_under_le; [|exact Hpos].
    intros k Hk. eapply startsWith_trans; [exact Hin|].
    eapply startsWith_trans; [|exact Hk].
    unfold folder_prefix. destruct (ends_with_slash inner).
    + clear. induction inner as [|c s IH]; [reflexivity|]. cbn.
      now rewrite Ascii.eqb_refl.
    + apply startsWith_app.
Qed.

Lemma relative_paths_get_no_badge_witness :
  count (findingsCountByPath [flagged "src/a.py"])
        (mkTreeNode "a.py" "/src/a.py" file 1 None None) = 0 /\
  findings_in (flagged "src/a.py") = 2.
Proof.
  split; [|reflexivity].
  apply (relative_paths_get_no_badge [flagged "src/a.py"]
           (mkTreeNode "a.py" "/src/a.py" file 1 None None)).
  - intros p seg Hp Hseg Hin.
    cbn in Hp. repeat destruct Hp as [<-|Hp]; try contradiction;
      cbn in Hseg; repeat destruct Hseg as [<-|Hseg]; try contradiction;
      cbn in Hin; repeat destruct Hin as [Hin|Hin]; try discriminate; contradiction.
  - intros a [<-|[]]. reflexivity.
  - cbn. right. left. reflexivity.
Defined.

Lemma folder_count_covers_subfolders_witness :
  0 <= getFolderCount (findingsCountByPath [flagged "/src/lib/a.py"; flagged "/src/b.py"])
         "/src/lib"
    <= getFolderCount (findingsCountByPath [flagged "/src/lib/a.py"; flagged "/src/b.py"])
         "/src".
Proof.
  apply (folder_count_covers_subfolders
           [flagged "/src/lib/a.py"; flagged "/src/b.py"] "/src" "/src/lib");
    [discriminate|reflexivity].
Defined.

End EditorSpec.

(** ** Navigation after [done] *)

Module LandingSpec.
Import Analysis Reconciler Landing.
Local Open Scope Z_scope.

Local Arguments Js.truthy : simpl never.
Local Arguments Js.or_else : simpl never.
Local Arguments derivedEntries : simpl never.

(** X14. A [done] event that reaches an operation which has not finished
    (for the git operation: with a payload whose file paths can be read)
    ends it on the findings page: once the two timers it starts have run,
    the router was pushed exactly once, to the findings of the version the
    payload names or to the plain findings page, the payload's result is
    stored, the page is idle with its progress reset, no callback of
    [setTimeout] is pending other than, in the git operation, the
    inactivity timer, which the [done] listener sets again after
    [finalize] (its callback does nothing once the operation is finished),
    and the stream was closed once. *)
Theorem done_lands_on_findings (k : Stream) (evs : list Event) (d : Data) :
  let st := run k (begin k) evs in
  let st' := run k st (done_then_timers d) in
  finished (op st) = false -> readable k d ->
  pushed (page st') = [route (targetVersion k d)] /\
  analysisResult (page st') = Some (result d) /\
  loading (page st') = false /\ activeJob (page st') = None /\
  progressPct (page st') = 0 /\ progressMsg (page st') = "initializing..."%string /\
  timeouts (op st') = [] /\
  safetyTimer (op st')
    = match k with AnalyzeLocal => false | AnalyzeGit => true end /\
  closed (op st') = 1%nat.
Proof.
  intros st st' Hfin Hread. subst st'.
  pose proof (ReconcilerSpec.run_consistent k evs (begin k)
                (ReconcilerSpec.begin_consistent k)) as Hc.
  fold st in Hc. clearbody st. unfold consistent in Hc. rewrite Hfin in Hc.
  destruct st as [[ar te ld aj pct msg pu] [fin ec cl sf tos]].
  cbn in Hfin, Hc. destruct Hc as (-> & -> & -> & _). subst fin.
  unfold route, done_then_timers, run. cbn [fold_left].
  destruct k; cbn [handle handleLocal handleGit readable] in Hread |- *.
  - cbn [count_event on_op op finished eventCount closed safetyTimer timeouts page obj].
    unfold Reconciler.finalize at 1. cbn.
    destruct (Js.truthy (versionId (result d))); cbn; repeat split; reflexivity.
  - cbn [op finished obj].
    destruct (derivedEntries (Some d)) as [entries|]; [|congruence]. cbn.
    destruct (Js.truthy _); cbn; repeat split; reflexivity.
Qed.

Lemma done_lands_on_findings_witness :
  pushed (page (run AnalyzeLocal (run AnalyzeLocal (begin AnalyzeLocal) [])
                  (done_then_timers
                     {| message := None; done := None; total := None;
                        result := versioned |})))
  = [FindingsVersion "v1"] /\
  safetyTimer (op (run AnalyzeGit (run AnalyzeGit (begin AnalyzeGit) [Open])
                     (done_then_timers
                        {| message := None; done := None; total := None;
                           result := versioned |})))
  = true.
Proof.
  split.
  - apply (done_lands_on_findings AnalyzeLocal []
             {| message := None; done := None; total := None; result := versioned |});
      [reflexivity|exact I].
  - apply (done_lands_on_findings AnalyzeGit [Open]
             {| message := None; done := None; total := None; result := versioned |});
      [reflexivity|discriminate].
Defined.

End LandingSpec.

(** ** The ZIP upload *)

Module ZipSpec.
Import Analysis Reconciler Zip.
Local Open Scope Z_scope.

Local Arguments redirects : simpl never.

Example chunks_example :
  chunks "a

b" = ["a"; "b"] /\ eventMatch "event: done" = Some "done" /\
  eventMatch "event: done
data: {}" = None /\
  dataMatch "event: done
data: {}" = Some "{}".
Proof. repeat split; reflexivity. Qed.

Lemma after_spec (p s r : string) : after p s = Some r <-> s = p +:+ r.
Proof.
  revert s. induction p as [|a p IH]; intros s; cbn.
  - split; [intros [= ->]; reflexivity|intros ->; reflexivity].
  - destruct s as [|b s]; [split; discriminate|].
    destruct (Ascii.eqb_spec a b) as [->|Hne].
    + rewrite IH. split; [intros ->; reflexivity|intros [= ->]; reflexivity].
    + split; [discriminate|intros [= -> ->]; congruence].
Qed.

(** On a text without line terminator the only place where a line starts
    is its head. *)
Lemma data_from_false (s : string) :
  dot_all s = true -> data_from false s = None.
Proof.
  induction s as [|c s IH]; intros H; [reflexivity|].
  cbn [dot_all] in H.
  destruct (terminator (String c s)) eqn:E; [discriminate|].
  specialize (IH H). clear H.
  unfold terminator in E. cbn [data_from].
  destruct c as [[] [] [] [] [] [] [] []]; try exact IH; try discriminate.
  destruct s as [|[[] [] [] [] [] [] [] []] s]; try exact IH.
  destruct s as [|[[] [] [] [] [] [] [] []] s]; try exact IH; try discriminate.
Qed.

Lemma data_from_no_terminator (s : string) :
  dot_all s = true -> data_from true s = data_here s.
Proof.
  intros H. destruct s as [|c s]; [reflexivity|].
  cbn [data_from]. destruct (data_here (String c s)) eqn:Ed; [reflexivity|].
  pose proof (data_from_false (String c s) H) as Hf. cbn [data_from] in Hf.
  exact Hf.
Qed.

Lemma event_excludes_data (line event : string) :
  eventMatch line = Some event -> dataMatch line = None.
Proof.
  unfold eventMatch, dataMatch.
  destruct (after "event: " line) as [rest|] eqn:E; [|discriminate].
  apply after_spec in E. subst line.
  destruct (negb (String.eqb rest "") && dot_all rest) eqn:Hc; [|discriminate].
  apply andb_true_iff in Hc as [_ Hd]. intros _.
  rewrite data_from_no_terminator; [reflexivity|exact Hd].
Qed.

Section ReaderSpec.

Variable JSON_parse : string -> option Json.
Variable trim : string -> string.

Lemma read_chunk_idle (st : State) (line : string) :
  read_chunk JSON_parse trim st line = st.
Proof.
  unfold read_chunk. destruct (String.eqb (trim line) ""); [reflexivity|].
  destruct (eventMatch line) as [event|] eqn:E; [|reflexivity].
  now rewrite (event_excludes_data line event E).
Qed.

Lemma loading_idle (st : State) (responseText : string) (status : Z) :
  handleZip JSON_parse trim st (ReadyStateChange 3 responseText status) = st.
Proof.
  cbn. induction (chunks responseText) as [|line l IH]; [reflexivity|].
  cbn [fold_left]. now rewrite read_chunk_idle.
Qed.

Lemma finalize_none_invariant (st : State) :
  upload_invariant st -> finished (op st) = false ->
  upload_invariant (Zip.finalize None st) /\
  finished (op (Zip.finalize None st)) = true.
Proof.
  destruct st as [[ar te ld aj pct msg pu] [fin ec cl sf tos]].
  unfold upload_invariant. cbn. intros (-> & -> & Hr & H) ->.
  destruct H as (-> & -> & -> & ->). cbn. repeat split; reflexivity.
Qed.

Lemma handleZip_invariant (st : State) (ev : XhrEvent) :
  upload_invariant st ->
  upload_invariant (handleZip JSON_parse trim st ev) /\
  (finished (op (handleZip JSON_parse trim st ev)) = true
   <-> finished (op st) = true \/ ends ev).
Proof.
  intros Hinv. destruct ev as [lc loaded total|rs text status| | |n].
  - destruct st as [[ar te ld aj pct msg pu] [fin ec cl sf tos]].
    destruct lc; cbn; (split; [exact Hinv|]); cbn; tauto.
  - destruct (Z.eqb_spec rs 3) as [->|H3].
    { rewrite loading_idle. split; [exact Hinv|]. cbn. intuition lia. }
    cbn [handleZip]. apply Z.eqb_neq in H3. rewrite H3.
    destruct (Z.eqb_spec rs 4) as [->|H4].
    + destruct (finished (op st)) eqn:Hf.
      * split; [exact Hinv|]. cbn. tauto.
      * destruct (finalize_none_invariant st Hinv Hf) as [H1 H2].
        split; [exact H1|]. cbn. rewrite H2. tauto.
    + split; [exact Hinv|]. cbn. tauto.
  - cbn [handleZip]. destruct (finished (op st)) eqn:Hf.
    + split; [exact Hinv|]. cbn. tauto.
    + destruct (finalize_none_invariant st Hinv Hf) as [H1 H2].
      split; [exact H1|]. cbn. rewrite H2. tauto.
  - destruct st as [[ar te ld aj pct msg pu] [fin ec cl sf tos]].
    unfold upload_invariant in *. cbn in Hinv |- *.
    destruct Hinv as (-> & -> & Hr & H). destruct fin.
    + destruct H as [-> ->]. destruct sf; cbn; repeat split; auto.
    + destruct H as (-> & -> & -> & ->). cbn. repeat split; auto.
  - cbn [handleZip]. destruct (timeouts (op st) !! n) as [cb|] eqn:E.
    2:{ split; [exact Hinv|]. cbn. tauto. }
    destruct st as [[ar te ld aj pct msg pu] [fin ec cl sf tos]].
    unfold upload_invariant in *. cbn in Hinv, E |- *.
    destruct Hinv as (-> & -> & Hr & H).
    pose proof (ReconcilerSpec.redirects_delete _ _ _ E) as Hd.
    destruct cb as [t|]; cbn [is_redirect] in Hd; [lia|].
    cbn. destruct fin; [|destruct H as (_ & _ & _ & ->); discriminate].
    destruct H as [-> ->]. repeat split; auto; lia.
Qed.

Lemma runZip_invariant (evs : list XhrEvent) (st : State) :
  upload_invariant st ->
  upload_invariant (runZip JSON_parse trim st evs) /\
  (finished (op (runZip JSON_parse trim st evs)) = true
   <-> finished (op st) = true \/ Exists ends evs).
Proof.
  revert st. induction evs as [|ev evs IH]; intros st Hinv.
  - split; [exact Hinv|]. cbn. rewrite Exists_nil. tauto.
  - destruct (handleZip_invariant st ev Hinv) as [H1 H2].
    destruct (IH _ H1) as [H3 H4].
    change (runZip JSON_parse trim st (ev :: evs))
      with (runZip JSON_parse trim (handleZip JSON_parse trim st ev) evs).
    split; [exact H3|]. rewrite H4, H2, Exists_cons. tauto.
Qed.

End ReaderSpec.

(** X15. The reader of the ZIP response never acts on an event.  A chunk
    that matches the event pattern is one line that starts with [event: ],
    since that pattern has no [m] flag and [.] stops at a line terminator;
    such a chunk has no line that starts with [data: ], so the two
    patterns never match the same chunk.  Whatever the response text,
    the parser and [trim], a [readystatechange] with state 3 leaves the
    page as it is. *)
Theorem zip_loading_dispatches_nothing (JSON_parse : string -> option Json)
    (trim : string -> string) :
  (forall line, eventMatch line = None \/ dataMatch line = None) /\
  (forall st responseText status,
     handleZip JSON_parse trim st (ReadyStateChange 3 responseText status) = st).
Proof.
  split.
  - intros line. destruct (eventMatch line) as [event|] eqn:E; [right|now left].
    exact (event_excludes_data line event E).
  - apply loading_idle.
Qed.

(** X16. Whatever the upload delivers, in any order: the operation is
    finished exactly when the response completed (state 4), the request
    failed or the 180 s timer ran; the router is never pushed and no
    redirect is ever pending, no analysis result is ever stored; once
    finished the page is idle, and until then it stays loading with the
    upload as its active job. *)
Theorem zip_upload_ends_without_result (JSON_parse : string -> option Json)
    (trim : string -> string) (evs : list XhrEvent) :
  let st := runZip JSON_parse trim beginZip evs in
  (finished (op st) = true <-> Exists ends evs) /\
  pushed (page st) = [] /\
  redirects (timeouts (op st)) = 0%nat /\
  analysisResult (page st) = None /\
  (finished (op st) = true -> loading (page st) = false /\ activeJob (page st) = None) /\
  (finished (op st) = false ->
     loading (page st) = true /\ activeJob (page st) = Some upload).
Proof.
  intros st. subst st.
  assert (upload_invariant beginZip) as H0 by (cbn; repeat split; reflexivity).
  destruct (runZip_invariant JSON_parse trim evs beginZip H0) as [Hinv Hfin].
  set (st := runZip JSON_parse trim beginZip evs) in *.
  destruct Hinv as (Hp & Ha & Hr & H).
  split; [rewrite Hfin; cbn; intuition discriminate|].
  split; [exact Hp|]. split; [exact Hr|]. split; [exact Ha|].
  split; intros Hf; rewrite Hf in H; tauto.
Qed.

End ZipSpec.

(** ** One finalize per operation, in the three operations *)

Module FinalizeSpec.
Import Analysis Reconciler Zip.
Local Open Scope Z_scope.

Local Arguments scanningPct : simpl never.
Local Arguments redirects : simpl never.
Local Arguments derivedEntries : simpl never.
Local Arguments Js.truthy : simpl never.
Local Arguments Js.or_else : simpl never.

(** A [cached] event whose payload is read finalizes the git operation. *)
Lemma cached_finalizes (st : State) (d : Data) :
  finished (op st) = false -> derivedEntries (Some d) <> None ->
  finished (op (handle AnalyzeGit st (Named cached (Some (Obj d))))) = true /\
  closed (op (handle AnalyzeGit st (Named cached (Some (Obj d))))) = S (closed (op st)).
Proof.
  intros Hf Hd. destruct st as [[ar te ld aj pct msg pu] [fin ec cl sf tos]].
  cbn in Hf. subst fin. cbn.
  destruct (derivedEntries (Some d)) as [entries|]; [|congruence].
  cbn. split; reflexivity.
Qed.

Section Upload.

Variable JSON_parse : string -> option Json.
Variable trim : string -> string.

Lemma late_xhr_idle (st : State) (ev : XhrEvent) :
  finished (op st) = true -> late_xhr ev ->
  page (handleZip JSON_parse trim st ev) = page st /\
  timeouts (op (handleZip JSON_parse trim st ev)) = timeouts (op st) /\
  finished (op (handleZip JSON_parse trim st ev)) = true.
Proof.
  intros Hf L. destruct ev as [lc loaded total|rs text status| | |n];
    try contradiction.
  - destruct (Z.eqb_spec rs 3) as [->|H3].
    { rewrite ZipSpec.loading_idle. auto. }
    cbn [handleZip]. apply Z.eqb_neq in H3. rewrite H3, Hf.
    destruct (rs =? 4); auto.
  - cbn [handleZip]. rewrite Hf. auto.
  - destruct st as [[ar te ld aj pct msg pu] [fin ec cl sf tos]].
    cbn in Hf. subst fin. destruct sf; cbn; auto.
Qed.

Lemma upload_run (evs : list XhrEvent) :
  let st := runZip JSON_parse trim beginZip evs in
  (finished (op st) = true <-> Exists ends evs) /\
  (finished (op st) = false -> safetyTimer (op st) = true) /\
  (length (pushed (page st)) <= 1)%nat.
Proof.
  intros st. subst st.
  assert (upload_invariant beginZip) as H0 by (cbn; repeat split; reflexivity).
  destruct (ZipSpec.runZip_invariant JSON_parse trim evs beginZip H0) as [Hinv Hfin].
  set (st := runZip JSON_parse trim beginZip evs) in *.
  destruct Hinv as (Hp & _ & _ & H).
  split; [rewrite Hfin; cbn; intuition discriminate|].
  split; [|rewrite Hp; cbn; lia].
  intros Hf. rewrite Hf in H. tauto.
Qed.

End Upload.

(** C3, amended. In each of the three operations [finalize] takes effect
    at most once.  On a finished operation it returns the state as it is,
    and a late [done], [cached] or [error] event, a late state change or
    error of the upload, and a timeout leave the page (progress, result,
    navigation) and the pending callbacks untouched; over every sequence
    of events at most one navigation is made, and the [EventSource] of a
    local or git scan is closed at most once, exactly when the operation
    is finished.  Every ZIP upload reaches its finalize: it is finished as
    soon as the response is complete, the request fails or the 180 s timer
    runs, and that timer is pending as long as it is not.  A local or git
    scan is finalized by a [done] event, by an [error] with the connection
    closed and, for git, by a [cached] event whose payload is read; no
    event that is not terminal finalizes it, the inactivity timeout and an
    [error] while the connection is retried included. *)
Theorem finalize_once_in_every_operation
    (JSON_parse : string -> option Json) (trim : string -> string) :
  (forall k data st, finished (op st) = true -> Reconciler.finalize k data st = st) /\
  (forall data st, finished (op st) = true -> Zip.finalize data st = st) /\
  (forall k st ev, finished (op st) = true -> late ev ->
     page (handle k st ev) = page st /\
     timeouts (op (handle k st ev)) = timeouts (op st) /\
     closed (op (handle k st ev)) = closed (op st) /\
     finished (op (handle k st ev)) = true) /\
  (forall st ev, finished (op st) = true -> late_xhr ev ->
     page (handleZip JSON_parse trim st ev) = page st /\
     timeouts (op (handleZip JSON_parse trim st ev)) = timeouts (op st) /\
     finished (op (handleZip JSON_parse trim st ev)) = true) /\
  (forall k evs,
     (closed (op (run k (begin k) evs)) <= 1)%nat /\
     (length (pushed (page (run k (begin k) evs))) <= 1)%nat /\
     (finished (op (run k (begin k) evs)) = true <->
      closed (op (run k (begin k) evs)) = 1%nat)) /\
  (forall evs,
     (finished (op (runZip JSON_parse trim beginZip evs)) = true <-> Exists ends evs) /\
     (finished (op (runZip JSON_parse trim beginZip evs)) = false ->
      safetyTimer (op (runZip JSON_parse trim beginZip evs)) = true) /\
     (length (pushed (page (runZip JSON_parse trim beginZip evs))) <= 1)%nat) /\
  (forall k st data, finished (op st) = false ->
     finished (op (handle k st (Named done_ data))) = true /\
     closed (op (handle k st (Named done_ data))) = S (closed (op st))) /\
  (forall k st, finished (op st) = false ->
     finished (op (handle k st (Error CLOSED))) = true /\
     closed (op (handle k st (Error CLOSED))) = S (closed (op st))) /\
  (forall st d, finished (op st) = false -> derivedEntries (Some d) <> None ->
     finished (op (handle AnalyzeGit st (Named cached (Some (Obj d))))) = true /\
     closed (op (handle AnalyzeGit st (Named cached (Some (Obj d)))))
       = S (closed (op st))) /\
  (forall k st ev, nonterminal ev ->
     finished (op (handle k st ev)) = finished (op st) /\
     closed (op (handle k st ev)) = closed (op st)).
Proof.
  split; [intros k; apply (ReconcilerSpec.finalize_at_most_once k)|].
  split; [intros data st H; unfold Zip.finalize; now rewrite H|].
  split; [intros k; apply (ReconcilerSpec.finalize_at_most_once k)|].
  split; [apply late_xhr_idle|].
  split; [intros k; apply (ReconcilerSpec.finalize_at_most_once k)|].
  split; [intros evs; apply (upload_run JSON_parse trim evs)|].
  split; [intros k; apply (ReconcilerSpec.finalize_at_most_once k)|].
  split; [intros k; apply (ReconcilerSpec.finalize_at_most_once k)|].
  split; [apply cached_finalizes|].
  intros k. apply (ReconcilerSpec.finalize_at_most_once k).
Qed.

Lemma finalize_once_in_every_operation_witness :
  Zip.finalize None
    (runZip (fun _ => None) (fun s => s) beginZip [XhrError])
  = runZip (fun _ => None) (fun s => s) beginZip [XhrError] /\
  Reconciler.finalize AnalyzeGit None
    (run AnalyzeGit (begin AnalyzeGit) [Named done_ (payload versioned)])
  = run AnalyzeGit (begin AnalyzeGit) [Named done_ (payload versioned)].
Proof.
  split.
  - apply (proj1 (proj2 (finalize_once_in_every_operation (fun _ => None) (fun s => s)))).
    reflexivity.
  - apply (proj1 (finalize_once_in_every_operation (fun _ => None) (fun s => s))).
    reflexivity.
Defined.

(** X25. The git operation treats a payload that cannot be read in two
    ways.  On a [cached] event the listener only logs: nothing that a
    finalize writes changes, the operation stays unfinished with the
    inactivity timer set again, also when the payload parsed and its file
    paths could not be read (then the result is already stored).  On a
    [done] event the listener finalizes without payload. *)
Theorem git_cached_failure_not_finalized (st : State) :
  finished (op st) = false ->
  not_finalized st (handle AnalyzeGit st (Named cached None)) /\
  safetyTimer (op (handle AnalyzeGit st (Named cached None))) = true /\
  (forall d, derivedEntries (obj d) = None ->
     finished (op (handle AnalyzeGit st (Named cached (Some d)))) = false /\
     closed (op (handle AnalyzeGit st (Named cached (Some d)))) = closed (op st) /\
     loading (page (handle AnalyzeGit st (Named cached (Some d)))) = loading (page st) /\
     analysisResult (page (handle AnalyzeGit st (Named cached (Some d))))
       = (result <$> obj d)) /\
  finished (op (handle AnalyzeGit st (Named done_ None))) = true /\
  loading (page (handle AnalyzeGit st (Named done_ None))) = false /\
  (forall d, derivedEntries (obj d) = None ->
     finished (op (handle AnalyzeGit st (Named done_ (Some d)))) = true).
Proof.
  intros Hf. destruct st as [[ar te ld aj pct msg pu] [fin ec cl sf tos]].
  cbn in Hf. subst fin.
  split; [cbn; unfold not_finalized; cbn; repeat split; reflexivity|].
  split; [reflexivity|].
  split.
  { intros d Hd. cbn. rewrite Hd. cbn. repeat split; reflexivity. }
  split; [reflexivity|]. split; [reflexivity|].
  intros d Hd. cbn. rewrite Hd. reflexivity.
Qed.

Lemma git_cached_failure_not_finalized_witness :
  finished (op (handle AnalyzeGit (begin AnalyzeGit) (Named cached None))) = false /\
  finished (op (handle AnalyzeGit (begin AnalyzeGit) (Named done_ None))) = true.
Proof.
  pose proof (git_cached_failure_not_finalized (begin AnalyzeGit) eq_refl)
    as (Hc & _ & _ & Hd & _).
  split; [|exact Hd]. destruct Hc as [Hc _]. exact Hc.
Defined.

End FinalizeSpec.
